(** * PYPOWER [opf_execute]: solver dispatch and result assembly

    A shallow embedding of [pypower/opf_execute.py].  Python dictionaries are
    finite maps with string keys, numpy arrays are lists, exceptions are an
    error result, and writes to [stdout]/[stderr] are collected in a log.
    A floating-point number is an IEEE 754 binary64 value, and arithmetic
    on floats is the kernel's binary64 arithmetic, rounding to nearest with
    ties to even as CPython and numpy do. *)

From Stdlib Require Import ZArith QArith Lia.
From Stdlib Require Import PrimFloat SpecFloat FloatOps.
From stdpp Require Import base gmap strings list pretty.

Local Open Scope Z_scope.

(** ** Python values *)

#[warnings="-register-all"]
Inductive pyval :=
| PNone
| PInt (z : Z)
| PFloat (x : float)
| PStr (s : string)
| PVec (v : list float)        (* 1-D float array *)
| PIdx (v : list Z)            (* 1-D integer array *)
| PMat (m : list (list float)) (* 2-D float array, row major *)
| PDict (d : gmap string pyval).

Abbreviation dict := (gmap string pyval).

(** ** Exceptions and the error monad *)

Inductive exn :=
| KeyError (k : string)
| TypeError
| IndexError
| ValueError
| UnboundLocalError (v : string)
| Raised (who : string).        (* raised inside a collaborator *)

Inductive outcome (A : Type) : Type :=
| Ok (a : A)
| Raise (e : exn).
Arguments Ok {A} a.
Arguments Raise {A} e.

#[global] Instance outcome_ret : MRet outcome := λ A a, Ok a.
#[global] Instance outcome_bind : MBind outcome :=
  λ A B k m, match m with Ok a => k a | Raise e => Raise e end.

(** Output streams: every write is recorded in order. *)
Inductive stream := Stdout | Stderr.
Definition event : Type := stream * string.

(** A computation that writes to the streams and may raise.  The log is kept
    when an exception is raised: what was written stays written. *)
Definition logged (A : Type) : Type := list event * outcome A.

#[global] Instance logged_ret : MRet logged := λ A a, ([], Ok a).
#[global] Instance logged_bind : MBind logged :=
  λ A B k m,
    match m with
    | (l1, Ok a) => let '(l2, r) := k a in (l1 ++ l2, r)
    | (l1, Raise e) => (l1, Raise e)
    end.

Definition lift {A} (o : outcome A) : logged A := ([], o).
Definition write (s : stream) (msg : string) : logged () := ([(s, msg)], Ok ()).

(** ** Dictionary access *)

(** [d[k]] *)
Definition getitem (d : dict) (k : string) : outcome pyval :=
  match d !! k with
  | Some v => Ok v
  | None => Raise (KeyError k)
  end.

(** The dictionary behind a value that is subscripted with a string key.
    An array refuses the key with [IndexError], any other value with
    [TypeError]. *)
Definition as_dict (v : pyval) : outcome dict :=
  match v with
  | PDict d => Ok d
  | PVec _ | PIdx _ | PMat _ => Raise IndexError
  | _ => Raise TypeError
  end.

(** The float arrays the package keeps under a key.  A value of another
    kind is not followed further: it counts as a [TypeError]. *)
Definition as_vec (v : pyval) : outcome (list float) :=
  match v with PVec x => Ok x | _ => Raise TypeError end.
Definition as_mat (v : pyval) : outcome (list (list float)) :=
  match v with PMat m => Ok m | _ => Raise TypeError end.

(** The integer array behind a value that is used as an index: numpy refuses
    a float array with [IndexError].  A value that is no array is not
    followed further: it counts as a [TypeError]. *)
Definition as_idx (v : pyval) : outcome (list Z) :=
  match v with
  | PIdx i => Ok i
  | PVec _ | PMat _ => Raise IndexError
  | _ => Raise TypeError
  end.

(** [d[p1][p2]...[pn]] *)
Fixpoint getitem_at (p : list string) (v : pyval) : outcome pyval :=
  match p with
  | [] => Ok v
  | k :: p' => d ← as_dict v; w ← getitem d k; getitem_at p' w
  end.

(** [d[p1]...[pn][k] = v], the nested dictionaries being updated in place. *)
Fixpoint setitem_at (p : list string) (k : string) (v : pyval) (d : dict)
  : outcome dict :=
  match p with
  | [] => Ok (<[k := v]> d)
  | q :: p' =>
      sub ← getitem d q;
      sd ← as_dict sub;
      sd' ← setitem_at p' k v sd;
      Ok (<[q := PDict sd']> d)
  end.

(** [del d[k]] *)
Definition delitem (d : dict) (k : string) : outcome dict :=
  match d !! k with
  | Some _ => Ok (delete k d)
  | None => Raise (KeyError k)
  end.

(** [len(v)] *)
Definition py_len (v : pyval) : outcome nat :=
  match v with
  | PStr s => Ok (String.length s)
  | PVec x => Ok (length x)
  | PIdx i => Ok (length i)
  | PMat m => Ok (length m)
  | PDict d => Ok (size d)
  | PNone | PInt _ | PFloat _ => Raise TypeError
  end.

(** ** numpy *)

(** An index into an axis of length [n]; negative indices count from the
    end. *)
Definition np_index (n : nat) (i : Z) : outcome nat :=
  if decide (0 ≤ i < Z.of_nat n) then Ok (Z.to_nat i)
  else if decide (- Z.of_nat n ≤ i < 0) then Ok (Z.to_nat (Z.of_nat n + i))
  else Raise IndexError.

(** [arange(a, b)] *)
Definition arange (a b : Z) : list Z :=
  map (λ k, a + Z.of_nat k) (seq 0 (Z.to_nat (b - a))).

(** [v[idx]] for an integer array [idx] *)
Fixpoint np_take {A} (v : list A) (idx : list Z) : outcome (list A) :=
  match idx with
  | [] => Ok []
  | i :: idx' =>
      k ← np_index (length v) i;
      a ← from_option Ok (Raise IndexError) (v !! k);
      r ← np_take v idx';
      Ok (a :: r)
  end.

(** The position a slice bound denotes on an axis of length [n]. *)
Definition slice_bound (n : nat) (i : Z) : nat :=
  if decide (i < 0) then Z.to_nat (Z.max 0 (Z.of_nat n + i))
  else Nat.min n (Z.to_nat i).

(** [v[:i]], [v[i:]] and [v[a:b]] *)
Definition slice_to {A} (v : list A) (i : Z) : list A :=
  take (slice_bound (length v) i) v.
Definition slice_from {A} (v : list A) (i : Z) : list A :=
  drop (slice_bound (length v) i) v.
Definition slice {A} (v : list A) (a b : Z) : list A :=
  let lo := slice_bound (length v) a in
  let hi := slice_bound (length v) b in
  take (hi - lo) (drop lo v).

(** Broadcasting a 1-D array to a given length. *)
Definition broadcast_to {A} (n : nat) (v : list A) : outcome (list A) :=
  if decide (length v = n) then Ok v
  else match v with
       | [a] => Ok (replicate n a)
       | _ => Raise ValueError
       end.

(** Elementwise [a - b] *)
Definition np_sub (a b : list float) : outcome (list float) :=
  if decide (length a = length b) then Ok (zip_with PrimFloat.sub a b)
  else match a, b with
       | [x], _ => Ok (map (λ y, (x - y)%float) b)
       | _, [y] => Ok (map (λ x, (x - y)%float) a)
       | _, _ => Raise ValueError
       end.

(** [zeros(n)] *)
Definition zeros (n : nat) : list float := replicate n 0%float.

(** The column bound of a table index, which numpy checks before it looks
    at the row indices or at the values.  A table without rows has no width
    here, and no bound to check. *)
Definition check_column (m : list (list float)) (c : nat) : outcome () :=
  match m with
  | [] => Ok ()
  | row :: _ => if decide (c < length row)%nat then Ok () else Raise IndexError
  end.

(** [m[:, c]] *)
Fixpoint mat_col (m : list (list float)) (c : nat) : outcome (list float) :=
  match m with
  | [] => Ok []
  | row :: m' =>
      a ← from_option Ok (Raise IndexError) (row !! c);
      r ← mat_col m' c;
      Ok (a :: r)
  end.

(** One cell write, [m[r, c] = a], both indices already in range. *)
Definition mat_set (m : list (list float)) (r c : nat) (a : float)
  : outcome (list (list float)) :=
  match m !! r with
  | Some row =>
      if decide (c < length row)%nat then Ok (<[r := <[c := a]> row]> m)
      else Raise IndexError
  | None => Raise IndexError
  end.

(** The writes of [m[rows, c] = vals], performed in order, [rows] and [vals]
    having one length. *)
Fixpoint mat_put (m : list (list float)) (rows : list Z) (c : nat)
  (vals : list float) : outcome (list (list float)) :=
  match rows, vals with
  | r :: rows', a :: vals' =>
      k ← np_index (length m) r;
      m' ← mat_set m k c a;
      mat_put m' rows' c vals'
  | _, _ => Ok m
  end.

(** [m[rows, c] = vals] for an integer array [rows] *)
Definition mat_set_rows (m : list (list float)) (rows : list Z) (c : nat)
  (vals : list float) : outcome (list (list float)) :=
  _ ← check_column m c;
  vs ← broadcast_to (length rows) vals;
  mat_put m rows c vs.

(** [m[:, c] = vals] *)
Definition mat_set_col (m : list (list float)) (c : nat) (vals : list float)
  : outcome (list (list float)) :=
  mat_set_rows m (arange 0 (Z.of_nat (length m))) c vals.

(** The reads of [m[rows, c]], one listed row after the other. *)
Fixpoint mat_take (m : list (list float)) (rows : list Z) (c : nat)
  : outcome (list float) :=
  match rows with
  | [] => Ok []
  | r :: rows' =>
      k ← np_index (length m) r;
      row ← from_option Ok (Raise IndexError) (m !! k);
      a ← from_option Ok (Raise IndexError) (row !! c);
      rest ← mat_take m rows' c;
      Ok (a :: rest)
  end.

(** [m[rows, c]] for an integer array [rows] *)
Definition mat_get_rows (m : list (list float)) (rows : list Z) (c : nat)
  : outcome (list float) :=
  _ ← check_column m c;
  mat_take m rows c.

(** [x.astype(int)] on one entry: the integer part, the fraction being
    dropped (truncation toward zero).  An infinity or a NaN has no integer
    part; numpy's cast turns them into an integer that is no index of any
    array. *)
Definition astype_int (x : float) : option Z :=
  match Prim2SF x with
  | S754_zero _ => Some 0
  | S754_finite s m e =>
      let a := if 0 <=? e then Z.shiftl (Z.pos m) e
               else Z.shiftr (Z.pos m) (- e) in
      Some (if s then - a else a)
  | _ => None
  end.

(** [v.astype(int)] used as an index array: an entry without an integer
    part makes the indexing raise. *)
Definition astype_index (v : list float) : outcome (list Z) :=
  from_option Ok (Raise IndexError) (mapM astype_int v).

(** [m.T] *)
Fixpoint transpose (ncols : nat) (m : list (list float))
  : list (list float) :=
  match ncols with
  | O => []
  | S n => transpose n m ++ [omap (λ row, row !! n) m]
  end.

(** [r_[a, b]] on two arrays of one kind *)
Definition np_r_ (a b : pyval) : outcome pyval :=
  match a, b with
  | PVec x, PVec y => Ok (PVec (x ++ y))
  | PMat x, PMat y => Ok (PMat (x ++ y))
  | _, _ => Raise ValueError
  end.

(** [a.T] *)
Definition np_T (a : pyval) : outcome pyval :=
  match a with
  | PVec x => Ok (PVec x)
  | PMat m => Ok (PMat (transpose (from_option length 0%nat (head m)) m))
  | _ => Raise TypeError
  end.

(** ** The OPF model object and the collaborators *)

(** One space of the block index registry, as [om.get_idx()] returns it:
    [vv['i1'][name]], [vv['iN'][name]], [vv['N'][name]]. *)
Record idx_t := {
  idx_i1 : gmap string Z;
  idx_iN : gmap string Z;
  idx_N : gmap string Z
}.

(** The methods and attributes of [om] that [opf_execute] uses.  The class is
    defined elsewhere; any method may raise. *)
Record opf_model := {
  var_order : list string;                        (* om.var['order'] *)
  lin_order : list string;                        (* om.lin['order'] *)
  nln_order : list string;                        (* om.nln['order'] *)
  cost_order : list string;                       (* om.cost['order'] *)
  build_cost_params : outcome ();
  get_idx : idx_t * idx_t * idx_t * idx_t;        (* vv, ll, nn, cc *)
  getN : string → string → outcome Z;
  userdata : string → outcome pyval;
  compute_cost : pyval → string → outcome pyval;
  get_ppc : outcome dict
}.

(** The option mapping: the options read here are integers. *)
Abbreviation options := (gmap string Z).

(** What a solver returns: [(results, success, raw)]. *)
Definition solution : Type := dict * bool * dict.

(** The imported functions and column constants.  They live in other modules
    of the package and are taken as given.  A collaborator is a function of
    its arguments that may raise: it does not change [om] or [ppopt], and the
    dictionaries it returns are not shared with anything else, so an update
    in place is an update of a value. *)
Record collaborators := {
  VM : nat;                                       (* idx_bus *)
  GEN_BUS : nat;                                  (* idx_gen *)
  VG : nat;
  MU_ANGMIN : nat;                                (* idx_brch *)
  MU_ANGMAX : nat;
  ppver : string → outcome (gmap string string);
  dcopf_solver : opf_model → options → outcome solution;
  pipsopf_solver : opf_model → options → outcome solution;
  pyipopt_importable : bool;                      (* __import__('pyipopt') *)
  ipoptopf_solver : opf_model → options → outcome solution;
  update_mupq :
    pyval → pyval → list float → list float → pyval → outcome pyval;
  makeYbus : pyval → pyval → pyval → outcome (pyval * pyval * pyval);
  opf_consfcn :
    pyval → opf_model → pyval → pyval → pyval → options →
    outcome (pyval * pyval * pyval * pyval);
  opf_costfcn : pyval → opf_model → outcome (pyval * pyval * pyval)
}.

(** ** The function, stage by stage *)

Definition nl : string := String (Ascii.ascii_of_nat 10) EmptyString.

(** Python truth value of an integer. *)
Definition truthy (z : Z) : bool := negb (z =? 0).

(** [ppopt[k]] *)
Definition getopt (ppopt : options) (k : string) : outcome Z :=
  match ppopt !! k with
  | Some v => Ok v
  | None => Raise (KeyError k)
  end.

(** [m[name]] in a registry dictionary *)
Definition getidx (m : gmap string Z) (name : string) : outcome Z :=
  match m !! name with
  | Some v => Ok v
  | None => Raise (KeyError name)
  end.

(** Python reads [alg == a | alg == b] as the chained comparison
    [alg == (a | alg) == b], since [|] binds tighter than [==]. *)
Definition deprecated_test (alg a b : Z) : bool :=
  (alg =? Z.lor a alg) && (Z.lor a alg =? b).

(** Lines 75-83. *)
Definition update_deprecated (alg : Z) : Z :=
  if deprecated_test alg 100 200 then 300
  else if deprecated_test alg 120 220 then 320
  else if deprecated_test alg 140 240 then 340
  else if deprecated_test alg 160 260 then 360
  else alg.

(** The remapping table in the words of the specification: a logical "or" of
    two equality tests per pair. *)
Definition remap_spec (alg : Z) : Z :=
  if (alg =? 100) || (alg =? 200) then 300
  else if (alg =? 120) || (alg =? 220) then 320
  else if (alg =? 140) || (alg =? 240) then 340
  else if (alg =? 160) || (alg =? 260) then 360
  else alg.

(** The local variables after the setup and the solver call.  [results],
    [success] and [raw] are bound together by one tuple assignment, or not at
    all. *)
Record locals := {
  l_dc : Z;
  l_alg : Z;
  l_ppopt : options;
  l_bound : option solution
}.

(** Lines 44-58: options, cost parameters, indexing, banner. *)
Definition setup (E : collaborators) (om : opf_model) (ppopt : options)
  : logged (Z * Z * Z) :=
  dc ← lift (getopt ppopt "PF_DC");
  alg ← lift (getopt ppopt "OPF_ALG");
  verbose ← lift (getopt ppopt "VERBOSE");
  _ ← lift (build_cost_params om);
  _ ← (if decide (0 < verbose) then
         v ← lift (ppver E "all");
         ver ← lift (from_option Ok (Raise (KeyError "Version")) (v !! "Version"));
         date ← lift (from_option Ok (Raise (KeyError "Date")) (v !! "Date"));
         write Stdout (nl +:+ "MATPOWER Version " +:+ ver +:+ ", " +:+ date)
       else mret ());
  mret (dc, alg, verbose).

Definition msg_requires_ipopt (alg : Z) : string :=
  "opf_execute: OPF_ALG " +:+ pretty alg
    +:+ " requires IPOPT (see https://projects.coin-or.org/Ipopt/)" +:+ nl.

Definition msg_not_valid (alg : Z) : string :=
  "opf_execute: OPF_ALG " +:+ pretty alg
    +:+ " is not a valid algorithm code" +:+ nl.

(** Lines 87-97: the AC solver selected by the resolved code. *)
Definition run_ac_solver (E : collaborators) (om : opf_model)
  (ppopt : options) (alg : Z) : logged (option solution) :=
  if (alg =? 560) || (alg =? 565) then
    s ← lift (pipsopf_solver E om ppopt); mret (Some s)
  else if alg =? 580 then
    (* try: ... except: -- every exception is caught *)
    if pyipopt_importable E then
      match ipoptopf_solver E om ppopt with
      | Ok s => mret (Some s)
      | Raise _ => _ ← write Stderr (msg_requires_ipopt alg); mret None
      end
    else _ ← write Stderr (msg_requires_ipopt alg); mret None
  else
    _ ← write Stderr (msg_not_valid alg); mret None.

(** Lines 44-97. *)
Definition dispatch (E : collaborators) (om : opf_model) (ppopt : options)
  : logged locals :=
  '(dc, alg, verbose) ← setup E om ppopt;
  if truthy dc then
    _ ← (if decide (0 < verbose)
         then write Stdout (" -- DC Optimal Power Flow" +:+ nl) else mret ());
    s ← lift (dcopf_solver E om ppopt);
    mret {| l_dc := dc; l_alg := alg; l_ppopt := ppopt; l_bound := Some s |}
  else
    _ ← (if decide (0 < verbose)
         then write Stdout (" -- AC Optimal Power Flow" +:+ nl) else mret ());
    let alg := if alg =? 0 then 560 else alg in
    let alg := update_deprecated alg in
    let ppopt := <["OPF_ALG_POLY" := alg]> ppopt in
    b ← run_ac_solver E om ppopt alg;
    mret {| l_dc := dc; l_alg := alg; l_ppopt := ppopt; l_bound := b |}.

(** Line 99: does [raw] lack a trace of the algorithm code?  The output
    record is searched with [in] and then subscripted.  An array holds no
    string, so the key counts as missing; a value that is neither a
    dictionary nor an array fails the search or the subscript with
    [TypeError]. *)
Definition lacks_alg (raw : dict) : outcome bool :=
  match raw !! "output" with
  | None => Ok true
  | Some (PDict d) =>
      match d !! "alg" with
      | None => Ok true
      | Some a => n ← py_len a; Ok (n =? 0)%nat
      end
  | Some (PVec _ | PIdx _ | PMat _) => Ok true
  | Some _ => Raise TypeError
  end.

(** Lines 99-100. *)
Definition stamp_alg (alg : Z) (raw : dict) : outcome dict :=
  lacks_alg raw ≫= λ lacks : bool,
    if lacks then setitem_at ["output"] "alg" (PInt alg) raw else Ok raw.

(** Line 105: copy bus voltages back to the gen matrix. *)
Definition copy_bus_voltages (E : collaborators) (results : dict)
  : outcome dict :=
  bus ← getitem results "bus" ≫= as_mat;
  gen ← getitem results "gen" ≫= as_mat;
  col ← mat_col gen (GEN_BUS E);
  rows ← astype_index col;
  vm ← mat_get_rows bus rows (VM E);
  gen ← getitem results "gen" ≫= as_mat;
  gen' ← mat_set_col gen (VG E) vm;
  Ok (<["gen" := PMat gen']> results).

(** [results['mu']['lin'][side][ll['i1'][name]:ll['iN'][name]]] *)
Definition lin_mu_slice (results : dict) (side : string) (ll : idx_t)
  (name : string) : outcome (list float) :=
  v ← getitem_at ["mu"; "lin"; side] (PDict results) ≫= as_vec;
  a ← getidx (idx_i1 ll) name;
  b ← getidx (idx_iN ll) name;
  Ok (slice v a b).

(** Lines 107-112: gen PQ capability curve multipliers. *)
Definition pq_multipliers (E : collaborators) (om : opf_model) (ll : idx_t)
  (results : dict) : outcome dict :=
  nh ← getidx (idx_N ll) "PQh";
  nl ← getidx (idx_N ll) "PQl";
  if (0 <? nh) || (0 <? nl) then
    lh ← lin_mu_slice results "l" ll "PQh";
    uh ← lin_mu_slice results "u" ll "PQh";
    mu_PQh ← np_sub lh uh;
    ll' ← lin_mu_slice results "l" ll "PQl";
    ul ← lin_mu_slice results "u" ll "PQl";
    mu_PQl ← np_sub ll' ul;
    Apqdata ← userdata om "Apqdata";
    baseMVA ← getitem results "baseMVA";
    gen ← getitem results "gen";
    gen' ← update_mupq E baseMVA gen mu_PQh mu_PQl Apqdata;
    Ok (<["gen" := gen']> results)
  else Ok results.

(** Lines 116-133: [g], [dg], [df], [d2f] into [raw]. *)
Definition raw_derivatives (E : collaborators) (om : opf_model)
  (ppopt : options) (results raw : dict) : outcome dict :=
  raw ← match results !! "dg" with
        | Some dg =>
            g ← getitem results "g";
            Ok (<["g" := g]> (<["dg" := dg]> ∅))
        | None => Ok raw
        end;
  raw ← match raw !! "dg" with
        | Some _ => Ok raw
        | None =>
            ppc ← get_ppc om;
            baseMVA ← getitem ppc "baseMVA";
            bus ← getitem ppc "bus";
            branch ← getitem ppc "branch";
            '(Ybus, Yf, Yt) ← makeYbus E baseMVA bus branch;
            x ← getitem results "x";
            '(g, geq, dg, dgeq) ← opf_consfcn E x om Ybus Yf Yt ppopt;
            rg ← np_r_ geq g;
            let raw := <["g" := rg]> raw in
            dgeqT ← np_T dgeq;
            dgT ← np_T dg;
            rdg ← np_r_ dgeqT dgT;
            Ok (<["dg" := rdg]> raw)
        end;
  x ← getitem results "x";
  '(_, df, d2f) ← opf_costfcn E x om;
  Ok (<["d2f" := d2f]> (<["df" := df]> raw)).

(** [numpy.pi]: the binary64 value nearest to the circle constant,
    3.141592653589793115997963468544185161590576171875. *)
Definition pi : float := 0x1.921fb54442d18p+1%float.

(** The unit change of line 143, [m * pi / 180]: a product and then a
    quotient, each rounded. *)
Definition to_per_degree (m : float) : float := (m * pi / 180)%float.

(** Lines 142-144: angle limit constraint multipliers. *)
Definition angle_multipliers (E : collaborators) (om : opf_model) (ll : idx_t)
  (results : dict) : outcome dict :=
  iang ← userdata om "iang";
  l ← lin_mu_slice results "l" ll "ang";
  branch ← getitem results "branch" ≫= as_mat;
  rows ← as_idx iang;
  branch ← mat_set_rows branch rows (MU_ANGMIN E) (map to_per_degree l);
  let results := <["branch" := PMat branch]> results in
  u ← lin_mu_slice results "u" ll "ang";
  branch ← getitem results "branch" ≫= as_mat;
  branch ← mat_set_rows branch rows (MU_ANGMAX E) (map to_per_degree u);
  Ok (<["branch" := PMat branch]> results).

(** The four empty derivative fields of lines 148-151. *)
Definition empty_derivatives (raw : dict) : dict :=
  <["d2f" := PVec []]> (<["df" := PVec []]> (<["g" := PVec []]>
    (<["dg" := PVec []]> raw))).

(** The success branch of [correct] on an AC problem, lines 104-133. *)
Definition correct_ac (E : collaborators) (om : opf_model) (ll : idx_t)
  (ppopt : options) (results raw : dict) : outcome (dict * dict) :=
  results ← copy_bus_voltages E results;
  results ← pq_multipliers E om ll results;
  der ← getopt ppopt "RETURN_RAW_DER";
  raw ← (if truthy der then raw_derivatives E om ppopt results raw
         else Ok raw);
  Ok (results, raw).

(** Lines 136-138. *)
Definition strip_legacy (results : dict) : outcome dict :=
  match results !! "dg" with
  | Some _ => r ← delitem results "dg"; delitem r "g"
  | None => Ok results
  end.

(** Lines 102-151. *)
Definition correct (E : collaborators) (om : opf_model) (dc : Z)
  (ppopt : options) (results : dict) (success : bool) (raw : dict)
  : outcome (dict * dict) :=
  let '(_, ll, _, _) := get_idx om in
  if success then
    '(results, raw) ←
      (if truthy dc then Ok (results, raw)
       else correct_ac E om ll ppopt results raw);
    results ← strip_legacy results;
    nang ← getidx (idx_N ll) "ang";
    results ← (if 0 <? nang then angle_multipliers E om ll results
               else Ok results);
    Ok (results, raw)
  else if truthy dc then Ok (results, raw)
  else
    der ← getopt ppopt "RETURN_RAW_DER";
    if truthy der then Ok (results, empty_derivatives raw)
    else Ok (results, raw).

(** One name of a dual-bearing space: each target dictionary receives the
    entries of its flat vector at [idx]. *)
Fixpoint store_blocks (fields : list (list string * list string))
  (name : string) (idx : list Z) (results : dict) : outcome dict :=
  match fields with
  | [] => Ok results
  | (tgt, src) :: fields' =>
      v ← getitem_at src (PDict results) ≫= as_vec;
      xs ← np_take v idx;
      results ← setitem_at tgt name (PVec xs) results;
      store_blocks fields' name idx results
  end.

(** The loop over the names of a space (lines 156-161, 166-170, 176-180). *)
Fixpoint expand_names (om : opf_model) (space : string) (reg : idx_t)
  (fields : list (list string * list string)) (names : list string)
  (results : dict) : outcome dict :=
  match names with
  | [] => Ok results
  | name :: names' =>
      n ← getN om space name;
      results ←
        (if truthy n then
           a ← getidx (idx_i1 reg) name;
           b ← getidx (idx_iN reg) name;
           store_blocks fields name (arange a b) results
         else Ok results);
      expand_names om space reg fields names' results
  end.

(** [{'l': {}, 'u': {}}] *)
Definition empty_mu : pyval := PDict (<["u" := PDict ∅]> (<["l" := PDict ∅]> ∅)).

Definition var_fields : list (list string * list string) :=
  [(["var"; "val"], ["x"]);
   (["var"; "mu"; "l"], ["mu"; "var"; "l"]);
   (["var"; "mu"; "u"], ["mu"; "var"; "u"])].

(** The two stores of a constraint space, [sp] being ["lin"] or ["nln"]. *)
Definition mu_fields (sp : string) : list (list string * list string) :=
  [([sp; "mu"; "l"], ["mu"; sp; "l"]);
   ([sp; "mu"; "u"], ["mu"; sp; "u"])].

(** Lines 153-161. *)
Definition expand_var (om : opf_model) (results : dict) : outcome dict :=
  let '(vv, _, _, _) := get_idx om in
  let results :=
    match var_order om with
    | [] => results
    | _ => <["var" := PDict (<["mu" := empty_mu]> (<["val" := PDict ∅]> ∅))]> results
    end in
  expand_names om "var" vv var_fields (var_order om) results.

(** Lines 163-170. *)
Definition expand_lin (om : opf_model) (results : dict) : outcome dict :=
  let '(_, ll, _, _) := get_idx om in
  let results :=
    match lin_order om with
    | [] => results
    | _ => <["lin" := PDict (<["mu" := empty_mu]> ∅)]> results
    end in
  expand_names om "lin" ll (mu_fields "lin") (lin_order om) results.

(** Lines 172-180. *)
Definition expand_nln (om : opf_model) (dc : Z) (results : dict)
  : outcome dict :=
  if truthy dc then Ok results
  else
    let '(_, _, nn, _) := get_idx om in
    let results :=
      match nln_order om with
      | [] => results
      | _ => <["nln" := PDict (<["mu" := empty_mu]> ∅)]> results
      end in
    expand_names om "nln" nn (mu_fields "nln") (nln_order om) results.

(** The loop of lines 185-187. *)
Fixpoint cost_names (om : opf_model) (names : list string) (results : dict)
  : outcome dict :=
  match names with
  | [] => Ok results
  | name :: names' =>
      n ← getN om "cost" name;
      results ←
        (if truthy n then
           x ← getitem results "x";
           c ← compute_cost om x name;
           setitem_at ["cost"] name c results
         else Ok results);
      cost_names om names' results
  end.

(** Lines 182-187. *)
Definition expand_cost (om : opf_model) (results : dict) : outcome dict :=
  let results :=
    match cost_order om with
    | [] => results
    | _ => <["cost" := PDict ∅]> results
    end in
  cost_names om (cost_order om) results.

(** [r_[v[:nx], y, v[nx:]]] *)
Definition insert_dummy (v : list float) (nx : Z) (y : list float)
  : list float :=
  slice_to v nx ++ y ++ slice_from v nx.

(** Lines 189-203: insert a dummy [y] into [x]. *)
Definition pwl_patch (om : opf_model) (dc alg : Z) (results raw : dict)
  : outcome (dict * dict) :=
  pwl1 ← userdata om "pwl1";
  k ← py_len pwl1;
  if (0 <? k)%nat && negb (alg =? 545) && negb (alg =? 550) then
    let '(vv, _, _, _) := get_idx om in
    nx ← getidx (idx_iN vv) (if truthy dc then "Pg" else "Qg");
    let y := zeros k in
    xr ← getitem raw "xr" ≫= as_vec;
    let raw := <["xr" := PVec (insert_dummy xr nx y)]> raw in
    x ← getitem results "x" ≫= as_vec;
    let results := <["x" := PVec (insert_dummy x nx y)]> results in
    Ok (results, raw)
  else Ok (results, raw).

(** Lines 153-187. *)
Definition expand (om : opf_model) (dc : Z) (results : dict) : outcome dict :=
  results ← expand_var om results;
  results ← expand_lin om results;
  results ← expand_nln om dc results;
  expand_cost om results.

(** Lines 99-205, from the local variables the solver call left. *)
Definition post (E : collaborators) (om : opf_model) (st : locals)
  : outcome solution :=
  '(results, success, raw) ←
    from_option Ok (Raise (UnboundLocalError "raw")) (l_bound st);
  raw ← stamp_alg (l_alg st) raw;
  '(results, raw) ← correct E om (l_dc st) (l_ppopt st) results success raw;
  results ← expand om (l_dc st) results;
  '(results, raw) ← pwl_patch om (l_dc st) (l_alg st) results raw;
  Ok (results, success, raw).

Definition opf_execute (E : collaborators) (om : opf_model) (ppopt : options)
  : logged solution :=
  st ← dispatch E om ppopt;
  lift (post E om st).

(** ** Vocabulary of the properties *)

(** The code the AC branch resolves a requested code to (lines 72-83). *)
Definition resolved_code (alg : Z) : Z :=
  update_deprecated (if alg =? 0 then 560 else alg).

(** What line 69 writes. *)
Definition ac_banner (verbose : Z) : list event :=
  if decide (0 < verbose)
  then [(Stdout, " -- AC Optimal Power Flow" +:+ nl)] else [].

(** No solver is run for the resolved code: it is unrecognized, or it asks
    for IPOPT and the import or the solver call raises. *)
Definition no_backend (E : collaborators) (om : opf_model) (ppopt : options)
  (alg : Z) : Prop :=
  (alg = 580 ∧
   (pyipopt_importable E = false ∨ ∃ e, ipoptopf_solver E om ppopt = Raise e))
  ∨ (alg ≠ 560 ∧ alg ≠ 565 ∧ alg ≠ 580).

(** The diagnostic of line 95 or line 97. *)
Definition diagnostic (alg : Z) : string :=
  if alg =? 580 then msg_requires_ipopt alg else msg_not_valid alg.

(** The condition of line 193. *)
Definition patch_fires (om : opf_model) (alg : Z) (k : nat) : Prop :=
  (∃ pwl1, userdata om "pwl1" = Ok pwl1 ∧ py_len pwl1 = Ok k) ∧
  (0 < k)%nat ∧ alg ≠ 545 ∧ alg ≠ 550.

(** [vv['iN']['Pg']] for DC, [vv['iN']['Qg']] for AC. *)
Definition split_point (om : opf_model) (dc : Z) : option Z :=
  idx_iN (get_idx om).1.1.1 !! (if truthy dc then "Pg" else "Qg").

(** The situation of lines 117-120: a successful AC solve, raw derivatives
    requested, and a [dg] field in the solver's results. *)
Definition legacy_derivatives (dc : Z) (ppopt : options) (results : dict)
  (success : bool) : Prop :=
  success = true ∧ truthy dc = false ∧
  (∃ der, ppopt !! "RETURN_RAW_DER" = Some der ∧ truthy der = true) ∧
  is_Some (results !! "dg").

(** [raw['output']['alg']] holds the code [alg], or an entry of the solver's
    own that is not empty. *)
Definition records_alg (alg : Z) (raw : dict) : Prop :=
  ∃ out a, raw !! "output" = Some (PDict out) ∧ out !! "alg" = Some a ∧
    (a = PInt alg ∨ ∃ n, py_len a = Ok (S n)).

(** The keys of the derivative fields. *)
Definition derivative_keys : list string := ["g"; "dg"; "df"; "d2f"].

(** The keys of the structured sub-mappings. *)
Definition space_keys : list string := ["var"; "lin"; "nln"; "cost"].

(** Lines 99-187: everything after the solver call and before the patch. *)
Definition before_patch (E : collaborators) (om : opf_model) (st : locals)
  : outcome (dict * dict) :=
  '(results, success, raw) ←
    from_option Ok (Raise (UnboundLocalError "raw")) (l_bound st);
  raw ← stamp_alg (l_alg st) raw;
  '(results, raw) ← correct E om (l_dc st) (l_ppopt st) results success raw;
  results ← expand om (l_dc st) results;
  Ok (results, raw).

(** The position [p] a slice bound [nx] denotes on an axis of length [n]:
    [nx] itself within the axis, counted from the end when negative, and
    the nearer end beyond it. *)
Definition slice_position (n : nat) (nx : Z) (p : nat) : Prop :=
  (0 ≤ nx ≤ Z.of_nat n → p = Z.to_nat nx) ∧
  (Z.of_nat n < nx → p = n) ∧
  (- Z.of_nat n ≤ nx < 0 → p = Z.to_nat (Z.of_nat n + nx)) ∧
  (nx < - Z.of_nat n → p = 0%nat).


(** Does the failure branch fill in empty derivative fields (line 147)? *)
Definition wants_empty_derivatives (dc : Z) (ppopt : options) : bool :=
  negb (truthy dc) && from_option truthy false (ppopt !! "RETURN_RAW_DER").

(** The entry [m[k, c]] of a table, if there is one. *)
Definition cell (m : list (list float)) (k c : nat) : option float :=
  m !! k ≫= λ row, row !! c.

(** The rational a finite float denotes: its significand times a power of
    two. *)
Definition float_value (x : float) : option Q :=
  match Prim2SF x with
  | S754_zero _ => Some 0%Q
  | S754_finite s m e =>
      let n := if s then Z.neg m else Z.pos m in
      Some (if 0 <=? e then (n * 2 ^ e) # 1 else n # Z.to_pos (2 ^ (- e)))
  | _ => None
  end.

(** [z] is the integer part of [q]: what is left of [q] when its fraction
    is dropped. *)
Definition integer_part (q : Q) (z : Z) : Prop :=
  ((0 <= q)%Q → (inject_Z z <= q)%Q ∧ (q < inject_Z (z + 1))%Q) ∧
  ((q <= 0)%Q → (inject_Z (z - 1) < q)%Q ∧ (q <= inject_Z z)%Q).

(** The row of a table of [n] rows that the integer index [r] names: row
    [r], or row [n + r] when [r] is negative. *)
Definition row_of (n : nat) (r : Z) (k : nat) : Prop :=
  (0 ≤ r < Z.of_nat n ∧ k = Z.to_nat r) ∨
  (- Z.of_nat n ≤ r < 0 ∧ k = Z.to_nat (Z.of_nat n + r)).

(** The row of a table of [n] rows that a float entry [b] names: the row of
    its integer part. *)
Definition names_row (n : nat) (b : float) (k : nat) : Prop :=
  ∃ q z, float_value b = Some q ∧ integer_part q z ∧ row_of n z k.

(** Every generator row carries, in its voltage column, the voltage
    magnitude of the bus its bus-index column names. *)
Definition gen_follows_bus (E : collaborators) (gen bus : list (list float))
  : Prop :=
  ∀ i, (i < length gen)%nat →
    ∃ b k v,
      cell gen i (GEN_BUS E) = Some b ∧
      names_row (length bus) b k ∧
      cell bus k (VM E) = Some v ∧
      cell gen i (VG E) = Some v.


(** [ll['N']['ang']] *)
Definition ang_width (om : opf_model) : option Z :=
  idx_N (get_idx om).1.1.2 !! "ang".

(** Position [j] of the row list names row [k] of a table of [n] rows, and
    no later position names that row again. *)
Definition last_listing (n : nat) (rows : list Z) (j k : nat) : Prop :=
  (∃ r, rows !! j = Some r ∧ row_of n r k) ∧
  ∀ j' r', (j < j')%nat → rows !! j' = Some r' → ¬ row_of n r' k.

(** [l] is the Python slice [v[a:b]]: the entries of [v] from the position
    [a] denotes up to the position [b] denotes. *)
Definition block_of (v : list float) (a b : Z) (l : list float) : Prop :=
  ∃ lo hi,
    slice_position (length v) a lo ∧ slice_position (length v) b hi ∧
    l = take (hi - lo) (drop lo v).

(** The value the 1-D array [l] gives to place [j] of an assignment to [n]
    places: its entry [j] when it has [n] entries, its only entry when it
    has just one. *)
Definition assigned (n : nat) (l : list float) (j : nat) (m : float) : Prop :=
  (length l = n ∧ l !! j = Some m) ∨ (l = [m] ∧ (j < n)%nat).

(** The branch table after lines 143-144, [l] and [u] being the lower and
    the upper multipliers of the [ang] block: at each listed row the two
    angle multiplier columns hold the multiplier [m] of that listing as
    [m * pi / 180], computed in binary64 arithmetic as a product and then a
    quotient with [pi] the float [0x1.921fb54442d18p+1]; every other cell is
    as in [branch0]. *)
Definition angle_columns_set (E : collaborators) (iang : list Z)
  (l u : list float) (branch0 branch : list (list float)) : Prop :=
  length branch = length branch0 ∧
  (∀ j k, last_listing (length branch0) iang j k →
     ∃ ml mu,
       assigned (length iang) l j ml ∧ assigned (length iang) u j mu ∧
       cell branch k (MU_ANGMIN E)
         = Some (ml * 0x1.921fb54442d18p+1 / 180)%float ∧
       cell branch k (MU_ANGMAX E)
         = Some (mu * 0x1.921fb54442d18p+1 / 180)%float) ∧
  (∀ k c,
     (c ≠ MU_ANGMIN E ∧ c ≠ MU_ANGMAX E) ∨
     (∀ j r, iang !! j = Some r → ¬ row_of (length branch0) r k) →
     cell branch k c = cell branch0 k c).

(** Two dictionary paths part ways at some key. *)
Definition diverge (p q : list string) : Prop :=
  ∃ c a b p' q', p = c ++ a :: p' ∧ q = c ++ b :: q' ∧ a ≠ b.

(** The targets of a field list pairwise part ways. *)
Fixpoint divergent_fields (fields : list (list string * list string)) : Prop :=
  match fields with
  | [] => True
  | f :: fields' =>
      Forall (λ g, diverge f.1 g.1) fields' ∧ divergent_fields fields'
  end.

(** The fields of a space [sp]: targets under [results[sp]], sources
    elsewhere. *)
Definition fields_of_space (sp : string)
  (fields : list (list string * list string)) : Prop :=
  Forall (λ f, head f.1 = Some sp ∧ ∃ k, head f.2 = Some k ∧ k ≠ sp) fields ∧
  divergent_fields fields.

(** [xs] is the block of [name]: the entries of the flat vector at [src] in
    [results] at the indices [arange(i1[name], iN[name])]. *)
Definition is_block (results : dict) (reg : idx_t) (src : list string)
  (name : string) (xs : list float) : Prop :=
  ∃ v a b,
    getitem_at src (PDict results) = Ok (PVec v) ∧
    idx_i1 reg !! name = Some a ∧ idx_iN reg !! name = Some b ∧
    np_take v (arange a b) = Ok xs.

(** The test of lines 157, 167, 177 and 186 succeeds for [name]. *)
Definition wide (om : opf_model) (sp name : string) : Prop :=
  ∃ n, getN om sp name = Ok n ∧ truthy n = true.

(** The state of the target dictionaries of a space while its names are
    walked: the names in [D] hold their block, taken from [results0]; the
    other names have no key. *)
Definition expanded (results0 : dict) (reg : idx_t)
  (fields : list (list string * list string)) (D : string → Prop)
  (results : dict) : Prop :=
  ∀ tgt src, (tgt, src) ∈ fields →
    ∃ td, getitem_at tgt (PDict results) = Ok (PDict td) ∧
      ∀ name,
        (D name → ∃ xs, td !! name = Some (PVec xs) ∧
                        is_block results0 reg src name xs) ∧
        (¬ D name → td !! name = None).

(** The dual-bearing spaces the expander walks: key, registry, ordered
    names, and the (target, source) pairs of lines 159-161, 169-170 and
    179-180. *)
Definition dual_spaces (om : opf_model) (dc : Z)
  : list (string * idx_t * list string * list (list string * list string)) :=
  let '(vv, ll, nn, _) := get_idx om in
  [("var", vv, var_order om, var_fields);
   ("lin", ll, lin_order om, mu_fields "lin")]
  ++ (if truthy dc then [] else [("nln", nn, nln_order om, mu_fields "nln")]).

(** The entry of [name], whose registry range is [[a, b)], in the target
    dictionary [tgt] of [res]: with a positive width it is the slice of the
    flat vector [src] of [results0] at that range, of length [b - a]; with
    width zero there is no key. *)
Definition block_expanded (results0 res : dict) (tgt src : list string)
  (name : string) (a b : Z) : Prop :=
  ∃ td, getitem_at tgt (PDict res) = Ok (PDict td) ∧
    if 0 <? b - a then
      ∃ v xs,
        getitem_at src (PDict results0) = Ok (PVec v) ∧
        np_take v (arange a b) = Ok xs ∧
        td !! name = Some (PVec xs) ∧
        Z.of_nat (length xs) = b - a ∧
        (0 ≤ a → xs = take (Z.to_nat (b - a)) (drop (Z.to_nat a) v))
    else td !! name = None.

Definition dual_blocks_expanded (om : opf_model) (dc : Z)
  (results0 res : dict) : Prop :=
  ∀ sp reg names fields tgt src name a b,
    (sp, reg, names, fields) ∈ dual_spaces om dc →
    (tgt, src) ∈ fields →
    name ∈ names →
    idx_i1 reg !! name = Some a → idx_iN reg !! name = Some b → a ≤ b →
    getN om sp name = Ok (b - a) →
    block_expanded results0 res tgt src name a b.

(** A cost term whose reported width is not zero is stored as what
    [om.compute_cost] returns at the solver's [x]; one of width zero has no
    key. *)
Definition cost_terms_expanded (om : opf_model) (results0 res : dict)
  : Prop :=
  ∀ name n,
    name ∈ cost_order om → getN om "cost" name = Ok n →
    ∃ cd, res !! "cost" = Some (PDict cd) ∧
      if truthy n then
        ∃ x c, results0 !! "x" = Some x ∧ compute_cost om x name = Ok c ∧
               cd !! name = Some c
      else cd !! name = None.

(** The claim about the four spaces as the specification words it, cost
    terms included: each target dictionary holds, for a name of positive
    width, an array of length [last - first], and no key for a name of
    width zero. *)
Definition claimed_spaces (om : opf_model) (dc : Z)
  : list (string * idx_t * list string * list (list string)) :=
  map (λ s, (s.1.1.1, s.1.1.2, s.1.2, map fst s.2)) (dual_spaces om dc)
  ++ [("cost", (get_idx om).2, cost_order om, [["cost"]])].

Definition slices_in_every_space (E : collaborators) (om : opf_model)
  (ppopt : options) : Prop :=
  ∀ log st res s raw sp reg names tgts tgt name a b,
    dispatch E om ppopt = (log, Ok st) →
    opf_execute E om ppopt = (log, Ok (res, s, raw)) →
    (sp, reg, names, tgts) ∈ claimed_spaces om (l_dc st) →
    tgt ∈ tgts → name ∈ names →
    idx_i1 reg !! name = Some a → idx_iN reg !! name = Some b →
    getN om sp name = Ok (b - a) →
    ∃ td, getitem_at tgt (PDict res) = Ok (PDict td) ∧
      if 0 <? b - a
      then ∃ xs, td !! name = Some (PVec xs) ∧ Z.of_nat (length xs) = b - a
      else td !! name = None.



(** Dividing back undoes the scale: [c * 180 / pi] is [m] again, in the
    arithmetic of the program or as an identity between the numbers that
    the floats denote. *)
Definition scale_undone (c m : float) : Prop :=
  (c * 180 / 0x1.921fb54442d18p+1)%float = m ∨
  ∃ qc qm qpi,
    float_value c = Some qc ∧ float_value m = Some qm ∧
    float_value 0x1.921fb54442d18p+1%float = Some qpi ∧
    (qc * 180 / qpi == qm)%Q.

(** The claim about the unit change as the specification words it: the cell
    of a listed branch row holds the lower multiplier of its listing under
    a scale that dividing back undoes. *)
Definition angle_scale_is_reversible (E : collaborators) (om : opf_model)
  (ppopt : options) : Prop :=
  ∀ log st results0 raw0 res s raw iang branch vl a b l j k m,
    dispatch E om ppopt = (log, Ok st) →
    l_bound st = Some (results0, true, raw0) →
    opf_execute E om ppopt = (log, Ok (res, s, raw)) →
    userdata om "iang" = Ok (PIdx iang) →
    res !! "branch" = Some (PMat branch) →
    getitem_at ["mu"; "lin"; "l"] (PDict results0) = Ok (PVec vl) →
    idx_i1 (get_idx om).1.1.2 !! "ang" = Some a →
    idx_iN (get_idx om).1.1.2 !! "ang" = Some b →
    block_of vl a b l →
    last_listing (length branch) iang j k →
    assigned (length iang) l j m →
    ∃ c, cell branch k (MU_ANGMIN E) = Some c ∧ scale_undone c m.

(** ** A small case to run *)

Module Case.

(** A registry from [(name, (first, last))] entries. *)
Definition registry (blocks : list (string * (Z * Z))) : idx_t :=
  {| idx_i1 := list_to_map (map (λ e, (e.1, e.2.1)) blocks);
     idx_iN := list_to_map (map (λ e, (e.1, e.2.2)) blocks);
     idx_N := list_to_map (map (λ e, (e.1, e.2.2 - e.2.1)) blocks) |}.

Definition vv : idx_t :=
  registry [("Va", (0, 2)); ("Pg", (2, 3)); ("Qg", (3, 4)); ("y", (4, 4))].
Definition ll : idx_t :=
  registry [("PQh", (0, 0)); ("PQl", (0, 0)); ("ang", (0, 1))].
Definition nn : idx_t := registry [("Pmis", (0, 2)); ("Qmis", (2, 4))].
Definition cc : idx_t := registry [("usr", (0, 2))].

(** [om.getN]: the width the registry of the space reports, 0 for an
    unknown name. *)
Definition width_of (sp name : string) : outcome Z :=
  let reg :=
    if String.eqb sp "var" then vv
    else if String.eqb sp "lin" then ll
    else if String.eqb sp "nln" then nn
    else cc in
  Ok (default 0 (idx_N reg !! name)).

(** A model with two buses, one generator and one branch; [pwl1] lists the
    generators whose piecewise linear cost was converted. *)
Definition om (pwl1 : list Z) : opf_model :=
  {| var_order := ["Va"; "Pg"; "Qg"; "y"];
     lin_order := ["PQh"; "PQl"; "ang"];
     nln_order := ["Pmis"; "Qmis"];
     cost_order := ["usr"];
     build_cost_params := Ok ();
     get_idx := (vv, ll, nn, cc);
     getN := width_of;
     userdata := λ k,
       if String.eqb k "iang" then Ok (PIdx [0])
       else if String.eqb k "pwl1" then Ok (PIdx pwl1)
       else if String.eqb k "Apqdata" then Ok (PDict ∅)
       else Ok (PVec []);
     compute_cost := λ _ _, Ok (PFloat 7);
     get_ppc := Ok ∅ |}.

Definition x : list float := [1; 2; 3; 4]%float.

Definition mu : pyval :=
  PDict (<["var" := PDict (<["l" := PVec [11; 12; 13; 14]%float]>
                          (<["u" := PVec [21; 22; 23; 24]%float]> ∅))]>
        (<["lin" := PDict (<["l" := PVec [5%float]]>
                          (<["u" := PVec [6%float]]> ∅))]>
        (<["nln" := PDict (<["l" := PVec [31; 32; 33; 34]%float]>
                          (<["u" := PVec [41; 42; 43; 44]%float]> ∅))]> ∅))).

Definition bus : list (list float) :=
  [ [0; 0; 0; 0; 0; 0; 0; 1.03125]%float;
    [1; 0; 0; 0; 0; 0; 0; 0.96875]%float ].
Definition gen : list (list float) := [ [1; 0; 0; 0; 0; 1]%float ].
Definition branch : list (list float) := [ replicate 21 0%float ].

(** What a solver hands back. *)
Definition results : dict :=
  <["x" := PVec x]> (<["mu" := mu]> (<["bus" := PMat bus]>
    (<["gen" := PMat gen]> (<["branch" := PMat branch]>
      (<["baseMVA" := PFloat 100]> ∅))))).

Definition raw : dict :=
  <["xr" := PVec x]>
    (<["output" := PDict (<["iterations" := PInt 9]> ∅)]> ∅).

(** Results that carry the legacy fields [dg] and [g]. *)
Definition legacy_results : dict :=
  <["dg" := PMat [[1%float]]]> (<["g" := PVec [0%float]]> results).

Definition solved : solution := (results, true, raw).
Definition failed : solution := (results, false, raw).
Definition legacy_solved : solution := (legacy_results, true, raw).

(** The collaborators, with the column constants of PYPOWER; both solvers
    return [sol]; IPOPT is not installed. *)
Definition E (sol : solution) : collaborators :=
  {| VM := 7; GEN_BUS := 0; VG := 5; MU_ANGMIN := 19; MU_ANGMAX := 20;
     ppver := λ _, Ok (<["Version" := "4.1"%string]>
                         (<["Date" := "14-Dec-2011"%string]> ∅));
     dcopf_solver := λ _ _, Ok sol;
     pipsopf_solver := λ _ _, Ok sol;
     pyipopt_importable := false;
     ipoptopf_solver := λ _ _, Raise (Raised "ipoptopf_solver");
     update_mupq := λ _ gen _ _ _, Ok gen;
     makeYbus := λ _ _ _, Raise (Raised "makeYbus");
     opf_consfcn := λ _ _ _ _ _ _, Raise (Raised "opf_consfcn");
     opf_costfcn := λ _ _, Ok (PFloat 0, PVec [1; 1; 1; 1]%float, PMat []) |}.

Definition ppopt (dc alg der : Z) : options :=
  <["PF_DC" := dc]> (<["OPF_ALG" := alg]> (<["VERBOSE" := 0]>
    (<["RETURN_RAW_DER" := der]> ∅))).

(** The parts of a call that returned. *)
Definition no_locals : locals :=
  {| l_dc := 0; l_alg := 0; l_ppopt := ∅; l_bound := None |}.
Definition locals_of (r : logged locals) : locals :=
  match r.2 with Ok st => st | Raise _ => no_locals end.
Definition results_of (r : logged solution) : dict :=
  match r.2 with Ok (res, _, _) => res | Raise _ => ∅ end.
Definition success_of (r : logged solution) : bool :=
  match r.2 with Ok (_, s, _) => s | Raise _ => false end.
Definition raw_of (r : logged solution) : dict :=
  match r.2 with Ok (_, _, raw) => raw | Raise _ => ∅ end.

Definition is_ok {A} (o : outcome A) : bool :=
  match o with Ok _ => true | Raise _ => false end.

(** The calls that are run below. *)
Definition call (sol : solution) (pwl1 : list Z) (dc alg der : Z)
  : logged solution :=
  opf_execute (E sol) (om pwl1) (ppopt dc alg der).
Definition locals_at (sol : solution) (pwl1 : list Z) (dc alg der : Z)
  : locals :=
  locals_of (dispatch (E sol) (om pwl1) (ppopt dc alg der)).

End Case.

(** ** Vocabulary of the further properties *)

(** What line 63 writes. *)
Definition dc_banner (verbose : Z) : list event :=
  if decide (0 < verbose)
  then [(Stdout, " -- DC Optimal Power Flow" +:+ nl)] else [].

(** What lines 56-58 write. *)
Definition version_banner (E : collaborators) (verbose : Z) : list event :=
  if decide (0 < verbose) then
    match ppver E "all" with
    | Ok v =>
        match v !! "Version", v !! "Date" with
        | Some ver, Some date =>
            [(Stdout, nl +:+ "MATPOWER Version " +:+ ver +:+ ", " +:+ date)]
        | _, _ => []
        end
    | Raise _ => []
    end
  else [].

(** The options the AC solver is handed (line 85). *)
Definition ac_options (ppopt : options) (alg : Z) : options :=
  <["OPF_ALG_POLY" := resolved_code alg]> ppopt.

(** The solver the dispatcher ran for a call, and what it returned. *)
Definition solver_ran (E : collaborators) (om : opf_model) (ppopt : options)
  (dc alg : Z) (r : outcome solution) : Prop :=
  if truthy dc then dcopf_solver E om ppopt = r
  else
    ((resolved_code alg = 560 ∨ resolved_code alg = 565) ∧
     pipsopf_solver E om (ac_options ppopt alg) = r) ∨
    (resolved_code alg = 580 ∧ pyipopt_importable E = true ∧
     ipoptopf_solver E om (ac_options ppopt alg) = r).

(** The keys of [results] some line of the function assigns. *)
Definition written_results_keys : list string :=
  ["gen"; "branch"; "dg"; "g"; "var"; "lin"; "nln"; "cost"; "x"].

(** The keys of [raw] some line of the function assigns. *)
Definition written_raw_keys : list string :=
  ["output"; "g"; "dg"; "df"; "d2f"; "xr"].

(** Two tables agree outside column [c]. *)
Definition same_but_column (c : nat) (m m' : list (list float)) : Prop :=
  length m' = length m ∧ ∀ i c', c' ≠ c → cell m' i c' = cell m i c'.


(** The keys of [results] and of [raw] a DC call can assign. *)
Definition dc_written_results_keys : list string :=
  ["branch"; "dg"; "g"; "var"; "lin"; "cost"; "x"].
Definition dc_written_raw_keys : list string := ["output"; "xr"].

(** The keys of a dictionary are the names that satisfy [P]. *)
Definition keys_are (d : dict) (P : string → Prop) : Prop :=
  ∀ n, is_Some (d !! n) ↔ P n.

(** The sub-mappings the expander does not assign: those whose space
    declares no name, and [nln] on a DC problem. *)
Definition idle_spaces (om : opf_model) (dc : Z) : list string :=
  match var_order om with [] => ["var"] | _ => [] end ++
  match lin_order om with [] => ["lin"] | _ => [] end ++
  (if truthy dc then ["nln"]
   else match nln_order om with [] => ["nln"] | _ => [] end) ++
  match cost_order om with [] => ["cost"] | _ => [] end.

(** The condition of line 108: one of the two PQ capability curve blocks
    has positive width. *)
Definition has_pq_curves (om : opf_model) : Prop :=
  ∃ name n, (name = "PQh" ∨ name = "PQl") ∧
    idx_N (get_idx om).1.1.2 !! name = Some n ∧ 0 < n.

(** [d] is the elementwise difference [a - b] of two 1-D arrays in binary64
    arithmetic, an array of one entry standing for as many copies of it as
    the other array has entries. *)
Definition difference (a b d : list float) : Prop :=
  (length a = length b ∧ length d = length a ∧
   ∀ j x y, a !! j = Some x → b !! j = Some y →
            d !! j = Some (x - y)%float) ∨
  (∃ x, a = [x] ∧ length d = length b ∧
        ∀ j y, b !! j = Some y → d !! j = Some (x - y)%float) ∨
  (∃ y, b = [y] ∧ length d = length a ∧
        ∀ j x, a !! j = Some x → d !! j = Some (x - y)%float).

(** The first of the three option keys of lines 46-48 that [ppopt] lacks. *)
Definition first_missing_option (ppopt : options) : option string :=
  head (filter (λ k, ppopt !! k = None) ["PF_DC"; "OPF_ALG"; "VERBOSE"]).

(** The condition of line 99 on the solver's output record [out]: there is
    no algorithm entry, or an empty one. *)
Definition lacks_entry (out : dict) : Prop :=
  out !! "alg" = None ∨ ∃ a, out !! "alg" = Some a ∧ py_len a = Ok 0%nat.

(** The code line 100 stores: the requested one on a DC problem, the
    resolved one on an AC problem. *)
Definition stamped_code (dc alg : Z) : Z :=
  if truthy dc then alg else resolved_code alg.

(** The local variables with other options. *)
Definition with_options (st : locals) (ppopt : options) : locals :=
  {| l_dc := l_dc st; l_alg := l_alg st; l_ppopt := ppopt;
     l_bound := l_bound st |}.

(** ** Further cases to run *)

Module More.

(** Options that ask for the banners. *)
Definition verbose (ppopt : options) : options := <["VERBOSE" := 1]> ppopt.

(** Options without [RETURN_RAW_DER]. *)
Definition ppopt_bare (dc alg : Z) : options :=
  <["PF_DC" := dc]> (<["OPF_ALG" := alg]> (<["VERBOSE" := 0]> ∅)).

(** The collaborators [E] with other solvers; [ipopt] is [None] when
    [pyipopt] cannot be imported. *)
Definition with_solvers (E : collaborators)
  (dc pips : outcome solution) (ipopt : option (outcome solution))
  : collaborators :=
  {| VM := VM E; GEN_BUS := GEN_BUS E; VG := VG E;
     MU_ANGMIN := MU_ANGMIN E; MU_ANGMAX := MU_ANGMAX E;
     ppver := ppver E;
     dcopf_solver := λ _ _, dc;
     pipsopf_solver := λ _ _, pips;
     pyipopt_importable := bool_decide (is_Some ipopt);
     ipoptopf_solver := λ _ _, default (Raise (Raised "ipoptopf_solver")) ipopt;
     update_mupq := update_mupq E;
     makeYbus := makeYbus E;
     opf_consfcn := opf_consfcn E;
     opf_costfcn := opf_costfcn E |}.

(** Solvers that raise, and an installed IPOPT that returns [sol]. *)
Definition E_raising : collaborators :=
  with_solvers (Case.E Case.solved)
    (Raise (Raised "dcopf_solver")) (Raise (Raised "pipsopf_solver")) None.
Definition E_ipopt (sol : solution) : collaborators :=
  with_solvers (Case.E sol)
    (Raise (Raised "dcopf_solver")) (Raise (Raised "pipsopf_solver"))
    (Some (Ok sol)).

(** What solvers may leave in [raw]: a further field, an algorithm entry
    by name, the numeric code, no output record, constraint derivatives. *)
Definition raw_info : dict := <["info" := PInt 1]> Case.raw.
Definition named : dict := <["alg" := PStr "MIPS"]> ∅.
Definition raw_named : dict := <["output" := PDict named]> Case.raw.
Definition numbered : dict := <["alg" := PInt 200]> ∅.
Definition raw_numbered : dict := <["output" := PDict numbered]> Case.raw.
Definition raw_bare : dict := <["xr" := PVec Case.x]> ∅.
Definition raw_der : dict :=
  <["dg" := PMat [[2%float]]]> (<["g" := PVec [3%float]]> Case.raw).

(** Results whose lower angle multiplier is 11. *)
Definition mu_eleven : pyval :=
  PDict (<["var" := PDict (<["l" := PVec [11; 12; 13; 14]%float]>
                          (<["u" := PVec [21; 22; 23; 24]%float]> ∅))]>
        (<["lin" := PDict (<["l" := PVec [11%float]]>
                          (<["u" := PVec [6%float]]> ∅))]> ∅)).
Definition results_eleven : dict := <["mu" := mu_eleven]> Case.results.
Definition solved_eleven : solution := (results_eleven, true, Case.raw).

(** Results with [dg] but no [g]. *)
Definition results_dg : dict := <["dg" := PMat [[1%float]]]> Case.results.

(** The model of [Case] whose [build_cost_params] raises. *)
Definition om_broken : opf_model :=
  {| var_order := var_order (Case.om []);
     lin_order := lin_order (Case.om []);
     nln_order := nln_order (Case.om []);
     cost_order := cost_order (Case.om []);
     build_cost_params := Raise (Raised "build_cost_params");
     get_idx := get_idx (Case.om []);
     getN := getN (Case.om []);
     userdata := userdata (Case.om []);
     compute_cost := compute_cost (Case.om []);
     get_ppc := get_ppc (Case.om []) |}.

(** A model with one PQ capability curve constraint and no angle limit. *)
Definition ll_pq : idx_t :=
  Case.registry [("PQh", (0, 1)); ("PQl", (1, 1)); ("ang", (1, 1))].
Definition om_pq : opf_model :=
  {| var_order := [];
     lin_order := ["PQh"; "PQl"; "ang"];
     nln_order := [];
     cost_order := [];
     build_cost_params := Ok ();
     get_idx := (Case.vv, ll_pq, Case.nn, Case.cc);
     getN := λ _ name, Ok (default 0 (idx_N ll_pq !! name));
     userdata := userdata (Case.om []);
     compute_cost := compute_cost (Case.om []);
     get_ppc := get_ppc (Case.om []) |}.

(** The parts of an intermediate result. *)
Definition stamped (alg : Z) (raw : dict) : dict :=
  match stamp_alg alg raw with Ok r => r | Raise _ => ∅ end.
Definition results_before (o : outcome (dict * dict)) : dict :=
  match o with Ok (results, _) => results | Raise _ => ∅ end.
Definition raw_before (o : outcome (dict * dict)) : dict :=
  match o with Ok (_, raw) => raw | Raise _ => ∅ end.
Definition branch_of (results : dict) : list (list float) :=
  match results !! "branch" with Some (PMat m) => m | _ => [] end.

(** A successful solve that hands back [raw]. *)
Definition solved_with (raw : dict) : solution := (Case.results, true, raw).

(** The calls that are run below. *)
Definition banner_call : logged solution :=
  opf_execute (Case.E Case.solved) (Case.om []) (verbose (Case.ppopt 1 0 0)).
Definition ipopt_call : logged solution :=
  opf_execute (E_ipopt Case.solved) (Case.om []) (Case.ppopt 0 580 0).
Definition ipopt_locals : locals :=
  Case.locals_of
    (dispatch (E_ipopt Case.solved) (Case.om []) (Case.ppopt 0 580 0)).
Definition pq_call : logged solution :=
  opf_execute (Case.E Case.solved) om_pq (Case.ppopt 0 0 0).
Definition pq_locals : locals :=
  Case.locals_of (dispatch (Case.E Case.solved) om_pq (Case.ppopt 0 0 0)).
Definition bare_locals : locals :=
  Case.locals_of
    (dispatch (Case.E Case.failed) (Case.om []) (ppopt_bare 0 0)).

End More.
(** * Properties *)

(** ** The monads *)

Lemma bind_Ok {A B} (m : outcome A) (k : A → outcome B) (r : B) :
  m ≫= k = Ok r ↔ ∃ a, m = Ok a ∧ k a = Ok r.
Proof.
  destruct m as [a|e]; split.
  - intros H. exists a. auto.
  - intros (a' & [= ->] & H). exact H.
  - intros [=].
  - intros (a' & [=] & _).
Qed.

Lemma logged_bind_Ok {A B} (m : logged A) (k : A → logged B) l (r : B) :
  m ≫= k = (l, Ok r) →
  ∃ l1 a l2, m = (l1, Ok a) ∧ k a = (l2, Ok r) ∧ l = l1 ++ l2.
Proof.
  destruct m as [l1 [a|e]]; unfold mbind, logged_bind.
  - destruct (k a) as [l2 r'] eqn:Hk. intros [= <- ->]. eauto 6.
  - intros [=].
Qed.

Lemma lift_Ok {A} (o : outcome A) l (r : A) :
  lift o = (l, Ok r) ↔ l = [] ∧ o = Ok r.
Proof. unfold lift. split; [intros [= <- ->]|intros [-> ->]]; auto. Qed.

(** Close [k ∉ [k1; ...; kn]] for distinct string literals. *)
Ltac not_in_keys :=
  let H := fresh in
  intros H;
  repeat (apply elem_of_cons in H as [H|H]; [discriminate H|]);
  apply elem_of_nil in H; exact H.

(** Peel the binds of a hypothesis [H : ... = Ok _]. *)
Ltac ok_inv H :=
  repeat match type of H with
    | mbind _ _ = Ok _ =>
        let a := fresh "a" in
        let Ha := fresh "H" a in
        apply bind_Ok in H as (a & Ha & H)
    | Ok _ = Ok _ => injection H as H
    | Raise _ = Ok _ => discriminate H
    end.

Lemma getitem_Ok (d : dict) k v : getitem d k = Ok v ↔ d !! k = Some v.
Proof. unfold getitem. destruct (d !! k); split; congruence. Qed.

Lemma getidx_Ok (m : gmap string Z) k v : getidx m k = Ok v ↔ m !! k = Some v.
Proof. unfold getidx. destruct (m !! k); split; congruence. Qed.

Lemma getopt_Ok (m : options) k v : getopt m k = Ok v ↔ m !! k = Some v.
Proof. unfold getopt. destruct (m !! k); split; congruence. Qed.

Lemma as_dict_Ok v d : as_dict v = Ok d ↔ v = PDict d.
Proof. destruct v; simpl; split; congruence. Qed.

Lemma as_vec_Ok v x : as_vec v = Ok x ↔ v = PVec x.
Proof. destruct v; simpl; split; congruence. Qed.

Lemma as_mat_Ok v m : as_mat v = Ok m ↔ v = PMat m.
Proof. destruct v; simpl; split; congruence. Qed.

Lemma as_idx_Ok v i : as_idx v = Ok i ↔ v = PIdx i.
Proof. destruct v; simpl; split; congruence. Qed.

Lemma from_option_Ok {A} (o : option A) e (a : A) :
  from_option Ok (Raise e) o = Ok a ↔ o = Some a.
Proof. destruct o; simpl; split; congruence. Qed.

(** ** The deprecated codes *)

Lemma deprecated_test_false alg a b :
  Z.lor a b ≠ b → deprecated_test alg a b = false.
Proof.
  intros Hne. unfold deprecated_test.
  destruct (alg =? Z.lor a alg) eqn:H1; [|reflexivity].
  destruct (Z.lor a alg =? b) eqn:H2; [|reflexivity].
  apply Z.eqb_eq in H1, H2. exfalso. apply Hne. congruence.
Qed.

Lemma update_deprecated_id alg : update_deprecated alg = alg.
Proof.
  unfold update_deprecated.
  rewrite !deprecated_test_false by (vm_compute; discriminate).
  reflexivity.
Qed.

(** C2: the remapping of lines 75-83 never fires.  Each test is the chained
    comparison [alg == (a | alg) == b], which needs [a | b = b]; that fails
    for all four pairs.  So every code is left as it is, and on each of the
    eight deprecated codes the function differs from the table the
    specification describes (a requested 100 stays 100, not 300). *)
Theorem C2_deprecated_codes_not_remapped :
  (∀ alg, update_deprecated alg = alg) ∧
  Forall (λ alg, remap_spec alg ≠ update_deprecated alg)
    [100; 200; 120; 220; 140; 240; 160; 260] ∧
  (update_deprecated 100 = 100 ∧ remap_spec 100 = 300).
Proof.
  split; [exact update_deprecated_id|]. split.
  - repeat constructor; rewrite update_deprecated_id; vm_compute; discriminate.
  - rewrite update_deprecated_id. split; reflexivity.
Qed.

(** ** Dispatch failures *)

Lemma run_ac_solver_no_backend E om ppopt alg :
  no_backend E om ppopt alg →
  run_ac_solver E om ppopt alg = ([(Stderr, diagnostic alg)], Ok None).
Proof.
  unfold no_backend, run_ac_solver, diagnostic.
  intros [[-> Hip]|(H1 & H2 & H3)].
  - change (580 =? 560) with false. change (580 =? 565) with false.
    change (580 =? 580) with true. cbv [orb].
    destruct Hip as [->|[e He]]; [reflexivity|].
    rewrite He. destruct (pyipopt_importable E); reflexivity.
  - apply Z.eqb_neq in H1, H2, H3. rewrite H1, H2, H3. reflexivity.
Qed.

Lemma dispatch_ac_unbound E om ppopt log dc alg verbose :
  setup E om ppopt = (log, Ok (dc, alg, verbose)) →
  truthy dc = false →
  no_backend E om (<["OPF_ALG_POLY" := resolved_code alg]> ppopt)
    (resolved_code alg) →
  dispatch E om ppopt =
    (log ++ ac_banner verbose ++ [(Stderr, diagnostic (resolved_code alg))],
     Ok {| l_dc := dc; l_alg := resolved_code alg;
           l_ppopt := <["OPF_ALG_POLY" := resolved_code alg]> ppopt;
           l_bound := None |}).
Proof.
  intros Hsetup Hdc Hno. unfold dispatch. rewrite Hsetup.
  unfold mbind at 1, logged_bind at 1. rewrite Hdc.
  fold (resolved_code alg).
  rewrite (run_ac_solver_no_backend _ _ _ _ Hno).
  unfold ac_banner. destruct (decide (0 < verbose)); reflexivity.
Qed.

(** C1: an AC call whose resolved code has no backend (unrecognized, or 580
    without a usable IPOPT) writes its diagnostic to [stderr] and then leaves
    the function by an exception: [results], [success] and [raw] were never
    bound, and line 99 reads [raw].  The call does not return a failure. *)
Theorem C1_no_backend_raises E om ppopt log dc alg verbose :
  setup E om ppopt = (log, Ok (dc, alg, verbose)) →
  truthy dc = false →
  no_backend E om (<["OPF_ALG_POLY" := resolved_code alg]> ppopt)
    (resolved_code alg) →
  opf_execute E om ppopt =
    (log ++ ac_banner verbose ++ [(Stderr, diagnostic (resolved_code alg))],
     Raise (UnboundLocalError "raw")).
Proof.
  intros Hsetup Hdc Hno. unfold opf_execute.
  rewrite (dispatch_ac_unbound _ _ _ _ _ _ _ Hsetup Hdc Hno).
  unfold mbind, logged_bind, lift, post. cbv [l_bound from_option].
  unfold mbind, outcome_bind. rewrite app_nil_r. reflexivity.
Qed.

(** ** The shape of a call that returns *)

Lemma post_Ok E om st res s raw :
  post E om st = Ok (res, s, raw) →
  ∃ results0 raw0 raw1 results2 raw2 results3,
    l_bound st = Some (results0, s, raw0) ∧
    stamp_alg (l_alg st) raw0 = Ok raw1 ∧
    correct E om (l_dc st) (l_ppopt st) results0 s raw1 = Ok (results2, raw2) ∧
    expand om (l_dc st) results2 = Ok results3 ∧
    pwl_patch om (l_dc st) (l_alg st) results3 raw2 = Ok (res, raw).
Proof.
  unfold post. intros H.
  apply bind_Ok in H as ([[results0 s0] raw0] & Hb & H).
  apply from_option_Ok in Hb.
  apply bind_Ok in H as (raw1 & Hstamp & H).
  apply bind_Ok in H as ([results2 raw2] & Hcorr & H).
  apply bind_Ok in H as (results3 & Hexp & H).
  apply bind_Ok in H as ([res' raw'] & Hpatch & H).
  injection H as -> -> ->.
  exists results0, raw0, raw1, results2, raw2, results3. auto.
Qed.

Lemma opf_execute_Ok E om ppopt log r :
  opf_execute E om ppopt = (log, Ok r) →
  ∃ st, dispatch E om ppopt = (log, Ok st) ∧ post E om st = Ok r.
Proof.
  unfold opf_execute. intros H.
  apply logged_bind_Ok in H as (l1 & st & l2 & Hd & Hp & ->).
  apply lift_Ok in Hp as [-> Hp]. rewrite app_nil_r. eauto.
Qed.

(** ** What the dispatcher has done when it returns *)

Lemma setup_Ok E om ppopt l0 dc alg verbose :
  setup E om ppopt = (l0, Ok (dc, alg, verbose)) →
  ppopt !! "PF_DC" = Some dc ∧ ppopt !! "OPF_ALG" = Some alg ∧
  ppopt !! "VERBOSE" = Some verbose ∧ build_cost_params om = Ok () ∧
  l0 = version_banner E verbose.
Proof.
  unfold setup. intros H.
  apply logged_bind_Ok in H as (l1 & dc' & l1' & H1 & H & ->).
  apply lift_Ok in H1 as [-> H1]. apply getopt_Ok in H1.
  apply logged_bind_Ok in H as (l2 & alg' & l2' & H2 & H & ->).
  apply lift_Ok in H2 as [-> H2]. apply getopt_Ok in H2.
  apply logged_bind_Ok in H as (l3 & v' & l3' & H3 & H & ->).
  apply lift_Ok in H3 as [-> H3]. apply getopt_Ok in H3.
  apply logged_bind_Ok in H as (l4 & [] & l4' & H4 & H & ->).
  apply lift_Ok in H4 as [-> H4].
  apply logged_bind_Ok in H as (l5 & [] & l5' & H5 & H & ->).
  injection H as <- <- <- <-. rewrite app_nil_r. simpl.
  do 4 (split; [done|]). unfold version_banner.
  destruct (decide (0 < v')); [|by injection H5 as <-].
  apply logged_bind_Ok in H5 as (m1 & v & m1' & Hv & H5 & ->).
  apply lift_Ok in Hv as [-> Hv]. rewrite Hv.
  apply logged_bind_Ok in H5 as (m2 & ver & m2' & Hver & H5 & ->).
  apply lift_Ok in Hver as [-> Hver]. apply from_option_Ok in Hver.
  apply logged_bind_Ok in H5 as (m3 & date & m3' & Hdate & H5 & ->).
  apply lift_Ok in Hdate as [-> Hdate]. apply from_option_Ok in Hdate.
  rewrite Hver, Hdate. by injection H5 as <-.
Qed.

Lemma run_ac_solver_Ok E om ppopt alg l b :
  run_ac_solver E om ppopt alg = (l, Ok b) →
  (∃ sol, b = Some sol ∧ l = [] ∧
     (((alg = 560 ∨ alg = 565) ∧ pipsopf_solver E om ppopt = Ok sol) ∨
      (alg = 580 ∧ pyipopt_importable E = true ∧
       ipoptopf_solver E om ppopt = Ok sol))) ∨
  (b = None ∧ l = [(Stderr, diagnostic alg)] ∧ no_backend E om ppopt alg).
Proof.
  unfold run_ac_solver, diagnostic, no_backend. intros H.
  destruct (alg =? 560) eqn:H560; [apply Z.eqb_eq in H560|apply Z.eqb_neq in H560].
  { simpl in H. destruct (pipsopf_solver E om ppopt) as [sol|e] eqn:Hp;
      [|discriminate]. injection H as <- <-. left. exists sol. auto 8. }
  destruct (alg =? 565) eqn:H565; [apply Z.eqb_eq in H565|apply Z.eqb_neq in H565].
  { simpl in H. destruct (pipsopf_solver E om ppopt) as [sol|e] eqn:Hp;
      [|discriminate]. injection H as <- <-. left. exists sol. auto 8. }
  simpl in H.
  destruct (alg =? 580) eqn:H580; [apply Z.eqb_eq in H580|apply Z.eqb_neq in H580].
  - destruct (pyipopt_importable E) eqn:Himp.
    + destruct (ipoptopf_solver E om ppopt) as [sol|e] eqn:Hi.
      * injection H as <- <-. left. exists sol. auto 8.
      * injection H as <- <-. right. eauto 8.
    + injection H as <- <-. right. auto 8.
  - injection H as <- <-. right. auto 8.
Qed.

(** What a dispatch that returns has done. *)
Lemma dispatch_Ok E om ppopt log st :
  dispatch E om ppopt = (log, Ok st) →
  ∃ alg verbose l2,
    setup E om ppopt = (version_banner E verbose, Ok (l_dc st, alg, verbose)) ∧
    log = version_banner E verbose ++
          (if truthy (l_dc st) then dc_banner verbose else ac_banner verbose)
          ++ l2 ∧
    if truthy (l_dc st) then
      l2 = [] ∧ l_alg st = alg ∧ l_ppopt st = ppopt ∧
      ∃ sol, dcopf_solver E om ppopt = Ok sol ∧ l_bound st = Some sol
    else
      l_alg st = resolved_code alg ∧ l_ppopt st = ac_options ppopt alg ∧
      run_ac_solver E om (ac_options ppopt alg) (resolved_code alg)
        = (l2, Ok (l_bound st)).
Proof.
  unfold dispatch. intros H.
  apply logged_bind_Ok in H as (l0 & [[dc alg] verbose] & l1 & Hs & H & ->).
  pose proof (setup_Ok _ _ _ _ _ _ _ Hs) as (_ & _ & _ & _ & ->).
  destruct (truthy dc) eqn:Hdc.
  - apply logged_bind_Ok in H as (m1 & [] & m2 & Hb & H & ->).
    apply logged_bind_Ok in H as (m3 & sol & m4 & Hsol & H & ->).
    apply lift_Ok in Hsol as [-> Hsol]. injection H as <- <-.
    exists alg, verbose, []. simpl. rewrite Hdc.
    split; [done|]. split; [|eauto 6].
    rewrite !app_nil_r. f_equal. unfold dc_banner.
    destruct (decide (0 < verbose)); by injection Hb as <-.
  - apply logged_bind_Ok in H as (m1 & [] & m2 & Hb & H & ->).
    apply logged_bind_Ok in H as (m3 & b & m4 & Hrun & H & ->).
    injection H as <- <-.
    exists alg, verbose, m3. simpl. rewrite Hdc.
    split; [done|]. split; [|auto].
    rewrite !app_nil_r. do 2 f_equal. unfold ac_banner.
    destruct (decide (0 < verbose)); by injection Hb as <-.
Qed.

Lemma opf_execute_post E om ppopt log st :
  dispatch E om ppopt = (log, Ok st) →
  opf_execute E om ppopt = (log, post E om st).
Proof.
  intros H. unfold opf_execute. rewrite H.
  unfold mbind, logged_bind, lift. by rewrite app_nil_r.
Qed.

Lemma post_bound E om st r :
  post E om st = Ok r → ∃ sol, l_bound st = Some sol.
Proof.
  destruct r as [[res s] raw]. intros H.
  apply post_Ok in H as (r0 & w0 & _ & _ & _ & _ & Hb & _). eauto.
Qed.

Lemma version_banner_stdout E verbose :
  Forall (λ e : event, e.1 = Stdout) (version_banner E verbose).
Proof.
  unfold version_banner. destruct (decide (0 < verbose)); [|constructor].
  destruct (ppver E "all") as [v|e]; [|constructor].
  destruct (v !! "Version"), (v !! "Date"); repeat constructor.
Qed.

Lemma setup_banner_length E om ppopt l0 dc alg verbose :
  setup E om ppopt = (l0, Ok (dc, alg, verbose)) →
  length (version_banner E verbose)
    = if decide (0 < verbose) then 1%nat else 0%nat.
Proof.
  unfold setup. intros H.
  apply logged_bind_Ok in H as (l1 & dc' & l1' & _ & H & ->).
  apply logged_bind_Ok in H as (l2 & alg' & l2' & _ & H & ->).
  apply logged_bind_Ok in H as (l3 & v' & l3' & _ & H & ->).
  apply logged_bind_Ok in H as (l4 & [] & l4' & _ & H & ->).
  apply logged_bind_Ok in H as (l5 & [] & l5' & H5 & H & ->).
  injection H as _ _ _ <-. unfold version_banner.
  destruct (decide (0 < v')); [|done].
  apply logged_bind_Ok in H5 as (m1 & v & m1' & Hv & H5 & ->).
  apply lift_Ok in Hv as [-> Hv]. rewrite Hv.
  apply logged_bind_Ok in H5 as (m2 & ver & m2' & Hver & H5 & ->).
  apply lift_Ok in Hver as [-> Hver]. apply from_option_Ok in Hver.
  apply logged_bind_Ok in H5 as (m3 & date & m3' & Hdate & H5 & ->).
  apply lift_Ok in Hdate as [-> Hdate]. apply from_option_Ok in Hdate.
  by rewrite Hver, Hdate.
Qed.

Lemma resolved_code_eq alg :
  resolved_code alg = if alg =? 0 then 560 else alg.
Proof. unfold resolved_code. apply update_deprecated_id. Qed.

(** Which solver a call that returns has run. *)
Lemma returning_dispatch E om ppopt log st sol :
  dispatch E om ppopt = (log, Ok st) →
  l_bound st = Some sol →
  ∃ alg verbose,
    setup E om ppopt = (version_banner E verbose, Ok (l_dc st, alg, verbose)) ∧
    log = version_banner E verbose ++
          (if truthy (l_dc st) then dc_banner verbose else ac_banner verbose) ∧
    l_alg st = (if truthy (l_dc st) then alg else resolved_code alg) ∧
    l_ppopt st = (if truthy (l_dc st) then ppopt else ac_options ppopt alg) ∧
    solver_ran E om ppopt (l_dc st) alg (Ok sol).
Proof.
  intros Hd Hb. apply dispatch_Ok in Hd as (alg & verbose & l2 & Hs & -> & H).
  exists alg, verbose. split; [done|]. unfold solver_ran.
  destruct (truthy (l_dc st)).
  - destruct H as (-> & Halg & Hpp & sol' & Hsol & Hb').
    rewrite Hb in Hb'. injection Hb' as <-. by rewrite app_nil_r.
  - destruct H as (Halg & Hpp & Hrun). rewrite Hb in Hrun.
    apply run_ac_solver_Ok in Hrun
      as [(sol' & [= <-] & -> & Hran)|([=] & _)].
    by rewrite app_nil_r.
Qed.

(** ** The PWL patch *)

Lemma slice_to_from {A} (v : list A) i : slice_to v i ++ slice_from v i = v.
Proof. apply take_drop. Qed.


Lemma slice_bound_position n i : slice_position n i (slice_bound n i).
Proof.
  unfold slice_position, slice_bound.
  destruct (decide (i < 0)); repeat split; intros; lia.
Qed.


(** The patch of lines 192-203 leaves everything alone when [pwl1] is
    empty. *)
Lemma pwl_patch_empty om dc alg results raw pwl1 :
  userdata om "pwl1" = Ok pwl1 → py_len pwl1 = Ok 0%nat →
  pwl_patch om dc alg results raw = Ok (results, raw).
Proof. intros H1 H2. unfold pwl_patch. rewrite H1. simpl. rewrite H2. reflexivity. Qed.


(** ** Which keys each stage writes *)

Lemma setitem_at_frame p k v d d' (j : string) :
  setitem_at p k v d = Ok d' →
  head (p ++ [k]) ≠ Some j → d' !! j = d !! j.
Proof.
  destruct p as [|q p]; simpl; intros H Hj.
  - injection H as <-. rewrite lookup_insert_ne; [done|congruence].
  - ok_inv H. subst d'. rewrite lookup_insert_ne; [done|congruence].
Qed.

Lemma stamp_alg_frame alg raw raw' (j : string) :
  stamp_alg alg raw = Ok raw' → j ≠ "output" → raw' !! j = raw !! j.
Proof.
  unfold stamp_alg. intros H Hj. apply bind_Ok in H as ([|] & _ & H).
  - eapply setitem_at_frame; [exact H|]. simpl. congruence.
  - congruence.
Qed.

Lemma copy_bus_voltages_frame E results results' (j : string) :
  copy_bus_voltages E results = Ok results' →
  j ≠ "gen" → results' !! j = results !! j.
Proof.
  unfold copy_bus_voltages. intros H Hj. ok_inv H. subst results'.
  rewrite lookup_insert_ne; [done|congruence].
Qed.

Lemma pq_multipliers_frame E om ll results results' (j : string) :
  pq_multipliers E om ll results = Ok results' →
  j ≠ "gen" → results' !! j = results !! j.
Proof.
  unfold pq_multipliers. intros H Hj.
  apply bind_Ok in H as (nh & _ & H). apply bind_Ok in H as (nl' & _ & H).
  destruct (_ || _).
  - ok_inv H. subst results'. rewrite lookup_insert_ne; [done|congruence].
  - congruence.
Qed.

Lemma angle_multipliers_frame E om ll results results' (j : string) :
  angle_multipliers E om ll results = Ok results' →
  j ≠ "branch" → results' !! j = results !! j.
Proof.
  unfold angle_multipliers. intros H Hj. ok_inv H. subst results'.
  rewrite !lookup_insert_ne; [done|congruence..].
Qed.

Lemma strip_legacy_frame results results' (j : string) :
  strip_legacy results = Ok results' →
  j ≠ "dg" → j ≠ "g" → results' !! j = results !! j.
Proof.
  unfold strip_legacy, delitem. intros H H1 H2.
  destruct (results !! "dg"); [|congruence].
  simpl in H. destruct (delete "dg" results !! "g"); [|discriminate].
  injection H as <-. rewrite !lookup_delete_ne; [done|congruence..].
Qed.

Lemma correct_success E om dc ppopt results raw :
  correct E om dc ppopt results true raw =
    '(results, raw) ←
      (if truthy dc then Ok (results, raw)
       else correct_ac E om (get_idx om).1.1.2 ppopt results raw);
    results ← strip_legacy results;
    nang ← getidx (idx_N (get_idx om).1.1.2) "ang";
    results ← (if 0 <? nang
               then angle_multipliers E om (get_idx om).1.1.2 results
               else Ok results);
    Ok (results, raw).
Proof. unfold correct. destruct (get_idx om) as [[[vv ll] nn] cc]. reflexivity. Qed.

Lemma correct_failure E om dc ppopt results raw :
  correct E om dc ppopt results false raw =
    if truthy dc then Ok (results, raw)
    else
      der ← getopt ppopt "RETURN_RAW_DER";
      if truthy der then Ok (results, empty_derivatives raw)
      else Ok (results, raw).
Proof. unfold correct. destruct (get_idx om) as [[[vv ll] nn] cc]. reflexivity. Qed.

Lemma correct_ac_frame E om ll ppopt results raw results' raw' (j : string) :
  correct_ac E om ll ppopt results raw = Ok (results', raw') →
  j ≠ "gen" → results' !! j = results !! j.
Proof.
  unfold correct_ac. intros H Hj.
  apply bind_Ok in H as (r1 & H1 & H). apply bind_Ok in H as (r2 & H2 & H).
  apply bind_Ok in H as (der & _ & H). apply bind_Ok in H as (raw1 & _ & H).
  injection H as <- <-.
  rewrite (pq_multipliers_frame _ _ _ _ _ _ H2 Hj).
  exact (copy_bus_voltages_frame _ _ _ _ H1 Hj).
Qed.

(** The corrector writes the keys [gen], [branch], [dg] and [g] of
    [results] only; on failure it writes none. *)
Lemma correct_frame E om dc ppopt results s raw results' raw' (j : string) :
  correct E om dc ppopt results s raw = Ok (results', raw') →
  j ∉ ["gen"; "branch"; "dg"; "g"] → results' !! j = results !! j.
Proof.
  intros H Hj.
  assert (j ≠ "gen" ∧ j ≠ "branch" ∧ j ≠ "dg" ∧ j ≠ "g") as (J1 & J2 & J3 & J4).
  { repeat split; intros ->; apply Hj; repeat constructor. }
  destruct s.
  - rewrite correct_success in H.
    apply bind_Ok in H as ([r1 raw1] & H1 & H).
    apply bind_Ok in H as (r2 & H2 & H). apply bind_Ok in H as (nang & _ & H).
    apply bind_Ok in H as (r3 & H3 & H). injection H as <- <-.
    assert (r3 !! j = r2 !! j) as ->.
    { destruct (0 <? nang); [|congruence].
      exact (angle_multipliers_frame _ _ _ _ _ _ H3 J2). }
    rewrite (strip_legacy_frame _ _ _ H2 J3 J4).
    destruct (truthy dc); [congruence|].
    exact (correct_ac_frame _ _ _ _ _ _ _ _ _ H1 J1).
  - rewrite correct_failure in H. destruct (truthy dc); [congruence|].
    apply bind_Ok in H as (der & _ & H). destruct (truthy der); congruence.
Qed.

Lemma correct_failure_results E om dc ppopt results raw results' raw' :
  correct E om dc ppopt results false raw = Ok (results', raw') →
  results' = results.
Proof.
  rewrite correct_failure. intros H. destruct (truthy dc); [congruence|].
  apply bind_Ok in H as (der & _ & H). destruct (truthy der); congruence.
Qed.

(** A call that returns went through every stage. *)
Lemma run_stages E om ppopt log st results0 success raw0 res s raw :
  dispatch E om ppopt = (log, Ok st) →
  l_bound st = Some (results0, success, raw0) →
  opf_execute E om ppopt = (log, Ok (res, s, raw)) →
  s = success ∧
  ∃ raw1 results2 raw2 results3,
    stamp_alg (l_alg st) raw0 = Ok raw1 ∧
    correct E om (l_dc st) (l_ppopt st) results0 s raw1 = Ok (results2, raw2) ∧
    expand om (l_dc st) results2 = Ok results3 ∧
    pwl_patch om (l_dc st) (l_alg st) results3 raw2 = Ok (res, raw).
Proof.
  intros Hd Hb Hrun. apply opf_execute_Ok in Hrun as (st' & Hd' & Hpost).
  rewrite Hd in Hd'. injection Hd' as <-.
  apply post_Ok in Hpost
    as (r0 & w0 & raw1 & results2 & raw2 & results3 & Hb' & H1 & H2 & H3 & H4).
  rewrite Hb in Hb'. injection Hb' as -> -> ->. split; [reflexivity|].
  exists raw1, results2, raw2, results3. auto.
Qed.

(** ** The algorithm stamp and the derivative fields of [raw] *)


(** With no output record in [raw], line 100 cannot store the stamp. *)
Lemma stamp_alg_without_output alg (raw : dict) :
  raw !! "output" = None → stamp_alg alg raw = Raise (KeyError "output").
Proof.
  intros H. unfold stamp_alg, lacks_alg. rewrite H. simpl.
  unfold getitem. rewrite H. reflexivity.
Qed.

Lemma not_derivative_key (j : string) :
  j ∉ derivative_keys → j ≠ "g" ∧ j ≠ "dg" ∧ j ≠ "df" ∧ j ≠ "d2f".
Proof.
  unfold derivative_keys. intros Hj.
  repeat split; intros ->; apply Hj; repeat constructor.
Qed.

Lemma raw_derivatives_legacy E om ppopt results raw raw' dg :
  results !! "dg" = Some dg →
  raw_derivatives E om ppopt results raw = Ok raw' →
  ∃ g x rest df d2f,
    results !! "g" = Some g ∧ results !! "x" = Some x ∧
    opf_costfcn E x om = Ok (rest, df, d2f) ∧
    raw' = <["d2f" := d2f]> (<["df" := df]> (<["g" := g]> (<["dg" := dg]> ∅))).
Proof.
  intros Hdg H. unfold raw_derivatives in H. rewrite Hdg in H.
  apply bind_Ok in H as (raw1 & H1 & H).
  apply bind_Ok in H1 as (g & Hg & H1). apply getitem_Ok in Hg.
  injection H1 as <-.
  rewrite lookup_insert_ne in H by done. rewrite lookup_insert_eq in H.
  apply bind_Ok in H as (raw2 & H2 & H). injection H2 as <-.
  apply bind_Ok in H as (x & Hx & H). apply getitem_Ok in Hx.
  apply bind_Ok in H as ([[rest df] d2f] & Hc & H). injection H as <-.
  exists g, x, rest, df, d2f. auto.
Qed.

Lemma raw_derivatives_fresh E om ppopt results raw raw' (j : string) :
  results !! "dg" = None →
  raw_derivatives E om ppopt results raw = Ok raw' →
  j ∉ derivative_keys → raw' !! j = raw !! j.
Proof.
  intros Hdg H Hj. apply not_derivative_key in Hj as (J1 & J2 & J3 & J4).
  unfold raw_derivatives in H. rewrite Hdg in H.
  apply bind_Ok in H as (raw1 & H1 & H). injection H1 as <-.
  apply bind_Ok in H as (raw2 & H2 & H).
  apply bind_Ok in H as (x & _ & H).
  apply bind_Ok in H as ([[rest df] d2f] & _ & H). injection H as <-.
  rewrite !lookup_insert_ne by done.
  destruct (raw !! "dg"); [congruence|].
  apply bind_Ok in H2 as (ppc & _ & H2). apply bind_Ok in H2 as (b1 & _ & H2).
  apply bind_Ok in H2 as (b2 & _ & H2). apply bind_Ok in H2 as (b3 & _ & H2).
  apply bind_Ok in H2 as ([[Ybus Yf] Yt] & _ & H2).
  apply bind_Ok in H2 as (x' & _ & H2).
  apply bind_Ok in H2 as ([[[g geq] dg] dgeq] & _ & H2).
  apply bind_Ok in H2 as (rg & _ & H2). apply bind_Ok in H2 as (t1 & _ & H2).
  apply bind_Ok in H2 as (t2 & _ & H2). apply bind_Ok in H2 as (rdg & _ & H2).
  injection H2 as <-. rewrite !lookup_insert_ne by done. reflexivity.
Qed.

(** Unless the legacy route is taken, the corrector only adds derivative
    fields to [raw]. *)
Lemma correct_raw_kept E om dc ppopt results s raw results' raw' (j : string) :
  correct E om dc ppopt results s raw = Ok (results', raw') →
  ¬ legacy_derivatives dc ppopt results s →
  j ∉ derivative_keys → raw' !! j = raw !! j.
Proof.
  intros H Hleg Hj. destruct s.
  - rewrite correct_success in H.
    apply bind_Ok in H as ([r1 raw1] & H1 & H).
    apply bind_Ok in H as (r2 & _ & H). apply bind_Ok in H as (nang & _ & H).
    apply bind_Ok in H as (r3 & _ & H). injection H as <- <-.
    destruct (truthy dc) eqn:Hdc; [congruence|].
    unfold correct_ac in H1.
    apply bind_Ok in H1 as (ra & Ha & H1). apply bind_Ok in H1 as (rb & Hb & H1).
    apply bind_Ok in H1 as (der & Hder & H1). apply getopt_Ok in Hder.
    apply bind_Ok in H1 as (raw2 & Hraw & H1). injection H1 as <- <-.
    destruct (truthy der) eqn:Hd; [|congruence].
    assert (Hdg : rb !! "dg" = results !! "dg").
    { rewrite (pq_multipliers_frame _ _ _ _ _ "dg" Hb) by done.
      apply (copy_bus_voltages_frame _ _ _ "dg" Ha). done. }
    destruct (results !! "dg") as [dg|] eqn:Hres.
    + exfalso. apply Hleg. unfold legacy_derivatives. rewrite Hres. eauto 7.
    + eapply raw_derivatives_fresh; eauto.
  - rewrite correct_failure in H. destruct (truthy dc); [congruence|].
    apply bind_Ok in H as (der & _ & H).
    destruct (truthy der); [|congruence]. injection H as <- <-.
    apply not_derivative_key in Hj as (J1 & J2 & J3 & J4).
    unfold empty_derivatives. rewrite !lookup_insert_ne by done. reflexivity.
Qed.

(** On the legacy route [raw] is rebuilt from nothing. *)
Lemma correct_raw_rebuilt E om dc ppopt results s raw results' raw' :
  correct E om dc ppopt results s raw = Ok (results', raw') →
  legacy_derivatives dc ppopt results s →
  ∃ dg g x rest df d2f,
    results !! "dg" = Some dg ∧ results !! "g" = Some g ∧
    results !! "x" = Some x ∧ opf_costfcn E x om = Ok (rest, df, d2f) ∧
    raw' = <["d2f" := d2f]> (<["df" := df]> (<["g" := g]> (<["dg" := dg]> ∅))).
Proof.
  intros H (-> & Hdc & (der & Hder & Hd) & [dg Hdg]).
  rewrite correct_success in H.
  apply bind_Ok in H as ([r1 raw1] & H1 & H).
  apply bind_Ok in H as (r2 & _ & H). apply bind_Ok in H as (nang & _ & H).
  apply bind_Ok in H as (r3 & _ & H). injection H as <- <-.
  rewrite Hdc in H1. unfold correct_ac in H1.
  apply bind_Ok in H1 as (ra & Ha & H1). apply bind_Ok in H1 as (rb & Hb & H1).
  apply bind_Ok in H1 as (der' & Hder' & H1). apply getopt_Ok in Hder'.
  rewrite Hder in Hder'. injection Hder' as <-. rewrite Hd in H1.
  apply bind_Ok in H1 as (raw2 & Hraw & H1). injection H1 as <- <-.
  assert (Hfr : ∀ j : string, j ≠ "gen" → rb !! j = results !! j).
  { intros j Hj. rewrite (pq_multipliers_frame _ _ _ _ _ j Hb) by done.
    apply (copy_bus_voltages_frame _ _ _ j Ha). done. }
  eapply raw_derivatives_legacy in Hraw as (g & x & rest & df & d2f & Hg & Hx & Hc & ->).
  2: { rewrite Hfr by done. exact Hdg. }
  rewrite Hfr in Hg, Hx by done.
  exists dg, g, x, rest, df, d2f. auto.
Qed.

Lemma pwl_patch_without_xr om dc alg results raw res raw' :
  raw !! "xr" = None →
  pwl_patch om dc alg results raw = Ok (res, raw') →
  res = results ∧ raw' = raw.
Proof.
  intros Hxr H. unfold pwl_patch in H.
  apply bind_Ok in H as (pwl1 & _ & H). apply bind_Ok in H as (k & _ & H).
  destruct (_ && _).
  - destruct (get_idx om) as [[[vv ?] ?] ?].
    apply bind_Ok in H as (nx & _ & H). apply bind_Ok in H as (xr & Hx & H).
    apply bind_Ok in Hx as (v & Hv & _). apply getitem_Ok in Hv. congruence.
  - injection H as <- <-. auto.
Qed.

(** The patch writes [raw['xr']] and [results['x']] only. *)
Lemma pwl_patch_frame om dc alg results raw res raw' :
  pwl_patch om dc alg results raw = Ok (res, raw') →
  (∀ j : string, j ≠ "x" → res !! j = results !! j) ∧
  (∀ j : string, j ≠ "xr" → raw' !! j = raw !! j).
Proof.
  intros H. unfold pwl_patch in H.
  apply bind_Ok in H as (pwl1 & _ & H). apply bind_Ok in H as (k & _ & H).
  destruct (_ && _).
  - destruct (get_idx om) as [[[vv ?] ?] ?].
    apply bind_Ok in H as (nx & _ & H). apply bind_Ok in H as (xr & _ & H).
    apply bind_Ok in H as (x & _ & H). injection H as <- <-.
    split; intros j Hj; rewrite lookup_insert_ne; done.
  - injection H as <- <-. auto.
Qed.

(** ** Which keys the expander writes *)

Lemma store_blocks_frame fields name idx results results' sp (j : string) :
  Forall (λ f, head f.1 = Some sp) fields →
  store_blocks fields name idx results = Ok results' →
  j ≠ sp → results' !! j = results !! j.
Proof.
  intros Hf. revert results. induction Hf as [|[tgt src] fields Hh _ IH];
    intros results H Hj; simpl in H.
  - congruence.
  - apply bind_Ok in H as (v & _ & H). apply bind_Ok in H as (xs & _ & H).
    apply bind_Ok in H as (r1 & Hset & H).
    rewrite (IH _ H Hj). eapply setitem_at_frame; [exact Hset|].
    simpl in Hh. destruct tgt as [|q tgt]; [discriminate|].
    simpl in *. congruence.
Qed.

Lemma expand_names_frame om space reg fields names results results' sp
  (j : string) :
  Forall (λ f, head f.1 = Some sp) fields →
  expand_names om space reg fields names results = Ok results' →
  j ≠ sp → results' !! j = results !! j.
Proof.
  intros Hf. revert results. induction names as [|name names IH];
    intros results H Hj; simpl in H.
  - congruence.
  - apply bind_Ok in H as (n & _ & H). apply bind_Ok in H as (r1 & H1 & H).
    rewrite (IH _ H Hj). destruct (truthy n); [|congruence].
    apply bind_Ok in H1 as (a & _ & H1). apply bind_Ok in H1 as (b & _ & H1).
    eapply store_blocks_frame; eauto.
Qed.

Lemma var_fields_head : Forall (λ f, head f.1 = Some "var") var_fields.
Proof. repeat constructor. Qed.

Lemma mu_fields_head sp : Forall (λ f, head f.1 = Some sp) (mu_fields sp).
Proof. repeat constructor. Qed.

Lemma expand_var_frame om results results' (j : string) :
  expand_var om results = Ok results' → j ≠ "var" →
  results' !! j = results !! j.
Proof.
  unfold expand_var. destruct (get_idx om) as [[[vv ll] nn] cc]. intros H Hj.
  rewrite (expand_names_frame _ _ _ _ _ _ _ _ j var_fields_head H Hj).
  destruct (var_order om); [done|]. by rewrite lookup_insert_ne.
Qed.

Lemma expand_lin_frame om results results' (j : string) :
  expand_lin om results = Ok results' → j ≠ "lin" →
  results' !! j = results !! j.
Proof.
  unfold expand_lin. destruct (get_idx om) as [[[vv ll] nn] cc]. intros H Hj.
  rewrite (expand_names_frame _ _ _ _ _ _ _ _ j (mu_fields_head "lin") H Hj).
  destruct (lin_order om); [done|]. by rewrite lookup_insert_ne.
Qed.

Lemma expand_nln_frame om dc results results' (j : string) :
  expand_nln om dc results = Ok results' → j ≠ "nln" →
  results' !! j = results !! j.
Proof.
  unfold expand_nln. destruct (truthy dc); [congruence|].
  destruct (get_idx om) as [[[vv ll] nn] cc]. intros H Hj.
  rewrite (expand_names_frame _ _ _ _ _ _ _ _ j (mu_fields_head "nln") H Hj).
  destruct (nln_order om); [done|]. by rewrite lookup_insert_ne.
Qed.

Lemma cost_names_frame om names results results' (j : string) :
  cost_names om names results = Ok results' → j ≠ "cost" →
  results' !! j = results !! j.
Proof.
  revert results. induction names as [|name names IH];
    intros results H Hj; simpl in H.
  - congruence.
  - apply bind_Ok in H as (n & _ & H). apply bind_Ok in H as (r1 & H1 & H).
    rewrite (IH _ H Hj). destruct (truthy n); [|congruence].
    apply bind_Ok in H1 as (x & _ & H1). apply bind_Ok in H1 as (c & _ & H1).
    apply (setitem_at_frame ["cost"] name c _ _ j H1). simpl. congruence.
Qed.

Lemma expand_cost_frame om results results' (j : string) :
  expand_cost om results = Ok results' → j ≠ "cost" →
  results' !! j = results !! j.
Proof.
  unfold expand_cost. intros H Hj. rewrite (cost_names_frame _ _ _ _ j H Hj).
  destruct (cost_order om); [done|]. by rewrite lookup_insert_ne.
Qed.

(** The keys the expander creates. *)
Lemma expand_stages om dc results results' :
  expand om dc results = Ok results' →
  ∃ r1 r2 r3,
    expand_var om results = Ok r1 ∧ expand_lin om r1 = Ok r2 ∧
    expand_nln om dc r2 = Ok r3 ∧ expand_cost om r3 = Ok results'.
Proof.
  unfold expand. intros H.
  apply bind_Ok in H as (r1 & H1 & H). apply bind_Ok in H as (r2 & H2 & H).
  apply bind_Ok in H as (r3 & H3 & H). eauto 7.
Qed.

Lemma expand_frame om dc results results' (j : string) :
  expand om dc results = Ok results' →
  j ∉ space_keys → results' !! j = results !! j.
Proof.
  intros H Hj. apply expand_stages in H as (r1 & r2 & r3 & H1 & H2 & H3 & H4).
  assert (j ≠ "var" ∧ j ≠ "lin" ∧ j ≠ "nln" ∧ j ≠ "cost") as (J1 & J2 & J3 & J4).
  { unfold space_keys in Hj. repeat split; intros ->; apply Hj; repeat constructor. }
  rewrite (expand_cost_frame _ _ _ j H4 J4), (expand_nln_frame _ _ _ _ j H3 J3),
    (expand_lin_frame _ _ _ j H2 J2). exact (expand_var_frame _ _ _ j H1 J1).
Qed.

Lemma before_patch_stages E om st results0 success raw0 raw1 results2 raw2
  results3 :
  l_bound st = Some (results0, success, raw0) →
  stamp_alg (l_alg st) raw0 = Ok raw1 →
  correct E om (l_dc st) (l_ppopt st) results0 success raw1
    = Ok (results2, raw2) →
  expand om (l_dc st) results2 = Ok results3 →
  before_patch E om st = Ok (results3, raw2).
Proof.
  intros Hb H1 H2 H3. unfold before_patch. rewrite Hb.
  unfold from_option, mbind, outcome_bind. rewrite H1, H2, H3. reflexivity.
Qed.


(** The flat solution vector [results['x']] reaches the patch as the solver
    returned it. *)
Lemma x_before_patch E om dc ppopt results0 s raw1 results2 raw2 results3 :
  correct E om dc ppopt results0 s raw1 = Ok (results2, raw2) →
  expand om dc results2 = Ok results3 →
  results3 !! "x" = results0 !! "x".
Proof.
  intros H2 H3.
  rewrite (expand_frame _ _ _ _ "x" H3) by (unfold space_keys; not_in_keys).
  apply (correct_frame _ _ _ _ _ _ _ _ _ "x" H2). not_in_keys.
Qed.

(** C6: when [pwl1] is empty the patch changes nothing: the call returns the
    [results] and [raw] that the stages before the patch produced, whatever
    they are, and [results['x']] is the vector the solver returned. *)
Theorem C6_empty_pwl1_patch_is_noop E om ppopt log st results0 success raw0
  res s raw pwl1 :
  dispatch E om ppopt = (log, Ok st) →
  l_bound st = Some (results0, success, raw0) →
  opf_execute E om ppopt = (log, Ok (res, s, raw)) →
  userdata om "pwl1" = Ok pwl1 →
  py_len pwl1 = Ok 0%nat →
  (∀ results' raw',
     pwl_patch om (l_dc st) (l_alg st) results' raw' = Ok (results', raw')) ∧
  before_patch E om st = Ok (res, raw) ∧
  res !! "x" = results0 !! "x".
Proof.
  intros Hd Hb Hrun Hpwl Hlen.
  destruct (run_stages _ _ _ _ _ _ _ _ _ _ _ Hd Hb Hrun)
    as (-> & raw1 & results2 & raw2 & results3 & H1 & H2 & H3 & H4).
  assert (Hnoop := pwl_patch_empty om (l_dc st) (l_alg st)).
  rewrite (Hnoop _ _ _ Hpwl Hlen) in H4. injection H4 as <- <-.
  split; [intros; eapply Hnoop; eauto|]. split.
  - eapply before_patch_stages; eauto.
  - eapply x_before_patch; eauto.
Qed.




(** C9: after an unsuccessful solve the corrector leaves [results] as the
    solver returned it, so the [gen], [bus] and [branch] tables come back
    untouched; and on an AC problem with [RETURN_RAW_DER] set the fields
    [g], [dg], [df] and [d2f] of [raw] are empty arrays, while otherwise they
    are as the solver left them. *)
Theorem C9_failure_branch E om ppopt log st results0 raw0 res s raw :
  dispatch E om ppopt = (log, Ok st) →
  l_bound st = Some (results0, false, raw0) →
  opf_execute E om ppopt = (log, Ok (res, s, raw)) →
  s = false ∧
  (∃ raw1 raw2,
     stamp_alg (l_alg st) raw0 = Ok raw1 ∧
     correct E om (l_dc st) (l_ppopt st) results0 false raw1
       = Ok (results0, raw2)) ∧
  Forall (λ k, res !! k = results0 !! k) ["gen"; "bus"; "branch"] ∧
  Forall
    (λ k, raw !! k =
          if wants_empty_derivatives (l_dc st) (l_ppopt st)
          then Some (PVec []) else raw0 !! k)
    derivative_keys.
Proof.
  intros Hd Hb Hrun.
  destruct (run_stages _ _ _ _ _ _ _ _ _ _ _ Hd Hb Hrun)
    as (-> & raw1 & results2 & raw2 & results3 & H1 & H2 & H3 & H4).
  pose proof (correct_failure_results _ _ _ _ _ _ _ _ H2) as ->.
  destruct (pwl_patch_frame _ _ _ _ _ _ _ H4) as [Hres Hraw].
  split; [reflexivity|]. split; [eauto|]. split.
  - repeat constructor; rewrite Hres by done;
      apply (expand_frame _ _ _ _ _ H3); unfold space_keys; not_in_keys.
  - assert (Hk : ∀ k : string, k ∈ derivative_keys →
        raw2 !! k = if wants_empty_derivatives (l_dc st) (l_ppopt st)
                    then Some (PVec []) else raw1 !! k).
    { intros k Hk. rewrite correct_failure in H2.
      unfold wants_empty_derivatives. destruct (truthy (l_dc st)); simpl.
      { injection H2 as <-. reflexivity. }
      apply bind_Ok in H2 as (der & Hder & H2). apply getopt_Ok in Hder.
      rewrite Hder. simpl. destruct (truthy der); injection H2 as <-;
        [|reflexivity].
      unfold derivative_keys in Hk. unfold empty_derivatives.
      repeat (apply elem_of_cons in Hk as [->|Hk];
              [rewrite ?lookup_insert_eq, ?(lookup_insert_ne _ _ _ _) by done;
               rewrite ?lookup_insert_eq; reflexivity|]).
      apply elem_of_nil in Hk. destruct Hk. }
    unfold derivative_keys in *.
    repeat constructor; rewrite Hraw by done; rewrite Hk by repeat constructor;
      destruct (wants_empty_derivatives _ _); try reflexivity;
      apply (stamp_alg_frame _ _ _ _ H1); done.
Qed.

(** C10: on the legacy route (successful AC solve, [RETURN_RAW_DER] set, a
    [dg] field in the solver's results) the [raw] handed back is a new
    dictionary of exactly the four derivative fields; the solver's own
    fields and the stamp of line 100 are gone. *)
Theorem C10_legacy_route_rebuilds_raw E om ppopt log st results0 success raw0
  res s raw :
  dispatch E om ppopt = (log, Ok st) →
  l_bound st = Some (results0, success, raw0) →
  opf_execute E om ppopt = (log, Ok (res, s, raw)) →
  legacy_derivatives (l_dc st) (l_ppopt st) results0 success →
  (∃ dg g x rest df d2f,
     results0 !! "dg" = Some dg ∧ results0 !! "g" = Some g ∧
     results0 !! "x" = Some x ∧ opf_costfcn E x om = Ok (rest, df, d2f) ∧
     raw = <["d2f" := d2f]> (<["df" := df]> (<["g" := g]>
             (<["dg" := dg]> ∅)))) ∧
  dom raw = list_to_set derivative_keys ∧
  raw !! "output" = None ∧
  ¬ records_alg (l_alg st) raw.
Proof.
  intros Hd Hb Hrun Hleg.
  destruct (run_stages _ _ _ _ _ _ _ _ _ _ _ Hd Hb Hrun)
    as (-> & raw1 & results2 & raw2 & results3 & H1 & H2 & H3 & H4).
  destruct (correct_raw_rebuilt _ _ _ _ _ _ _ _ _ H2 Hleg)
    as (dg & g & x & rest & df & d2f & Hdg & Hg & Hx & Hc & ->).
  apply pwl_patch_without_xr in H4 as [-> ->].
  2: { rewrite !lookup_insert_ne by done. apply lookup_empty. }
  assert (Hout : (<["d2f" := d2f]> (<["df" := df]> (<["g" := g]>
             (<["dg" := dg]> (∅ : dict)))) : dict) !! "output" = None).
  { rewrite !lookup_insert_ne by done. apply lookup_empty. }
  split; [exists dg, g, x, rest, df, d2f; auto|]. split; [|split].
  - rewrite !dom_insert_L, dom_empty_L. unfold derivative_keys. simpl.
    set_solver.
  - exact Hout.
  - intros (out & a & Ho & _). rewrite Hout in Ho. discriminate.
Qed.

(** ** Tables *)

Lemma np_index_nat n (i : nat) : (i < n)%nat → np_index n (Z.of_nat i) = Ok i.
Proof.
  intros H. unfold np_index. rewrite decide_True by lia. f_equal. lia.
Qed.

Lemma arange_length a b : length (arange a b) = Z.to_nat (b - a).
Proof. unfold arange. by rewrite length_map, length_seq. Qed.

Lemma arange_lookup a b (j : nat) :
  (j < Z.to_nat (b - a))%nat → arange a b !! j = Some (a + Z.of_nat j).
Proof.
  intros H. unfold arange. rewrite list_lookup_fmap.
  rewrite lookup_seq_lt by done. reflexivity.
Qed.

Lemma arange_lookup_Some a b (j : nat) r :
  arange a b !! j = Some r → r = a + Z.of_nat j ∧ (j < Z.to_nat (b - a))%nat.
Proof.
  intros H. assert (Hlt : (j < Z.to_nat (b - a))%nat).
  { apply lookup_lt_Some in H. by rewrite arange_length in H. }
  rewrite arange_lookup in H by done. injection H as <-. auto.
Qed.

Lemma mat_set_spec m k c a m' :
  mat_set m k c a = Ok m' →
  length m' = length m ∧ cell m' k c = Some a ∧
  ∀ k' c', (k' ≠ k ∨ c' ≠ c) → cell m' k' c' = cell m k' c'.
Proof.
  unfold mat_set. destruct (m !! k) as [row|] eqn:Hrow; [|discriminate].
  case_decide as Hc; [|discriminate]. intros [= <-].
  assert (Hk : (k < length m)%nat) by (eapply lookup_lt_Some; eauto).
  split; [apply length_insert|]. unfold cell. split.
  - rewrite list_lookup_insert_eq by done. simpl.
    by rewrite list_lookup_insert_eq.
  - intros k' c' Hne. destruct (decide (k' = k)) as [->|Hk'].
    + rewrite list_lookup_insert_eq by done. rewrite Hrow. simpl.
      destruct Hne as [?|Hc']; [done|]. by rewrite list_lookup_insert_ne.
    + by rewrite list_lookup_insert_ne.
Qed.

Lemma mat_put_length m rows c vals m' :
  mat_put m rows c vals = Ok m' → length m' = length m.
Proof.
  revert m vals. induction rows as [|r rows IH]; intros m [|a vals] H;
    simpl in H; try (injection H as <-; reflexivity).
  apply bind_Ok in H as (k & _ & H). apply bind_Ok in H as (m1 & H1 & H).
  apply mat_set_spec in H1 as (Hlen & _). rewrite (IH _ _ H). exact Hlen.
Qed.

Lemma mat_put_other_col m rows c vals m' k c' :
  mat_put m rows c vals = Ok m' → c' ≠ c → cell m' k c' = cell m k c'.
Proof.
  revert m vals. induction rows as [|r rows IH]; intros m [|a vals] H Hc;
    simpl in H; try (injection H as <-; reflexivity).
  apply bind_Ok in H as (k0 & _ & H). apply bind_Ok in H as (m1 & H1 & H).
  apply mat_set_spec in H1 as (_ & _ & Hfr).
  rewrite (IH _ _ H Hc). apply Hfr. auto.
Qed.

Lemma mat_put_untouched m rows c vals m' k c' :
  mat_put m rows c vals = Ok m' →
  (∀ j r, rows !! j = Some r → np_index (length m) r ≠ Ok k) →
  cell m' k c' = cell m k c'.
Proof.
  revert m vals. induction rows as [|r rows IH]; intros m [|a vals] H Hk;
    simpl in H; try (injection H as <-; reflexivity).
  apply bind_Ok in H as (k0 & Hk0 & H). apply bind_Ok in H as (m1 & H1 & H).
  apply mat_set_spec in H1 as (Hlen & _ & Hfr).
  rewrite (IH _ _ H).
  - apply Hfr. left. intros ->. by apply (Hk 0%nat r).
  - intros j r' Hj. rewrite Hlen. by apply (Hk (S j)).
Qed.

(** The cell a write lands in holds the value of the last write to it. *)
Lemma mat_put_last m rows c vals m' (j : nat) r a k :
  mat_put m rows c vals = Ok m' →
  rows !! j = Some r → vals !! j = Some a →
  np_index (length m) r = Ok k →
  (∀ j' r', (j < j')%nat → rows !! j' = Some r' →
            np_index (length m) r' ≠ Ok k) →
  cell m' k c = Some a.
Proof.
  revert m vals j. induction rows as [|r0 rows IH];
    intros m [|a0 vals] j H Hr Ha Hk Hlast; try discriminate.
  simpl in H.
  apply bind_Ok in H as (k0 & Hk0 & H). apply bind_Ok in H as (m1 & H1 & H).
  apply mat_set_spec in H1 as (Hlen & Hcell & Hfr).
  destruct j as [|j]; simpl in Hr, Ha.
  - injection Hr as ->. injection Ha as ->.
    rewrite Hk in Hk0. injection Hk0 as <-.
    rewrite <- Hcell. eapply mat_put_untouched; [exact H|].
    intros j' r' Hj'. rewrite Hlen. apply (Hlast (S j')); [lia|done].
  - eapply (IH m1 vals j); eauto.
    + by rewrite Hlen.
    + intros j' r' Hlt Hj'. rewrite Hlen. apply (Hlast (S j')); [lia|done].
Qed.

Lemma mat_col_spec m c col :
  mat_col m c = Ok col →
  length col = length m ∧ ∀ i, (i < length m)%nat → col !! i = cell m i c.
Proof.
  revert col. induction m as [|row m IH]; intros col H; simpl in H.
  - injection H as <-. split; [done|]. simpl. lia.
  - apply bind_Ok in H as (a & Ha & H). apply from_option_Ok in Ha.
    apply bind_Ok in H as (rest & Hrest & H). injection H as <-.
    destruct (IH _ Hrest) as [Hlen Hcol]. split; [simpl; lia|].
    intros [|i] Hi.
    + unfold cell. simpl. by rewrite Ha.
    + simpl. apply Hcol. simpl in Hi. lia.
Qed.

Lemma mat_take_spec m rows c vs :
  mat_take m rows c = Ok vs →
  length vs = length rows ∧
  ∀ j r, rows !! j = Some r →
    ∃ k v, np_index (length m) r = Ok k ∧ cell m k c = Some v ∧
           vs !! j = Some v.
Proof.
  revert vs. induction rows as [|r0 rows IH]; intros vs H; simpl in H.
  - injection H as <-. split; [done|]. intros j r Hj. discriminate.
  - apply bind_Ok in H as (k & Hk & H). apply bind_Ok in H as (row & Hrow & H).
    apply from_option_Ok in Hrow.
    apply bind_Ok in H as (a & Ha & H). apply from_option_Ok in Ha.
    apply bind_Ok in H as (rest & Hrest & H). injection H as <-.
    destruct (IH _ Hrest) as [Hlen Hsp]. split; [simpl; lia|].
    intros [|j] r Hj; simpl in Hj.
    + injection Hj as <-. exists k, a. unfold cell. rewrite Hrow. auto.
    + apply Hsp. exact Hj.
Qed.

Lemma broadcast_to_same {A} (v : list A) : broadcast_to (length v) v = Ok v.
Proof. unfold broadcast_to. by rewrite decide_True. Qed.

(** [m[:, c] = vals] with one value per row. *)
Lemma mat_set_col_spec m c vals m' :
  length vals = length m →
  mat_set_col m c vals = Ok m' →
  length m' = length m ∧
  ∀ i, (i < length m)%nat →
    cell m' i c = vals !! i ∧ ∀ c', c' ≠ c → cell m' i c' = cell m i c'.
Proof.
  intros Hlen H. unfold mat_set_col, mat_set_rows in H.
  apply bind_Ok in H as ([] & _ & H).
  rewrite arange_length, Z.sub_0_r, Nat2Z.id, <- Hlen, broadcast_to_same in H.
  change (mat_put m (arange 0 (Z.of_nat (length vals))) c vals = Ok m') in H.
  rewrite Hlen in H.
  split; [eapply mat_put_length; eauto|]. intros i Hi. split.
  - destruct (vals !! i) as [a|] eqn:Ha.
    2: { apply lookup_ge_None in Ha. lia. }
    eapply mat_put_last; eauto.
    + rewrite arange_lookup by lia. reflexivity.
    + rewrite Z.add_0_l. by apply np_index_nat.
    + intros j' r' Hlt Hj'. apply arange_lookup_Some in Hj' as [-> Hj'].
      rewrite Z.add_0_l, np_index_nat by lia. intros [= ->]. lia.
  - intros c' Hc. eapply mat_put_other_col; eauto.
Qed.

(** ** Voltage copy-back *)

Lemma getitem_as_mat_Ok (d : dict) k m :
  getitem d k ≫= as_mat = Ok m ↔ d !! k = Some (PMat m).
Proof.
  split.
  - intros H. apply bind_Ok in H as (v & Hv & H). apply getitem_Ok in Hv.
    apply as_mat_Ok in H. congruence.
  - intros H. apply bind_Ok. exists (PMat m). split; [by apply getitem_Ok|done].
Qed.

Lemma np_index_row_of n r k : np_index n r = Ok k ↔ row_of n r k.
Proof.
  unfold np_index, row_of.
  destruct (decide (0 ≤ r < Z.of_nat n)) as [H1|H1].
  - split; [intros [= <-]; left; done|].
    intros [[_ ->]|[? _]]; [done|lia].
  - destruct (decide (- Z.of_nat n ≤ r < 0)) as [H2|H2].
    + split; [intros [= <-]; right; done|].
      intros [[? _]|[_ ->]]; [lia|done].
    + split; [discriminate|]. intros [[? _]|[? _]]; lia.
Qed.

Lemma integer_part_inject z : integer_part (inject_Z z) z.
Proof.
  unfold integer_part, inject_Z, Qle, Qlt. simpl. split; intros _; lia.
Qed.

(** The cast drops the fraction of the number the float denotes. *)
Lemma astype_int_integer_part x z :
  astype_int x = Some z → ∃ q, float_value x = Some q ∧ integer_part q z.
Proof.
  unfold astype_int, float_value.
  destruct (Prim2SF x) as [s|s| |s m e]; try discriminate.
  - intros [= <-]. exists 0%Q. split; [done|]. apply (integer_part_inject 0).
  - intros [= <-]. destruct (Z.leb_spec 0 e) as [He|He].
    + rewrite Z.shiftl_mul_pow2 by done.
      eexists. split; [done|].
      destruct s.
      * replace (Z.neg m * 2 ^ e) with (- (Z.pos m * 2 ^ e)) by lia.
        apply integer_part_inject.
      * apply integer_part_inject.
    + rewrite Z.shiftr_div_pow2 by lia.
      eexists. split; [done|].
      assert (Hd : 0 < 2 ^ (- e)) by (apply Z.pow_pos_nonneg; lia).
      set (d := 2 ^ (- e)) in *.
      pose proof (Z.mul_div_le (Z.pos m) d Hd) as H1.
      pose proof (Z.mul_succ_div_gt (Z.pos m) d Hd) as H2.
      set (a := Z.pos m / d) in *.
      unfold integer_part, Qle, Qlt. simpl. rewrite Z2Pos.id by done.
      destruct s; split; intros H; nia.
Qed.

Lemma astype_index_spec col rows :
  astype_index col = Ok rows →
  length rows = length col ∧
  ∀ i b, col !! i = Some b →
    ∃ z, rows !! i = Some z ∧ astype_int b = Some z.
Proof.
  unfold astype_index. intros H. apply from_option_Ok in H.
  apply mapM_Some in H. split; [symmetry; by eapply Forall2_length|].
  intros i b Hb.
  destruct (Forall2_lookup_l _ _ _ _ _ H Hb) as (z & Hz & Hbz). eauto.
Qed.

Lemma mat_get_rows_Ok m rows c vs :
  mat_get_rows m rows c = Ok vs → mat_take m rows c = Ok vs.
Proof.
  unfold mat_get_rows. intros H. by apply bind_Ok in H as ([] & _ & H).
Qed.

Lemma copy_bus_voltages_spec E results results' :
  VG E ≠ GEN_BUS E →
  copy_bus_voltages E results = Ok results' →
  ∃ gen bus,
    results' !! "gen" = Some (PMat gen) ∧ results !! "bus" = Some (PMat bus) ∧
    gen_follows_bus E gen bus.
Proof.
  intros Hcols H. unfold copy_bus_voltages in H.
  apply bind_Ok in H as (bus & Hbus & H). apply getitem_as_mat_Ok in Hbus.
  apply bind_Ok in H as (gen & Hgen & H). apply getitem_as_mat_Ok in Hgen.
  apply bind_Ok in H as (col & Hcol & H).
  apply bind_Ok in H as (rows & Hrows & H).
  apply bind_Ok in H as (vm & Hvm & H). apply mat_get_rows_Ok in Hvm.
  apply bind_Ok in H as (gen2 & Hgen2 & H). apply getitem_as_mat_Ok in Hgen2.
  rewrite Hgen in Hgen2. injection Hgen2 as <-.
  apply bind_Ok in H as (gen' & Hset & H). injection H as <-.
  apply mat_col_spec in Hcol as [Hlcol Hcol].
  apply astype_index_spec in Hrows as [Hlrows Hrows].
  apply mat_take_spec in Hvm as [Hlvm Hvm].
  apply mat_set_col_spec in Hset as [Hlen Hset]; [|congruence].
  exists gen', bus. rewrite lookup_insert_eq. split; [done|]. split; [done|].
  intros i Hi. rewrite Hlen in Hi. destruct (Hset i Hi) as [Hvg Hother].
  destruct (col !! i) as [b|] eqn:Hb.
  2: { apply lookup_ge_None in Hb. lia. }
  destruct (Hrows i b Hb) as (z & Hz & Hbz).
  destruct (Hvm i z Hz) as (k & v & Hk & Hv & Hvi).
  apply np_index_row_of in Hk.
  destruct (astype_int_integer_part _ _ Hbz) as (q & Hq & Hqz).
  exists b, k, v. rewrite Hother by done. rewrite <- Hcol by done.
  rewrite Hvg. split; [done|]. split; [|done]. exists q, z. auto.
Qed.



(** ** Angle limit multipliers *)

Lemma getitem_at_cons (d : dict) k p :
  getitem_at (k :: p) (PDict d) = getitem d k ≫= getitem_at p.
Proof. reflexivity. Qed.

Lemma lin_mu_slice_ext (results results' : dict) side ll name :
  results' !! "mu" = results !! "mu" →
  lin_mu_slice results' side ll name = lin_mu_slice results side ll name.
Proof.
  intros H. unfold lin_mu_slice. rewrite !getitem_at_cons.
  unfold getitem. rewrite H. reflexivity.
Qed.

Lemma broadcast_to_length {A} n (v vs : list A) :
  broadcast_to n v = Ok vs → length vs = n.
Proof.
  unfold broadcast_to. case_decide; [intros [= <-]; done|].
  destruct v as [|a [|? ?]]; try discriminate.
  intros [= <-]. apply length_replicate.
Qed.

Lemma broadcast_to_map {A B} (f : A → B) n (v : list A) vs :
  broadcast_to n (map f v) = Ok vs →
  ∃ vb, broadcast_to n v = Ok vb ∧ vs = map f vb.
Proof.
  unfold broadcast_to. rewrite length_map. case_decide.
  - intros [= <-]. eauto.
  - destruct v as [|a [|? ?]]; try discriminate. simpl.
    intros [= <-]. exists (replicate n a). split; [done|].
    symmetry. apply (fmap_replicate f).
Qed.

Lemma mat_set_rows_spec m rows c vals m' :
  mat_set_rows m rows c vals = Ok m' →
  ∃ vs, broadcast_to (length rows) vals = Ok vs ∧ mat_put m rows c vs = Ok m'.
Proof.
  unfold mat_set_rows. intros H. apply bind_Ok in H as ([] & _ & H).
  apply bind_Ok in H as (vs & Hvs & H). eauto.
Qed.

Lemma slice_block_of v a b : block_of v a b (slice v a b).
Proof.
  unfold block_of, slice.
  exists (slice_bound (length v) a), (slice_bound (length v) b).
  split; [apply slice_bound_position|]. split; [apply slice_bound_position|].
  reflexivity.
Qed.

(** The slice of the flat multipliers a block name selects. *)
Lemma lin_mu_slice_spec results side ll name l :
  lin_mu_slice results side ll name = Ok l →
  ∃ v a b,
    getitem_at ["mu"; "lin"; side] (PDict results) = Ok (PVec v) ∧
    idx_i1 ll !! name = Some a ∧ idx_iN ll !! name = Some b ∧
    block_of v a b l.
Proof.
  unfold lin_mu_slice. intros H.
  apply bind_Ok in H as (v & Hv & H). apply bind_Ok in Hv as (w & Hw & Hv).
  apply as_vec_Ok in Hv. subst w.
  apply bind_Ok in H as (a & Ha & H). apply getidx_Ok in Ha.
  apply bind_Ok in H as (b & Hb & H). apply getidx_Ok in Hb.
  injection H as <-. exists v, a, b. split; [done|]. split; [done|].
  split; [done|]. apply slice_block_of.
Qed.

Lemma broadcast_assigned n (l lb : list float) j m :
  broadcast_to n l = Ok lb → lb !! j = Some m → assigned n l j m.
Proof.
  unfold broadcast_to, assigned. case_decide as Hn.
  - intros [= <-] Hj. by left.
  - destruct l as [|a [|? ?]]; try discriminate. intros [= <-] Hj.
    apply lookup_replicate in Hj as [-> Hj]. by right.
Qed.

Lemma angle_multipliers_spec E om ll results results' :
  MU_ANGMIN E ≠ MU_ANGMAX E →
  angle_multipliers E om ll results = Ok results' →
  ∃ iang branch0 branch l u,
    userdata om "iang" = Ok (PIdx iang) ∧
    results !! "branch" = Some (PMat branch0) ∧
    results' !! "branch" = Some (PMat branch) ∧
    lin_mu_slice results "l" ll "ang" = Ok l ∧
    lin_mu_slice results "u" ll "ang" = Ok u ∧
    angle_columns_set E iang l u branch0 branch.
Proof.
  intros Hcols H. unfold angle_multipliers in H.
  apply bind_Ok in H as (viang & Hiang & H).
  apply bind_Ok in H as (l & Hl & H).
  apply bind_Ok in H as (branch0 & Hb0 & H). apply getitem_as_mat_Ok in Hb0.
  apply bind_Ok in H as (iang & Hrows & H). apply as_idx_Ok in Hrows.
  subst viang.
  apply bind_Ok in H as (b1 & Hset1 & H).
  apply bind_Ok in H as (u & Hu & H).
  rewrite (lin_mu_slice_ext results) in Hu by (by rewrite lookup_insert_ne).
  apply bind_Ok in H as (b1' & Hb1 & H). apply getitem_as_mat_Ok in Hb1.
  rewrite lookup_insert_eq in Hb1. injection Hb1 as <-.
  apply bind_Ok in H as (b2 & Hset2 & H). injection H as <-.
  apply mat_set_rows_spec in Hset1 as (vs1 & Hvs1 & Hput1).
  apply mat_set_rows_spec in Hset2 as (vs2 & Hvs2 & Hput2).
  pose proof (broadcast_to_length _ _ _ Hvs1) as Hlen1.
  pose proof (broadcast_to_length _ _ _ Hvs2) as Hlen2.
  apply broadcast_to_map in Hvs1 as (lb & Hlb & ->).
  apply broadcast_to_map in Hvs2 as (ub & Hub & ->).
  rewrite length_map in Hlen1, Hlen2.
  pose proof (mat_put_length _ _ _ _ _ Hput1) as Hl1.
  pose proof (mat_put_length _ _ _ _ _ Hput2) as Hl2.
  exists iang, branch0, b2, l, u.
  rewrite lookup_insert_eq.
  do 5 (split; [done|]). split; [congruence|]. split.
  - intros j k [(r & Hr & Hk) Hlast]. apply np_index_row_of in Hk.
    assert (Hlast' : ∀ j' r', (j < j')%nat → iang !! j' = Some r' →
                       np_index (length branch0) r' ≠ Ok k).
    { intros j' r' Hlt Hj' Hidx. apply np_index_row_of in Hidx.
      by apply (Hlast j' r'). }
    assert (Hj : (j < length iang)%nat) by (eapply lookup_lt_Some; eauto).
    destruct (lb !! j) as [ml|] eqn:Hml.
    2: { apply lookup_ge_None in Hml. lia. }
    destruct (ub !! j) as [mu|] eqn:Hmu.
    2: { apply lookup_ge_None in Hmu. lia. }
    exists ml, mu.
    split; [by apply (broadcast_assigned _ _ _ _ _ Hlb)|].
    split; [by apply (broadcast_assigned _ _ _ _ _ Hub)|]. split.
    + rewrite (mat_put_other_col _ _ _ _ _ k _ Hput2) by done.
      apply (mat_put_last _ _ _ _ _ j r _ _ Hput1); [done| |done|done].
      rewrite list_lookup_fmap, Hml. reflexivity.
    + apply (mat_put_last _ _ _ _ _ j r _ _ Hput2); [done| | |].
      * rewrite list_lookup_fmap, Hmu. reflexivity.
      * by rewrite Hl1.
      * rewrite Hl1. exact Hlast'.
  - intros k c [[Hc1 Hc2]|Hk].
    + rewrite (mat_put_other_col _ _ _ _ _ k _ Hput2) by done.
      by rewrite (mat_put_other_col _ _ _ _ _ k _ Hput1).
    + assert (Hk' : ∀ j r, iang !! j = Some r →
                      np_index (length branch0) r ≠ Ok k).
      { intros j r Hj Hidx. apply np_index_row_of in Hidx.
        by apply (Hk j r). }
      rewrite (mat_put_untouched _ _ _ _ _ k c Hput2) by (by rewrite Hl1).
      by rewrite (mat_put_untouched _ _ _ _ _ k c Hput1).
Qed.

(** C8, as the code has it: after a successful solve with an [ang] block of
    positive width, the two angle-multiplier columns of the branch table
    hold, at each row the side-channel list [iang] names, the lower and the
    upper multiplier of that listing as [m * pi / 180] in binary64
    arithmetic, a rounded product followed by a rounded quotient (for a row
    listed twice, the last listing counts).  The multipliers are the slices
    of the solver's flat linear multipliers over the [ang] block, a slice of
    one entry serving every listing.  All other cells are as the solver
    returned them; with a width that is not positive the branch table is
    untouched. *)
Theorem C8_angle_multipliers_per_degree E om ppopt log st results0 raw0
  res s raw nang :
  dispatch E om ppopt = (log, Ok st) →
  l_bound st = Some (results0, true, raw0) →
  opf_execute E om ppopt = (log, Ok (res, s, raw)) →
  ang_width om = Some nang →
  MU_ANGMIN E ≠ MU_ANGMAX E →
  if 0 <? nang then
    ∃ iang branch0 branch vl vu a b l u,
      userdata om "iang" = Ok (PIdx iang) ∧
      results0 !! "branch" = Some (PMat branch0) ∧
      res !! "branch" = Some (PMat branch) ∧
      getitem_at ["mu"; "lin"; "l"] (PDict results0) = Ok (PVec vl) ∧
      getitem_at ["mu"; "lin"; "u"] (PDict results0) = Ok (PVec vu) ∧
      idx_i1 (get_idx om).1.1.2 !! "ang" = Some a ∧
      idx_iN (get_idx om).1.1.2 !! "ang" = Some b ∧
      block_of vl a b l ∧ block_of vu a b u ∧
      angle_columns_set E iang l u branch0 branch
  else res !! "branch" = results0 !! "branch".
Proof.
  intros Hd Hb Hrun Hw Hcols.
  destruct (run_stages _ _ _ _ _ _ _ _ _ _ _ Hd Hb Hrun)
    as (-> & raw1 & results2 & raw2 & results3 & H1 & H2 & H3 & H4).
  destruct (pwl_patch_frame _ _ _ _ _ _ _ H4) as [Hres _].
  assert (Hbr : res !! "branch" = results2 !! "branch").
  { rewrite Hres by done. eapply expand_frame; eauto.
    unfold space_keys. not_in_keys. }
  rewrite correct_success in H2.
  apply bind_Ok in H2 as ([r1 rawa] & Hac & H2).
  apply bind_Ok in H2 as (r2 & Hstrip & H2).
  apply bind_Ok in H2 as (nang' & Hn & H2). apply getidx_Ok in Hn.
  unfold ang_width in Hw. rewrite Hw in Hn. injection Hn as <-.
  apply bind_Ok in H2 as (r3 & Hang & H2). injection H2 as <- <-.
  assert (Hr2 : ∀ j : string, j ≠ "gen" → j ≠ "dg" → j ≠ "g" →
                  r2 !! j = results0 !! j).
  { intros j J1 J2 J3. rewrite (strip_legacy_frame _ _ j Hstrip J2 J3).
    destruct (truthy (l_dc st)).
    - by injection Hac as <- <-.
    - eapply correct_ac_frame; eauto. }
  destruct (0 <? nang).
  - destruct (angle_multipliers_spec _ _ _ _ _ Hcols Hang)
      as (iang & branch0 & branch & l & u & Hi & Hb0 & Hb' & Hl & Hu & Hset).
    rewrite Hr2 in Hb0 by done.
    rewrite (lin_mu_slice_ext results0) in Hl, Hu by (by apply Hr2).
    apply lin_mu_slice_spec in Hl as (vl & a & b & Hvl & Ha & Hb1 & Hbl).
    apply lin_mu_slice_spec in Hu as (vu & a' & b' & Hvu & Ha' & Hb1' & Hbu).
    rewrite Ha in Ha'. injection Ha' as <-.
    rewrite Hb1 in Hb1'. injection Hb1' as <-.
    exists iang, branch0, branch, vl, vu, a, b, l, u.
    rewrite Hbr. auto 12.
  - injection Hang as <-. rewrite Hbr. by apply Hr2.
Qed.

(** ** Nested dictionaries *)

Lemma diverge_sym p q : diverge p q → diverge q p.
Proof.
  intros (c & a & b & p' & q' & -> & -> & Hab).
  exists c, b, a, q', p'. auto.
Qed.

Lemma getitem_at_ext p (d d' : dict) :
  (∀ j, head p = Some j → d' !! j = d !! j) →
  p ≠ [] → getitem_at p (PDict d') = getitem_at p (PDict d).
Proof.
  destruct p as [|k p]; [done|]. intros H _.
  rewrite !getitem_at_cons. unfold getitem. by rewrite (H k).
Qed.

(** A write [d[p1]...[pn][k] = v] goes into the dictionary at [p]. *)
Lemma setitem_at_written p k v (d d' : dict) :
  setitem_at p k v d = Ok d' →
  ∃ td, getitem_at p (PDict d) = Ok (PDict td) ∧
        getitem_at p (PDict d') = Ok (PDict (<[k := v]> td)).
Proof.
  revert d d'. induction p as [|q p IH]; intros d d' H; simpl in H.
  - injection H as <-. exists d. auto.
  - apply bind_Ok in H as (sub & Hsub & H). apply getitem_Ok in Hsub.
    apply bind_Ok in H as (sd & Hsd & H). apply as_dict_Ok in Hsd. subst sub.
    apply bind_Ok in H as (sd' & Hset & H). injection H as <-.
    destruct (IH _ _ Hset) as (td & H1 & H2). exists td.
    rewrite !getitem_at_cons. unfold getitem.
    rewrite lookup_insert_eq, Hsub. auto.
Qed.

(** It is not seen along a path that has left [p] before its end. *)
Lemma setitem_at_diverge p k v (d d' : dict) q :
  setitem_at p k v d = Ok d' → diverge p q →
  getitem_at q (PDict d') = getitem_at q (PDict d).
Proof.
  intros H (c & a & b & p' & q' & -> & -> & Hab). revert d d' H.
  induction c as [|x c IH]; intros d d' H; simpl in H.
  - apply bind_Ok in H as (sub & _ & H). apply bind_Ok in H as (sd & _ & H).
    apply bind_Ok in H as (sd' & _ & H). injection H as <-.
    simpl app. rewrite !getitem_at_cons. unfold getitem.
    by rewrite lookup_insert_ne.
  - apply bind_Ok in H as (sub & Hsub & H). apply getitem_Ok in Hsub.
    apply bind_Ok in H as (sd & Hsd & H). apply as_dict_Ok in Hsd. subst sub.
    apply bind_Ok in H as (sd' & Hset & H). injection H as <-.
    change ((x :: c) ++ b :: q') with (x :: (c ++ b :: q')).
    rewrite !getitem_at_cons. unfold getitem.
    rewrite lookup_insert_eq, Hsub. simpl. by apply IH.
Qed.

(** ** The expander *)

Lemma store_blocks_elsewhere fields name idx results results' q :
  store_blocks fields name idx results = Ok results' →
  Forall (λ f, diverge f.1 q) fields →
  getitem_at q (PDict results') = getitem_at q (PDict results).
Proof.
  intros H Hf. revert results H.
  induction Hf as [|[tgt src] fields Hd _ IH]; intros results H; simpl in H.
  - congruence.
  - apply bind_Ok in H as (v & _ & H). apply bind_Ok in H as (xs & _ & H).
    apply bind_Ok in H as (r1 & Hset & H).
    rewrite (IH _ H). eapply setitem_at_diverge; eauto.
Qed.

Lemma store_blocks_written sp fields name idx results results' tgt src :
  fields_of_space sp fields →
  store_blocks fields name idx results = Ok results' →
  (tgt, src) ∈ fields →
  ∃ td v xs,
    getitem_at tgt (PDict results) = Ok (PDict td) ∧
    getitem_at src (PDict results) = Ok (PVec v) ∧
    np_take v idx = Ok xs ∧
    getitem_at tgt (PDict results') = Ok (PDict (<[name := PVec xs]> td)).
Proof.
  intros [Hsp Hdiv]. revert results.
  induction fields as [|[t1 s1] fields IH]; intros results H Hin.
  - by apply elem_of_nil in Hin.
  - simpl in H, Hdiv. destruct Hdiv as [Hd1 Hdiv].
    apply Forall_cons in Hsp as [(Ht1 & k1 & Hs1 & Hk1) Hsp].
    apply bind_Ok in H as (v & Hv & H).
    apply bind_Ok in Hv as (pv & Hpv & Hv). apply as_vec_Ok in Hv. subst pv.
    apply bind_Ok in H as (xs & Hxs & H).
    apply bind_Ok in H as (r1 & Hset & H).
    apply elem_of_cons in Hin as [[= -> ->]|Hin].
    + destruct (setitem_at_written _ _ _ _ _ Hset) as (td & Hbefore & Hafter).
      exists td, v, xs. do 3 (split; [done|]).
      rewrite <- Hafter. eapply store_blocks_elsewhere; [exact H|].
      eapply Forall_impl; [exact Hd1|]. intros g Hg. by apply diverge_sym.
    + destruct (IH Hsp Hdiv _ H Hin) as (td & v' & xs' & Ht & Hs & Hx & Hr).
      exists td, v', xs'. split; [|split; [|done]].
      * rewrite <- Ht. symmetry. eapply setitem_at_diverge; [exact Hset|].
        apply list_elem_of_lookup in Hin as [i Hi].
        exact (Forall_lookup_1 _ _ _ _ Hd1 Hi).
      * rewrite <- Hs. symmetry.
        apply list_elem_of_lookup in Hin as [i Hi].
        destruct (Forall_lookup_1 _ _ _ _ Hsp Hi) as (_ & k & Hk & Hne).
        simpl in Hk. apply getitem_at_ext; [|by destruct src].
        intros j Hj. eapply setitem_at_frame; [exact Hset|].
        destruct t1 as [|q t1]; [discriminate|]. simpl in *. congruence.
Qed.

Lemma expanded_iff results0 reg fields (D D' : string → Prop) results :
  (∀ n, D n ↔ D' n) →
  expanded results0 reg fields D results →
  expanded results0 reg fields D' results.
Proof.
  intros Hiff H tgt src Hin. destruct (H tgt src Hin) as (td & Ht & Hn).
  exists td. split; [done|]. intros name. destruct (Hn name) as [H1 H2].
  split; intros HD; [apply H1|apply H2]; by rewrite Hiff.
Qed.

Lemma wide_truthy om sp name n :
  getN om sp name = Ok n → wide om sp name ↔ truthy n = true.
Proof.
  intros H. unfold wide. split.
  - intros (n' & Hn' & Ht). congruence.
  - eauto.
Qed.

Lemma fields_of_space_head sp fields :
  fields_of_space sp fields → Forall (λ f, head f.1 = Some sp) fields.
Proof. intros [H _]. eapply Forall_impl; [exact H|]. by intros f [? _]. Qed.

Lemma expand_names_expanded om sp reg fields results0 names :
  fields_of_space sp fields →
  ∀ results D results',
    (∀ j : string, j ≠ sp → results !! j = results0 !! j) →
    expanded results0 reg fields D results →
    expand_names om sp reg fields names results = Ok results' →
    expanded results0 reg fields (λ n, D n ∨ (n ∈ names ∧ wide om sp n))
      results'.
Proof.
  intros Hfs. induction names as [|c names IH];
    intros results D results' Hagree Hexp H; simpl in H.
  - injection H as <-. eapply expanded_iff; [|exact Hexp].
    intros n. split; [auto|]. intros [?|[Hn _]]; [done|].
    by apply elem_of_nil in Hn.
  - apply bind_Ok in H as (n & Hn & H). apply bind_Ok in H as (r1 & H1 & H).
    pose proof (wide_truthy _ _ _ _ Hn) as Hwide.
    destruct (truthy n) eqn:Ht.
    + apply bind_Ok in H1 as (a & Ha & H1). apply getidx_Ok in Ha.
      apply bind_Ok in H1 as (b & Hb & H1). apply getidx_Ok in Hb.
      assert (Hagree1 : ∀ j : string, j ≠ sp → r1 !! j = results0 !! j).
      { intros j Hj. rewrite <- Hagree by done.
        exact (store_blocks_frame _ _ _ _ _ sp j
                 (fields_of_space_head _ _ Hfs) H1 Hj). }
      assert (Hexp1 : expanded results0 reg fields (λ m, m = c ∨ D m) r1).
      { intros tgt src Hin.
        destruct (store_blocks_written _ _ _ _ _ _ _ _ Hfs H1 Hin)
          as (td & v & xs & Htd & Hv & Hxs & Hafter).
        destruct (Hexp tgt src Hin) as (td' & Htd' & Hnames).
        rewrite Htd in Htd'. injection Htd' as <-.
        exists (<[c := PVec xs]> td). split; [done|]. intros m.
        destruct (Hnames m) as [Hin_D Hout_D]. split.
        - intros HD. destruct (decide (m = c)) as [->|Hmc].
          + exists xs. rewrite lookup_insert_eq. split; [done|].
            exists v, a, b. split; [|done]. rewrite <- Hv.
            destruct Hfs as [Hsrc _].
            apply list_elem_of_lookup in Hin as [i Hi].
            destruct (Forall_lookup_1 _ _ _ _ Hsrc Hi) as (_ & k & Hk & Hne).
            simpl in Hk. symmetry. apply getitem_at_ext; [|by destruct src].
            intros j Hj. apply Hagree. congruence.
          + rewrite lookup_insert_ne by done. apply Hin_D.
            by destruct HD.
        - intros HD. rewrite lookup_insert_ne.
          + apply Hout_D. intros ?. apply HD. by right.
          + intros ->. apply HD. by left. }
      eapply expanded_iff; [|exact (IH _ _ _ Hagree1 Hexp1 H)].
      intros m. simpl. rewrite elem_of_cons. split.
      * intros [[->|?]|[? ?]]; [right; split; [by left|by apply Hwide]|auto..].
      * intros [?|[[->|?] ?]]; auto.
    + injection H1 as <-.
      eapply expanded_iff; [|exact (IH _ _ _ Hagree Hexp H)].
      intros m. simpl. rewrite elem_of_cons. split.
      * intros [?|[? ?]]; auto.
      * intros [?|[[->|?] Hw]]; auto. apply Hwide in Hw. congruence.
Qed.

Lemma np_take_spec {A} (v : list A) idx xs :
  np_take v idx = Ok xs →
  length xs = length idx ∧
  ∀ j i, idx !! j = Some i →
    ∃ k, np_index (length v) i = Ok k ∧ xs !! j = v !! k.
Proof.
  revert xs. induction idx as [|i0 idx IH]; intros xs H; simpl in H.
  - injection H as <-. split; [done|]. intros j i Hj. discriminate.
  - apply bind_Ok in H as (k & Hk & H). apply bind_Ok in H as (a & Ha & H).
    apply from_option_Ok in Ha.
    apply bind_Ok in H as (rest & Hrest & H). injection H as <-.
    destruct (IH _ Hrest) as [Hlen Hsp]. split; [simpl; lia|].
    intros [|j] i Hj; simpl in Hj.
    + injection Hj as <-. exists k. simpl. auto.
    + apply Hsp. exact Hj.
Qed.

(** Indexing by [arange(a, b)] is the slice [[a, b)]. *)
Lemma np_take_arange (v : list float) a b xs :
  np_take v (arange a b) = Ok xs →
  length xs = Z.to_nat (b - a) ∧
  (0 ≤ a → xs = take (Z.to_nat (b - a)) (drop (Z.to_nat a) v)).
Proof.
  intros H. apply np_take_spec in H as [Hlen Hsp].
  rewrite arange_length in Hlen. split; [done|]. intros Ha.
  apply list_eq. intros j. destruct (decide (j < Z.to_nat (b - a))%nat) as [Hj|Hj].
  - destruct (Hsp j (a + Z.of_nat j)) as (k & Hk & Hx).
    { by apply arange_lookup. }
    rewrite Hx, lookup_take_lt, lookup_drop by done.
    unfold np_index in Hk. rewrite decide_True in Hk.
    + injection Hk as <-. f_equal. lia.
    + split; [lia|]. unfold np_index in Hk.
      repeat case_decide; try discriminate; lia.
  - rewrite lookup_take_ge by lia. apply lookup_ge_None. lia.
Qed.

Lemma diverge_intro c a b p' q' : a ≠ b → diverge (c ++ a :: p') (c ++ b :: q').
Proof. intros H. exists c, a, b, p', q'. auto. Qed.

Lemma var_fields_of_space : fields_of_space "var" var_fields.
Proof.
  split.
  - repeat constructor; simpl; eauto.
  - simpl. split; [|split; [|done]]; repeat constructor; simpl.
    + exact (diverge_intro ["var"] "val" "mu" [] ["l"] ltac:(done)).
    + exact (diverge_intro ["var"] "val" "mu" [] ["u"] ltac:(done)).
    + exact (diverge_intro ["var"; "mu"] "l" "u" [] [] ltac:(done)).
Qed.

Lemma mu_fields_of_space sp : sp ≠ "mu" → fields_of_space sp (mu_fields sp).
Proof.
  intros Hsp. split.
  - repeat constructor; simpl; eauto.
  - simpl. split; [|done]. repeat constructor. simpl.
    exact (diverge_intro [sp; "mu"] "l" "u" [] [] ltac:(done)).
Qed.

Lemma expand_space_spec om sp reg fields names results container results' :
  fields_of_space sp fields →
  (∀ tgt src, (tgt, src) ∈ fields →
     getitem_at tgt (PDict (<[sp := container]> results)) = Ok (PDict ∅)) →
  expand_names om sp reg fields names (<[sp := container]> results)
    = Ok results' →
  expanded results reg fields (λ n, n ∈ names ∧ wide om sp n) results'.
Proof.
  intros Hfs Hinit H.
  eapply expanded_iff;
    [|eapply (expand_names_expanded om sp reg fields results names Hfs
                _ (λ _, False)); [| |exact H]].
  - intros n. simpl. split; [tauto|auto].
  - intros j Hj. by rewrite lookup_insert_ne.
  - intros tgt src Hin. exists ∅. split; [by apply (Hinit tgt src)|].
    intros name. split; [done|]. intros _. apply lookup_empty.
Qed.

Lemma getitem_at_insert_eq (d : dict) k p v :
  getitem_at (k :: p) (PDict (<[k := v]> d)) = getitem_at p v.
Proof. rewrite getitem_at_cons. unfold getitem. by rewrite lookup_insert_eq. Qed.

Lemma getitem_at_insert_ne (d : dict) k k' p v :
  k ≠ k' →
  getitem_at (k' :: p) (PDict (<[k := v]> d)) = getitem_at (k' :: p) (PDict d).
Proof.
  intros H. rewrite !getitem_at_cons. unfold getitem.
  by rewrite lookup_insert_ne.
Qed.

Ltac walk_containers :=
  repeat first [ rewrite getitem_at_insert_eq
               | rewrite getitem_at_insert_ne by done ];
  reflexivity.

Lemma var_containers (results : dict) tgt src :
  (tgt, src) ∈ var_fields →
  getitem_at tgt
    (PDict (<["var" := PDict (<["mu" := empty_mu]> (<["val" := PDict ∅]> ∅))]>
              results)) = Ok (PDict ∅).
Proof.
  unfold var_fields, empty_mu. intros Hin.
  repeat (apply elem_of_cons in Hin as [[= -> ->]|Hin]);
    [..|by apply elem_of_nil in Hin]; walk_containers.
Qed.

Lemma mu_containers sp (results : dict) tgt src :
  (tgt, src) ∈ mu_fields sp →
  getitem_at tgt (PDict (<[sp := PDict (<["mu" := empty_mu]> ∅)]> results))
    = Ok (PDict ∅).
Proof.
  unfold mu_fields, empty_mu. intros Hin.
  repeat (apply elem_of_cons in Hin as [[= -> ->]|Hin]);
    [..|by apply elem_of_nil in Hin]; walk_containers.
Qed.

Lemma expanded_target_ext sp results0 reg fields D (results results' : dict) :
  Forall (λ f, head f.1 = Some sp) fields →
  results' !! sp = results !! sp →
  expanded results0 reg fields D results →
  expanded results0 reg fields D results'.
Proof.
  intros Hsp Heq H tgt src Hin. destruct (H tgt src Hin) as (td & Ht & Hn).
  exists td. split; [|done]. rewrite <- Ht.
  apply list_elem_of_lookup in Hin as [i Hi].
  pose proof (Forall_lookup_1 _ _ _ _ Hsp Hi) as Hh. simpl in Hh.
  apply getitem_at_ext; [|by destruct tgt]. intros j Hj. congruence.
Qed.

Lemma is_block_ext (results results' : dict) reg src name xs :
  (∀ j, head src = Some j → results' !! j = results !! j) →
  is_block results reg src name xs → is_block results' reg src name xs.
Proof.
  intros Heq (v & a & b & Hv & Ha & Hb & Hx). exists v, a, b.
  split; [|done]. rewrite <- Hv. destruct src as [|k src]; [done|].
  by apply getitem_at_ext.
Qed.

Lemma expanded_source_ext (results0 results0' : dict) reg fields D results :
  (∀ tgt src j, (tgt, src) ∈ fields → head src = Some j →
     results0' !! j = results0 !! j) →
  expanded results0 reg fields D results →
  expanded results0' reg fields D results.
Proof.
  intros Heq H tgt src Hin. destruct (H tgt src Hin) as (td & Ht & Hn).
  exists td. split; [done|]. intros name. destruct (Hn name) as [H1 H2].
  split; [|done]. intros HD. destruct (H1 HD) as (xs & Hx & Hb).
  exists xs. split; [done|]. eapply is_block_ext; [|exact Hb].
  intros j Hj. eapply Heq; eauto.
Qed.

Lemma var_sources tgt src j :
  (tgt, src) ∈ var_fields → head src = Some j → j = "x" ∨ j = "mu".
Proof.
  unfold var_fields. intros Hin.
  repeat (apply elem_of_cons in Hin as [[= -> ->]|Hin]);
    [..|by apply elem_of_nil in Hin]; intros [= <-]; auto.
Qed.

Lemma mu_sources sp tgt src j :
  (tgt, src) ∈ mu_fields sp → head src = Some j → j = "mu".
Proof.
  unfold mu_fields. intros Hin.
  repeat (apply elem_of_cons in Hin as [[= -> ->]|Hin]);
    [..|by apply elem_of_nil in Hin]; intros [= <-]; auto.
Qed.

Lemma expand_var_spec om results results' :
  var_order om ≠ [] →
  expand_var om results = Ok results' →
  expanded results (get_idx om).1.1.1 var_fields
    (λ n, n ∈ var_order om ∧ wide om "var" n) results'.
Proof.
  unfold expand_var. destruct (get_idx om) as [[[vv ll] nn] cc]. simpl.
  destruct (var_order om) as [|n0 ns]; [done|]. intros _ H.
  eapply expand_space_spec; [apply var_fields_of_space| |exact H].
  intros tgt src. apply var_containers.
Qed.

Lemma expand_lin_spec om results results' :
  lin_order om ≠ [] →
  expand_lin om results = Ok results' →
  expanded results (get_idx om).1.1.2 (mu_fields "lin")
    (λ n, n ∈ lin_order om ∧ wide om "lin" n) results'.
Proof.
  unfold expand_lin. destruct (get_idx om) as [[[vv ll] nn] cc]. simpl.
  destruct (lin_order om) as [|n0 ns]; [done|]. intros _ H.
  eapply expand_space_spec; [by apply mu_fields_of_space| |exact H].
  intros tgt src. apply mu_containers.
Qed.

Lemma expand_nln_spec om dc results results' :
  truthy dc = false →
  nln_order om ≠ [] →
  expand_nln om dc results = Ok results' →
  expanded results (get_idx om).1.2 (mu_fields "nln")
    (λ n, n ∈ nln_order om ∧ wide om "nln" n) results'.
Proof.
  unfold expand_nln. intros ->. destruct (get_idx om) as [[[vv ll] nn] cc].
  simpl. destruct (nln_order om) as [|n0 ns]; [done|]. intros _ H.
  eapply expand_space_spec; [by apply mu_fields_of_space| |exact H].
  intros tgt src. apply mu_containers.
Qed.

(** Each space is expanded from the flat vectors the expander was given, and
    stays as it is while the later spaces are expanded. *)
Lemma expand_dual_spaces om dc results2 results3 sp reg names fields :
  expand om dc results2 = Ok results3 →
  (sp, reg, names, fields) ∈ dual_spaces om dc →
  names ≠ [] →
  expanded results2 reg fields (λ n, n ∈ names ∧ wide om sp n) results3.
Proof.
  intros H Hin Hne.
  apply expand_stages in H as (r1 & r2 & r3 & H1 & H2 & H3 & H4).
  pose proof (expand_var_spec om results2 r1) as Svar.
  pose proof (expand_lin_spec om r1 r2) as Slin.
  pose proof (expand_nln_spec om dc r2 r3) as Snln.
  unfold dual_spaces in Hin. destruct (get_idx om) as [[[vv ll] nn] cc].
  simpl in Svar, Slin, Snln.
  apply elem_of_app in Hin as [Hin|Hin].
  - apply elem_of_cons in Hin as [[= -> -> -> ->]|Hin];
      [|apply elem_of_cons in Hin as [[= -> -> -> ->]|Hin];
        [|by apply elem_of_nil in Hin]].
    + eapply (expanded_target_ext "var"); [apply var_fields_head| |by apply Svar].
      rewrite (expand_cost_frame _ _ _ "var" H4) by done.
      rewrite (expand_nln_frame _ _ _ _ "var" H3) by done.
      by rewrite (expand_lin_frame _ _ _ "var" H2).
    + eapply (expanded_target_ext "lin"); [apply mu_fields_head| |].
      * rewrite (expand_cost_frame _ _ _ "lin" H4) by done.
        by rewrite (expand_nln_frame _ _ _ _ "lin" H3).
      * eapply expanded_source_ext; [|by apply Slin].
        intros tgt src j Hf Hj. rewrite (mu_sources _ _ _ _ Hf Hj).
        symmetry. by apply (expand_var_frame _ _ _ "mu" H1).
  - destruct (truthy dc) eqn:Hdc; [by apply elem_of_nil in Hin|].
    apply elem_of_cons in Hin as [[= -> -> -> ->]|Hin];
      [|by apply elem_of_nil in Hin].
    eapply (expanded_target_ext "nln"); [apply mu_fields_head| |].
    + by rewrite (expand_cost_frame _ _ _ "nln" H4).
    + eapply expanded_source_ext; [|by apply Snln].
      intros tgt src j Hf Hj. rewrite (mu_sources _ _ _ _ Hf Hj).
      symmetry. rewrite (expand_lin_frame _ _ _ "mu" H2) by done.
      by apply (expand_var_frame _ _ _ "mu" H1).
Qed.

Lemma dual_spaces_fields om dc sp reg names fields :
  (sp, reg, names, fields) ∈ dual_spaces om dc →
  sp ≠ "x" ∧ Forall (λ f, head f.1 = Some sp) fields ∧
  ∀ tgt src j, (tgt, src) ∈ fields → head src = Some j → j = "x" ∨ j = "mu".
Proof.
  unfold dual_spaces. destruct (get_idx om) as [[[vv ll] nn] cc].
  intros Hin. apply elem_of_app in Hin as [Hin|Hin].
  - apply elem_of_cons in Hin as [[= -> -> -> ->]|Hin];
      [|apply elem_of_cons in Hin as [[= -> -> -> ->]|Hin];
        [|by apply elem_of_nil in Hin]].
    + split; [done|]. split; [apply var_fields_head|]. apply var_sources.
    + split; [done|]. split; [apply mu_fields_head|].
      intros tgt src j Hf Hj. right. eapply mu_sources; eauto.
  - destruct (truthy dc); [by apply elem_of_nil in Hin|].
    apply elem_of_cons in Hin as [[= -> -> -> ->]|Hin];
      [|by apply elem_of_nil in Hin].
    split; [done|]. split; [apply mu_fields_head|].
    intros tgt src j Hf Hj. right. eapply mu_sources; eauto.
Qed.

Lemma cost_names_spec om names :
  ∀ results (D : string → Prop) results' cd,
    results !! "cost" = Some (PDict cd) →
    (∀ name,
       (D name → ∃ x c, results !! "x" = Some x ∧
                        compute_cost om x name = Ok c ∧ cd !! name = Some c) ∧
       (¬ D name → cd !! name = None)) →
    cost_names om names results = Ok results' →
    ∃ cd', results' !! "cost" = Some (PDict cd') ∧
      ∀ name,
        (D name ∨ (name ∈ names ∧ wide om "cost" name) →
         ∃ x c, results !! "x" = Some x ∧
                compute_cost om x name = Ok c ∧ cd' !! name = Some c) ∧
        (¬ (D name ∨ (name ∈ names ∧ wide om "cost" name)) →
         cd' !! name = None).
Proof.
  induction names as [|c0 names IH]; intros results D results' cd Hcd HD H;
    simpl in H.
  - injection H as <-. exists cd. split; [done|]. intros name.
    destruct (HD name) as [H1 H2]. split.
    + intros [?|[Hn _]]; [auto|]. by apply elem_of_nil in Hn.
    + intros Hn. apply H2. auto.
  - apply bind_Ok in H as (n & Hn & H). apply bind_Ok in H as (r1 & H1 & H).
    pose proof (wide_truthy _ _ _ _ Hn) as Hwide.
    destruct (truthy n) eqn:Ht.
    + apply bind_Ok in H1 as (x & Hx & H1). apply getitem_Ok in Hx.
      apply bind_Ok in H1 as (c & Hc & H1). simpl in H1.
      apply bind_Ok in H1 as (sub & Hsub & H1). apply getitem_Ok in Hsub.
      rewrite Hcd in Hsub. injection Hsub as <-. simpl in H1.
      injection H1 as <-.
      edestruct (IH (<["cost" := PDict (<[c0 := c]> cd)]> results)
                   (λ m, m = c0 ∨ D m) results' (<[c0 := c]> cd))
        as (cd' & Hcd' & Hall); [by rewrite lookup_insert_eq| |exact H|].
      { intros name. destruct (HD name) as [HD1 HD2]. split.
        - intros Hm. rewrite lookup_insert_ne by done.
          destruct (decide (name = c0)) as [->|Hne].
          + exists x, c. by rewrite lookup_insert_eq.
          + rewrite lookup_insert_ne by done. destruct Hm; [done|].
            destruct HD1 as (x' & c' & ? & ? & ?); eauto.
        - intros Hm. rewrite lookup_insert_ne.
          + apply HD2. intros ?. apply Hm. by right.
          + intros ->. apply Hm. by left. }
      exists cd'. split; [done|]. intros name.
      destruct (Hall name) as [A1 A2].
      rewrite lookup_insert_ne in A1 by done. split.
      * intros Hm. apply A1. rewrite elem_of_cons in Hm.
        destruct Hm as [?|[[->|?] ?]]; auto.
      * intros Hm. apply A2. intros Hm'. apply Hm. rewrite elem_of_cons.
        destruct Hm' as [[->|?]|[? ?]]; auto.
        right. split; [by left|by apply Hwide].
    + injection H1 as <-.
      destruct (IH _ D _ cd Hcd HD H) as (cd' & Hcd' & Hall).
      exists cd'. split; [done|]. intros name.
      destruct (Hall name) as [A1 A2]. split.
      * intros Hm. apply A1. rewrite elem_of_cons in Hm.
        destruct Hm as [?|[[->|?] Hw]]; auto.
        apply Hwide in Hw. congruence.
      * intros Hm. apply A2. intros Hm'. apply Hm. rewrite elem_of_cons.
        destruct Hm' as [?|[? ?]]; auto.
Qed.

Lemma expand_cost_spec om results results' :
  cost_order om ≠ [] →
  expand_cost om results = Ok results' →
  ∃ cd, results' !! "cost" = Some (PDict cd) ∧
    ∀ name,
      (name ∈ cost_order om ∧ wide om "cost" name →
       ∃ x c, results !! "x" = Some x ∧
              compute_cost om x name = Ok c ∧ cd !! name = Some c) ∧
      (¬ (name ∈ cost_order om ∧ wide om "cost" name) → cd !! name = None).
Proof.
  unfold expand_cost. destruct (cost_order om) as [|n0 ns] eqn:Hord; [done|].
  intros _ H.
  edestruct (cost_names_spec om (n0 :: ns) (<["cost" := PDict ∅]> results)
               (λ _, False) results' ∅)
    as (cd & Hcd & Hall); [by rewrite lookup_insert_eq| |exact H|].
  { intros name. split; [done|]. intros _. apply lookup_empty. }
  exists cd. split; [done|]. intros name. destruct (Hall name) as [A1 A2].
  rewrite lookup_insert_ne in A1 by done. split.
  - intros Hm. apply A1. by right.
  - intros Hm. apply A2. intros [[]|?]. by apply Hm.
Qed.

(** The expander, whole. *)
Lemma expand_spec om dc results0 results2 results3 :
  (∀ j : string, j = "x" ∨ j = "mu" → results2 !! j = results0 !! j) →
  expand om dc results2 = Ok results3 →
  dual_blocks_expanded om dc results0 results3 ∧
  cost_terms_expanded om results0 results3.
Proof.
  intros Hsrc H. split.
  - intros sp reg names fields tgt src name a b Hsp Hf Hname Ha Hb Hab HN.
    assert (Hne : names ≠ []) by (intros ->; by apply elem_of_nil in Hname).
    pose proof (expand_dual_spaces _ _ _ _ _ _ _ _ H Hsp Hne) as Hexp.
    destruct (dual_spaces_fields _ _ _ _ _ _ Hsp) as (_ & _ & Hsources).
    destruct (Hexp tgt src Hf) as (td & Htd & Hn).
    exists td. split; [done|]. destruct (Hn name) as [Hin Hout].
    pose proof (wide_truthy _ _ _ _ HN) as Hwide.
    destruct (0 <? b - a) eqn:Hpos.
    + apply Z.ltb_lt in Hpos.
      destruct Hin as (xs & Hxs & (v & a' & b' & Hv & Ha' & Hb' & Htake)).
      { split; [done|]. apply Hwide. unfold truthy.
        apply negb_true_iff, Z.eqb_neq. lia. }
      rewrite Ha in Ha'. rewrite Hb in Hb'. injection Ha' as <-.
      injection Hb' as <-.
      destruct (np_take_arange _ _ _ _ Htake) as [Hlen Hslice].
      exists v, xs. split; [|split; [done|split; [done|split; [lia|done]]]].
      rewrite <- Hv. destruct src as [|k src]; [done|].
      apply getitem_at_ext; [|done]. intros j [= <-]. symmetry.
      apply Hsrc. eapply Hsources; eauto.
    + apply Z.ltb_ge in Hpos. apply Hout. intros [_ Hw].
      apply Hwide in Hw. replace (b - a) with 0 in Hw by lia. discriminate.
  - intros name n Hname HN.
    assert (Hne : cost_order om ≠ [])
      by (intros Heq; rewrite Heq in Hname; by apply elem_of_nil in Hname).
    apply expand_stages in H as (r1 & r2 & r3 & H1 & H2 & H3 & H4).
    destruct (expand_cost_spec _ _ _ Hne H4) as (cd & Hcd & Hall).
    exists cd. split; [done|]. destruct (Hall name) as [A1 A2].
    pose proof (wide_truthy _ _ _ _ HN) as Hwide.
    assert (Hx : r3 !! "x" = results0 !! "x").
    { rewrite (expand_nln_frame _ _ _ _ "x" H3) by done.
      rewrite (expand_lin_frame _ _ _ "x" H2) by done.
      rewrite (expand_var_frame _ _ _ "x" H1) by done. apply Hsrc. by left. }
    destruct (truthy n).
    + destruct A1 as (x & c & Hx' & Hc & Hcn); [split; [done|by apply Hwide]|].
      exists x, c. rewrite <- Hx. auto.
    + apply A2. intros [_ Hw]. apply Hwide in Hw. discriminate.
Qed.

(** C5, as the code has it: in a call that returns, every declared name of
    the variable, linear and (AC only) nonlinear space whose registry range
    [[first, last)] has positive width appears in each structured
    sub-mapping of its space with the slice of the matching flat vector at
    that range, of length [last - first], and a name of width zero has no
    key there.  A cost term is not a slice: a name whose width is not zero
    is stored as the value [om.compute_cost] returns at the solved [x], and
    one of width zero has no key. *)
Theorem C5_blocks_expanded E om ppopt log st results0 success raw0 res s raw :
  dispatch E om ppopt = (log, Ok st) →
  l_bound st = Some (results0, success, raw0) →
  opf_execute E om ppopt = (log, Ok (res, s, raw)) →
  dual_blocks_expanded om (l_dc st) results0 res ∧
  cost_terms_expanded om results0 res.
Proof.
  intros Hd Hb Hrun.
  destruct (run_stages _ _ _ _ _ _ _ _ _ _ _ Hd Hb Hrun)
    as (-> & raw1 & results2 & raw2 & results3 & H1 & H2 & H3 & H4).
  destruct (pwl_patch_frame _ _ _ _ _ _ _ H4) as [Hres _].
  destruct (expand_spec om (l_dc st) results0 results2 results3)
    as [Hdual Hcost]; [|exact H3|].
  { intros j Hj. apply (correct_frame _ _ _ _ _ _ _ _ _ j H2).
    destruct Hj as [->| ->]; not_in_keys. }
  split.
  - intros sp reg names fields tgt src name a b Hsp Hf Hname Ha Hb' Hab HN.
    destruct (Hdual _ _ _ _ _ _ _ _ _ Hsp Hf Hname Ha Hb' Hab HN)
      as (td & Htd & Hentry).
    exists td. split; [|exact Hentry]. rewrite <- Htd.
    destruct (dual_spaces_fields _ _ _ _ _ _ Hsp) as (Hx & Hheads & _).
    apply list_elem_of_lookup in Hf as [i Hi].
    pose proof (Forall_lookup_1 _ _ _ _ Hheads Hi) as Hh. simpl in Hh.
    apply getitem_at_ext; [|by destruct tgt].
    intros j Hj. apply Hres. congruence.
  - intros name n Hname HN. destruct (Hcost name n Hname HN) as (cd & Hcd & Hc).
    exists cd. split; [|exact Hc]. by rewrite Hres.
Qed.

(** ** The case, run *)

Lemma returns_intro (r : logged solution) log :
  Case.is_ok r.2 = true → r.1 = log →
  r = (log, Ok (Case.results_of r, Case.success_of r, Case.raw_of r)).
Proof.
  destruct r as [l [[[res s] raw]|e]]; simpl; [|discriminate].
  by intros _ ->.
Qed.

Lemma dispatches_intro (r : logged locals) log :
  Case.is_ok r.2 = true → r.1 = log → r = (log, Ok (Case.locals_of r)).
Proof. destruct r as [l [st|e]]; simpl; [|discriminate]. by intros _ ->. Qed.

(** Settle a closed equation by evaluation. *)
Ltac by_vm :=
  lazymatch goal with |- ?l = ?r => exact (@eq_refl _ r <: l = r) end.


Lemma C1_witness :
  opf_execute (Case.E Case.solved) (Case.om []) (Case.ppopt 0 100 0) =
    ([] ++ ac_banner 0 ++ [(Stderr, diagnostic (resolved_code 100))],
     Raise (UnboundLocalError "raw")).
Proof.
  apply (C1_no_backend_raises (Case.E Case.solved) (Case.om [])
           (Case.ppopt 0 100 0) [] 0 100 0).
  - by_vm.
  - reflexivity.
  - right. vm_compute. repeat split; discriminate.
Defined.




(** C5 as the specification words it fails on the cost terms: the entry of
    the cost term [usr], of width 2, is the number [om.compute_cost]
    returned, not an array of length 2. *)
Lemma C5_counterexample :
  ¬ slices_in_every_space (Case.E Case.solved) (Case.om []) (Case.ppopt 1 0 0).
Proof.
  intros H.
  destruct (H []
              (Case.locals_at Case.solved [] 1 0 0)
              (Case.results_of (Case.call Case.solved [] 1 0 0))
              (Case.success_of (Case.call Case.solved [] 1 0 0))
              (Case.raw_of (Case.call Case.solved [] 1 0 0))
              "cost" Case.cc ["usr"] [["cost"]] ["cost"] "usr" 0 2)
    as (td & Htd & xs & Hxs & _).
  - apply dispatches_intro; by_vm.
  - apply returns_intro; by_vm.
  - unfold claimed_spaces. apply elem_of_app. right.
    apply list_elem_of_singleton. reflexivity.
  - apply list_elem_of_singleton. reflexivity.
  - apply list_elem_of_singleton. reflexivity.
  - by_vm.
  - by_vm.
  - by_vm.
  - vm_compute in Htd. injection Htd as <-.
    vm_compute in Hxs. discriminate.
Qed.

Lemma C5_witness :
  dual_blocks_expanded (Case.om []) (l_dc (Case.locals_at Case.solved [] 0 0 0))
    Case.results (Case.results_of (Case.call Case.solved [] 0 0 0)) ∧
  cost_terms_expanded (Case.om []) Case.results
    (Case.results_of (Case.call Case.solved [] 0 0 0)).
Proof.
  apply (C5_blocks_expanded (Case.E Case.solved) (Case.om [])
           (Case.ppopt 0 0 0) [] (Case.locals_at Case.solved [] 0 0 0)
           Case.results true Case.raw
           (Case.results_of (Case.call Case.solved [] 0 0 0))
           (Case.success_of (Case.call Case.solved [] 0 0 0))
           (Case.raw_of (Case.call Case.solved [] 0 0 0))).
  - apply dispatches_intro; by_vm.
  - by_vm.
  - apply returns_intro; by_vm.
Defined.

Lemma C6_witness :
  (∀ results' raw',
     pwl_patch (Case.om []) (l_dc (Case.locals_at Case.solved [] 1 0 0))
       (l_alg (Case.locals_at Case.solved [] 1 0 0)) results' raw'
       = Ok (results', raw')) ∧
  before_patch (Case.E Case.solved) (Case.om [])
    (Case.locals_at Case.solved [] 1 0 0)
    = Ok (Case.results_of (Case.call Case.solved [] 1 0 0),
          Case.raw_of (Case.call Case.solved [] 1 0 0)) ∧
  Case.results_of (Case.call Case.solved [] 1 0 0) !! "x"
    = Case.results !! "x".
Proof.
  apply (C6_empty_pwl1_patch_is_noop (Case.E Case.solved) (Case.om [])
           (Case.ppopt 1 0 0) [] (Case.locals_at Case.solved [] 1 0 0)
           Case.results true Case.raw
           (Case.results_of (Case.call Case.solved [] 1 0 0))
           (Case.success_of (Case.call Case.solved [] 1 0 0))
           (Case.raw_of (Case.call Case.solved [] 1 0 0))
           (PIdx [])).
  - apply dispatches_intro; by_vm.
  - by_vm.
  - apply returns_intro; by_vm.
  - reflexivity.
  - reflexivity.
Defined.



(** C8 as the specification words it fails for the multiplier 11: the cell
    holds [11 * pi / 180] rounded twice, and multiplying it by 180 and
    dividing by [pi] gives 10.999999999999998 in the arithmetic of the
    program; nor is the cell times 180 over [pi] the number 11 exactly. *)
Lemma C8_counterexample :
  ¬ angle_scale_is_reversible (Case.E More.solved_eleven) (Case.om [])
      (Case.ppopt 1 0 0).
Proof.
  intros H.
  assert (Hlen : length (More.branch_of
                           (Case.results_of
                              (Case.call More.solved_eleven [] 1 0 0)))
                 = 1%nat) by by_vm.
  destruct (H []
              (Case.locals_at More.solved_eleven [] 1 0 0)
              More.results_eleven Case.raw
              (Case.results_of (Case.call More.solved_eleven [] 1 0 0))
              (Case.success_of (Case.call More.solved_eleven [] 1 0 0))
              (Case.raw_of (Case.call More.solved_eleven [] 1 0 0))
              [0]
              (More.branch_of
                 (Case.results_of (Case.call More.solved_eleven [] 1 0 0)))
              [11%float] 0 1 [11%float] 0%nat 0%nat 11%float)
    as (c & Hc & Hundone).
  - apply dispatches_intro; by_vm.
  - by_vm.
  - apply returns_intro; by_vm.
  - reflexivity.
  - by_vm.
  - by_vm.
  - by_vm.
  - by_vm.
  - exists 0%nat, 1%nat. simpl. unfold slice_position.
    repeat split; intros; lia.
  - rewrite Hlen. split.
    + exists 0. split; [reflexivity|]. left. split; [lia|reflexivity].
    + intros [|j'] r' Hlt Hj'; [lia|discriminate].
  - left. split; reflexivity.
  - vm_compute in Hc. injection Hc as <-.
    destruct Hundone as [Hfloat|(qc & qm & qpi & Hqc & Hqm & Hqpi & Heq)].
    + vm_compute in Hfloat. discriminate.
    + vm_compute in Hqc, Hqm, Hqpi.
      injection Hqc as <-. injection Hqm as <-. injection Hqpi as <-.
      vm_compute in Heq. discriminate.
Qed.

Lemma C8_witness :
  if 0 <? 1 then
    ∃ iang branch0 branch vl vu a b l u,
      userdata (Case.om []) "iang" = Ok (PIdx iang) ∧
      Case.results !! "branch" = Some (PMat branch0) ∧
      Case.results_of (Case.call Case.solved [] 1 0 0) !! "branch"
        = Some (PMat branch) ∧
      getitem_at ["mu"; "lin"; "l"] (PDict Case.results) = Ok (PVec vl) ∧
      getitem_at ["mu"; "lin"; "u"] (PDict Case.results) = Ok (PVec vu) ∧
      idx_i1 (get_idx (Case.om [])).1.1.2 !! "ang" = Some a ∧
      idx_iN (get_idx (Case.om [])).1.1.2 !! "ang" = Some b ∧
      block_of vl a b l ∧ block_of vu a b u ∧
      angle_columns_set (Case.E Case.solved) iang l u branch0 branch
  else Case.results_of (Case.call Case.solved [] 1 0 0) !! "branch"
         = Case.results !! "branch".
Proof.
  apply (C8_angle_multipliers_per_degree (Case.E Case.solved) (Case.om [])
           (Case.ppopt 1 0 0) [] (Case.locals_at Case.solved [] 1 0 0)
           Case.results Case.raw
           (Case.results_of (Case.call Case.solved [] 1 0 0))
           (Case.success_of (Case.call Case.solved [] 1 0 0))
           (Case.raw_of (Case.call Case.solved [] 1 0 0)) 1).
  - apply dispatches_intro; by_vm.
  - by_vm.
  - apply returns_intro; by_vm.
  - by_vm.
  - simpl. discriminate.
Defined.

Lemma C9_witness :
  Case.success_of (Case.call Case.failed [] 0 0 1) = false ∧
  (∃ raw1 raw2,
     stamp_alg (l_alg (Case.locals_at Case.failed [] 0 0 1)) Case.raw
       = Ok raw1 ∧
     correct (Case.E Case.failed) (Case.om [])
       (l_dc (Case.locals_at Case.failed [] 0 0 1))
       (l_ppopt (Case.locals_at Case.failed [] 0 0 1))
       Case.results false raw1 = Ok (Case.results, raw2)) ∧
  Forall
    (λ k, Case.results_of (Case.call Case.failed [] 0 0 1) !! k
          = Case.results !! k)
    ["gen"; "bus"; "branch"] ∧
  Forall
    (λ k, Case.raw_of (Case.call Case.failed [] 0 0 1) !! k =
          if wants_empty_derivatives
               (l_dc (Case.locals_at Case.failed [] 0 0 1))
               (l_ppopt (Case.locals_at Case.failed [] 0 0 1))
          then Some (PVec []) else Case.raw !! k)
    derivative_keys.
Proof.
  apply (C9_failure_branch (Case.E Case.failed) (Case.om [])
           (Case.ppopt 0 0 1) [] (Case.locals_at Case.failed [] 0 0 1)
           Case.results Case.raw
           (Case.results_of (Case.call Case.failed [] 0 0 1))
           (Case.success_of (Case.call Case.failed [] 0 0 1))
           (Case.raw_of (Case.call Case.failed [] 0 0 1))).
  - apply dispatches_intro; by_vm.
  - by_vm.
  - apply returns_intro; by_vm.
Defined.

Lemma C10_witness :
  (∃ dg g x rest df d2f,
     Case.legacy_results !! "dg" = Some dg ∧
     Case.legacy_results !! "g" = Some g ∧
     Case.legacy_results !! "x" = Some x ∧
     opf_costfcn (Case.E Case.legacy_solved) x (Case.om [])
       = Ok (rest, df, d2f) ∧
     Case.raw_of (Case.call Case.legacy_solved [] 0 0 1)
       = <["d2f" := d2f]> (<["df" := df]> (<["g" := g]>
           (<["dg" := dg]> ∅)))) ∧
  dom (Case.raw_of (Case.call Case.legacy_solved [] 0 0 1))
    = list_to_set derivative_keys ∧
  Case.raw_of (Case.call Case.legacy_solved [] 0 0 1) !! "output" = None ∧
  ¬ records_alg (l_alg (Case.locals_at Case.legacy_solved [] 0 0 1))
      (Case.raw_of (Case.call Case.legacy_solved [] 0 0 1)).
Proof.
  apply (C10_legacy_route_rebuilds_raw (Case.E Case.legacy_solved) (Case.om [])
           (Case.ppopt 0 0 1) [] (Case.locals_at Case.legacy_solved [] 0 0 1)
           Case.legacy_results true Case.raw
           (Case.results_of (Case.call Case.legacy_solved [] 0 0 1))
           (Case.success_of (Case.call Case.legacy_solved [] 0 0 1))).
  - apply dispatches_intro; by_vm.
  - by_vm.
  - apply returns_intro; by_vm.
  - split; [reflexivity|]. split; [by_vm|]. split.
    + exists 1. split; by_vm.
    + exists (PMat [[1%float]]). by_vm.
Defined.

(** * Further properties *)

(** ** The dispatcher *)

(** X1: a call that returns has written to [stdout] only: the version
    banner and the line naming the problem type when [VERBOSE] is positive,
    and nothing at all otherwise.  Nothing goes to [stderr]. *)
Theorem X1_output_of_a_returning_call E om ppopt log r :
  opf_execute E om ppopt = (log, Ok r) →
  ∃ dc verbose,
    ppopt !! "PF_DC" = Some dc ∧ ppopt !! "VERBOSE" = Some verbose ∧
    log = version_banner E verbose ++
          (if truthy dc then dc_banner verbose else ac_banner verbose) ∧
    Forall (λ e : event, e.1 = Stdout) log ∧
    if decide (0 < verbose) then length log = 2%nat else log = [].
Proof.
  intros H. apply opf_execute_Ok in H as (st & Hd & Hpost).
  apply post_bound in Hpost as [sol Hb].
  destruct (returning_dispatch _ _ _ _ _ _ Hd Hb)
    as (alg & verbose & Hs & -> & _).
  pose proof (setup_banner_length _ _ _ _ _ _ _ Hs) as Hlen.
  apply setup_Ok in Hs as (Hdc & _ & Hv & _).
  exists (l_dc st), verbose. do 3 (split; [done|]). split.
  - apply Forall_app. split; [apply version_banner_stdout|].
    unfold dc_banner, ac_banner.
    destruct (truthy (l_dc st)), (decide (0 < verbose)); repeat constructor.
  - unfold dc_banner, ac_banner in *. rewrite ?length_app.
    destruct (decide (0 < verbose)).
    + rewrite Hlen. by destruct (truthy (l_dc st)).
    + apply nil_length_inv in Hlen. rewrite Hlen. by destruct (truthy (l_dc st)).
Qed.

(** X2: a call that returns has run exactly one solver and hands back its
    success flag: the DC solver on the caller's options whatever [OPF_ALG]
    is, or, on an AC problem, PIPS for a resolved code 560 or 565 and IPOPT
    for 580, on the options extended with [OPF_ALG_POLY]; a requested code 0
    means 560.  No other code returns. *)
Theorem X2_solver_of_a_returning_call E om ppopt log res s raw :
  opf_execute E om ppopt = (log, Ok (res, s, raw)) →
  ∃ st dc alg results0 raw0,
    dispatch E om ppopt = (log, Ok st) ∧
    ppopt !! "PF_DC" = Some dc ∧ ppopt !! "OPF_ALG" = Some alg ∧
    l_bound st = Some (results0, s, raw0) ∧
    solver_ran E om ppopt dc alg (Ok (results0, s, raw0)) ∧
    l_alg st = (if truthy dc then alg else if alg =? 0 then 560 else alg) ∧
    (truthy dc = false → l_alg st ∈ [560; 565; 580]).
Proof.
  intros H. apply opf_execute_Ok in H as (st & Hd & Hpost).
  apply post_Ok in Hpost as (r0 & w0 & _ & _ & _ & _ & Hb & _).
  destruct (returning_dispatch _ _ _ _ _ _ Hd Hb)
    as (alg & verbose & Hs & _ & Halg & _ & Hran).
  apply setup_Ok in Hs as (Hdc & Ha & _).
  exists st, (l_dc st), alg, r0, w0. do 5 (split; [done|]).
  unfold solver_ran in Hran. rewrite resolved_code_eq in Halg.
  split; [done|]. intros Hac.
  rewrite Hac in Halg, Hran. rewrite Halg, <- resolved_code_eq.
  destruct Hran as [[[->| ->] _]|(-> & _)]; repeat constructor.
Qed.

(** X3: an exception raised by the DC solver or by PIPS leaves the function
    as it is, after the banners; only IPOPT's exceptions are caught. *)
Theorem X3_solver_exception_propagates E om ppopt l0 dc alg verbose e :
  setup E om ppopt = (l0, Ok (dc, alg, verbose)) →
  solver_ran E om ppopt dc alg (Raise e) →
  truthy dc = true ∨ resolved_code alg ≠ 580 →
  opf_execute E om ppopt =
    (l0 ++ (if truthy dc then dc_banner verbose else ac_banner verbose),
     Raise e).
Proof.
  intros Hs Hran Hnot. unfold opf_execute, dispatch. rewrite Hs.
  unfold solver_ran in Hran. unfold mbind at 1 2, logged_bind at 1 2.
  destruct (truthy dc).
  - rewrite Hran. unfold dc_banner.
    destruct (decide (0 < verbose)); simpl; by rewrite ?app_nil_r.
  - destruct Hnot as [|Hnot]; [done|].
    destruct Hran as [[Hcode Hran]|[Hcode _]]; [|done].
    fold (resolved_code alg). fold (ac_options ppopt alg).
    unfold run_ac_solver.
    assert ((resolved_code alg =? 560) || (resolved_code alg =? 565) = true)
      as ->.
    { destruct Hcode as [-> | ->]; reflexivity. }
    rewrite Hran. unfold ac_banner.
    destruct (decide (0 < verbose)); simpl; by rewrite ?app_nil_r.
Qed.

(** ** Which keys a call writes *)

Lemma not_in_cons {A} (x y : A) l : x ∉ y :: l → x ≠ y ∧ x ∉ l.
Proof. intros H. split; [intros ->|intros ?]; apply H; by constructor. Qed.

Ltac split_keys H :=
  repeat (let J := fresh "J" in
          apply not_in_cons in H as [J H]).

Ltac other_keys :=
  let H := fresh in
  intros H;
  repeat (apply elem_of_cons in H as [H|H]; [congruence|]);
  apply elem_of_nil in H; exact H.

(** X4: whatever else the solver put into [results] comes back unchanged:
    a call that returns has assigned no key outside [gen], [branch], [dg],
    [g], [var], [lin], [nln], [cost] and [x]; the [bus] table and the
    multipliers under [mu] in particular are only read. *)
Theorem X4_results_frame E om ppopt log st results0 success raw0 res s raw
  (j : string) :
  dispatch E om ppopt = (log, Ok st) →
  l_bound st = Some (results0, success, raw0) →
  opf_execute E om ppopt = (log, Ok (res, s, raw)) →
  j ∉ written_results_keys →
  res !! j = results0 !! j.
Proof.
  intros Hd Hb Hrun Hj.
  destruct (run_stages _ _ _ _ _ _ _ _ _ _ _ Hd Hb Hrun)
    as (-> & raw1 & results2 & raw2 & results3 & H1 & H2 & H3 & H4).
  destruct (pwl_patch_frame _ _ _ _ _ _ _ H4) as [Hres _].
  unfold written_results_keys in Hj. split_keys Hj.
  rewrite Hres by done.
  rewrite (expand_frame _ _ _ _ j H3) by (unfold space_keys; other_keys).
  apply (correct_frame _ _ _ _ _ _ _ _ _ j H2). other_keys.
Qed.

Lemma correct_dc E om dc ppopt results s raw results' raw' :
  truthy dc = true →
  correct E om dc ppopt results s raw = Ok (results', raw') →
  raw' = raw ∧
  ∀ j : string, j ∉ ["branch"; "dg"; "g"] → results' !! j = results !! j.
Proof.
  intros Hdc H. destruct s.
  - rewrite correct_success, Hdc in H.
    apply bind_Ok in H as ([r1 raw1] & [= <- <-] & H).
    apply bind_Ok in H as (r2 & H2 & H). apply bind_Ok in H as (nang & _ & H).
    apply bind_Ok in H as (r3 & H3 & H). injection H as <- <-.
    split; [done|]. intros j Hj. split_keys Hj.
    rewrite <- (strip_legacy_frame _ _ j H2) by done.
    destruct (0 <? nang); [|congruence].
    by apply (angle_multipliers_frame _ _ _ _ _ j H3).
  - rewrite correct_failure, Hdc in H. by injection H as <- <-.
Qed.

Lemma expand_dc_frame om dc results results' (j : string) :
  truthy dc = true →
  expand om dc results = Ok results' →
  j ∉ ["var"; "lin"; "cost"] → results' !! j = results !! j.
Proof.
  intros Hdc H Hj. split_keys Hj.
  apply expand_stages in H as (r1 & r2 & r3 & H1 & H2 & H3 & H4).
  unfold expand_nln in H3. rewrite Hdc in H3. injection H3 as <-.
  rewrite (expand_cost_frame _ _ _ j H4), (expand_lin_frame _ _ _ j H2) by done.
  by apply (expand_var_frame _ _ _ j H1).
Qed.

(** X5: a DC call that returns never writes the [gen] table, the [nln]
    sub-mapping or a derivative field: of [results] it assigns at most
    [branch], [dg], [g], [var], [lin], [cost] and [x], and of [raw] at most
    [output] and [xr]. *)
Theorem X5_dc_call_frame E om ppopt log st results0 success raw0 res s raw :
  dispatch E om ppopt = (log, Ok st) →
  l_bound st = Some (results0, success, raw0) →
  opf_execute E om ppopt = (log, Ok (res, s, raw)) →
  truthy (l_dc st) = true →
  (∀ j : string, j ∉ dc_written_results_keys → res !! j = results0 !! j) ∧
  (∀ j : string, j ∉ dc_written_raw_keys → raw !! j = raw0 !! j).
Proof.
  intros Hd Hb Hrun Hdc.
  destruct (run_stages _ _ _ _ _ _ _ _ _ _ _ Hd Hb Hrun)
    as (-> & raw1 & results2 & raw2 & results3 & H1 & H2 & H3 & H4).
  destruct (pwl_patch_frame _ _ _ _ _ _ _ H4) as [Hres Hraw].
  destruct (correct_dc _ _ _ _ _ _ _ _ _ Hdc H2) as [-> Hcorr].
  split; intros j Hj.
  - unfold dc_written_results_keys in Hj. split_keys Hj.
    rewrite Hres by done.
    rewrite (expand_dc_frame _ _ _ _ j Hdc H3) by other_keys.
    apply Hcorr. other_keys.
  - unfold dc_written_raw_keys in Hj. split_keys Hj.
    rewrite Hraw by done. by apply (stamp_alg_frame _ _ _ j H1).
Qed.

(** X6: unless the legacy route rebuilds it, [raw] comes back with every
    key the function does not assign as the solver left it: only [output],
    [g], [dg], [df], [d2f] and [xr] can differ. *)
Theorem X6_raw_frame E om ppopt log st results0 success raw0 res s raw
  (j : string) :
  dispatch E om ppopt = (log, Ok st) →
  l_bound st = Some (results0, success, raw0) →
  opf_execute E om ppopt = (log, Ok (res, s, raw)) →
  ¬ legacy_derivatives (l_dc st) (l_ppopt st) results0 success →
  j ∉ written_raw_keys →
  raw !! j = raw0 !! j.
Proof.
  intros Hd Hb Hrun Hleg Hj.
  destruct (run_stages _ _ _ _ _ _ _ _ _ _ _ Hd Hb Hrun)
    as (-> & raw1 & results2 & raw2 & results3 & H1 & H2 & H3 & H4).
  destruct (pwl_patch_frame _ _ _ _ _ _ _ H4) as [_ Hraw].
  unfold written_raw_keys in Hj. split_keys Hj.
  rewrite Hraw by done.
  rewrite (correct_raw_kept _ _ _ _ _ _ _ _ _ j H2 Hleg)
    by (unfold derivative_keys; other_keys).
  by apply (stamp_alg_frame _ _ _ j H1).
Qed.

Lemma stamp_alg_sized alg (raw out : dict) a n :
  raw !! "output" = Some (PDict out) →
  out !! "alg" = Some a →
  py_len a = Ok (S n) →
  stamp_alg alg raw = Ok raw.
Proof.
  intros Hout Ha Hn. unfold stamp_alg, lacks_alg. rewrite Hout. simpl.
  rewrite Ha. simpl. by rewrite Hn.
Qed.

(** X7: an algorithm entry of the solver's own that is not empty is never
    overwritten: unless the legacy route rebuilds [raw], the [output] record
    is handed back as the solver returned it. *)
Theorem X7_own_alg_entry_is_kept E om ppopt log st results0 success raw0 res
  s raw out a n :
  dispatch E om ppopt = (log, Ok st) →
  l_bound st = Some (results0, success, raw0) →
  opf_execute E om ppopt = (log, Ok (res, s, raw)) →
  ¬ legacy_derivatives (l_dc st) (l_ppopt st) results0 success →
  raw0 !! "output" = Some (PDict out) →
  out !! "alg" = Some a →
  py_len a = Ok (S n) →
  raw !! "output" = Some (PDict out).
Proof.
  intros Hd Hb Hrun Hleg Hout Ha Hn.
  destruct (run_stages _ _ _ _ _ _ _ _ _ _ _ Hd Hb Hrun)
    as (-> & raw1 & results2 & raw2 & results3 & H1 & H2 & H3 & H4).
  destruct (pwl_patch_frame _ _ _ _ _ _ _ H4) as [_ Hraw].
  rewrite (stamp_alg_sized _ _ _ _ _ Hout Ha Hn) in H1. injection H1 as <-.
  rewrite Hraw by done.
  rewrite (correct_raw_kept _ _ _ _ _ _ _ _ _ "output" H2 Hleg)
    by (unfold derivative_keys; not_in_keys).
  done.
Qed.

Lemma post_stamp_raises E om st results0 success raw0 e :
  l_bound st = Some (results0, success, raw0) →
  stamp_alg (l_alg st) raw0 = Raise e →
  post E om st = Raise e.
Proof.
  intros Hb H. unfold post. rewrite Hb.
  unfold from_option, mbind, outcome_bind. by rewrite H.
Qed.

(** X8: line 99 takes the length of the solver's algorithm entry, so an
    entry that has none (a number, as a solver that stores the numeric code
    itself would leave) makes the call raise [TypeError] after the solver
    has run. *)
Theorem X8_numeric_alg_entry_raises E om ppopt log st results0 success raw0
  out a :
  dispatch E om ppopt = (log, Ok st) →
  l_bound st = Some (results0, success, raw0) →
  raw0 !! "output" = Some (PDict out) →
  out !! "alg" = Some a →
  (a = PNone ∨ (∃ z, a = PInt z) ∨ ∃ q, a = PFloat q) →
  opf_execute E om ppopt = (log, Raise TypeError).
Proof.
  intros Hd Hb Hout Ha Hnum.
  rewrite (opf_execute_post _ _ _ _ _ Hd). f_equal.
  apply (post_stamp_raises _ _ _ _ _ _ _ Hb).
  unfold stamp_alg, lacks_alg. rewrite Hout. simpl. rewrite Ha.
  by destruct Hnum as [-> |[[z ->]|[q ->]]].
Qed.

(** X9: a solver's [raw] without an [output] record makes the call raise
    [KeyError]: line 99 finds the record missing and line 100 then indexes
    it. *)
Theorem X9_missing_output_raises E om ppopt log st results0 success raw0 :
  dispatch E om ppopt = (log, Ok st) →
  l_bound st = Some (results0, success, raw0) →
  raw0 !! "output" = None →
  opf_execute E om ppopt = (log, Raise (KeyError "output")).
Proof.
  intros Hd Hb Hout.
  rewrite (opf_execute_post _ _ _ _ _ Hd). f_equal.
  apply (post_stamp_raises _ _ _ _ _ _ _ Hb).
  by apply stamp_alg_without_output.
Qed.

(** ** The legacy fields of [results] *)

Lemma strip_legacy_spec results results' :
  strip_legacy results = Ok results' →
  results' !! "dg" = None ∧
  results' !! "g" =
    match results !! "dg" with Some _ => None | None => results !! "g" end.
Proof.
  unfold strip_legacy, delitem. intros H.
  destruct (results !! "dg") eqn:Hdg.
  - simpl in H. destruct (delete "dg" results !! "g"); [|discriminate].
    injection H as <-. split.
    + rewrite lookup_delete_ne by done. apply lookup_delete_eq.
    + apply lookup_delete_eq.
  - by injection H as <-.
Qed.

(** X10: after a successful solve [results] comes back without a [dg]
    field, and without [g] when the solver had supplied [dg]; after an
    unsuccessful one both fields are left where they are. *)
Theorem X10_legacy_fields_stripped E om ppopt log st results0 success raw0
  res s raw :
  dispatch E om ppopt = (log, Ok st) →
  l_bound st = Some (results0, success, raw0) →
  opf_execute E om ppopt = (log, Ok (res, s, raw)) →
  res !! "dg" = (if success then None else results0 !! "dg") ∧
  res !! "g" =
    (if success && bool_decide (is_Some (results0 !! "dg")) then None
     else results0 !! "g").
Proof.
  intros Hd Hb Hrun.
  destruct (run_stages _ _ _ _ _ _ _ _ _ _ _ Hd Hb Hrun)
    as (-> & raw1 & results2 & raw2 & results3 & H1 & H2 & H3 & H4).
  destruct (pwl_patch_frame _ _ _ _ _ _ _ H4) as [Hres _].
  rewrite !Hres by done.
  rewrite (expand_frame _ _ _ _ "dg" H3), (expand_frame _ _ _ _ "g" H3)
    by (unfold space_keys; not_in_keys).
  destruct success.
  - rewrite correct_success in H2.
    apply bind_Ok in H2 as ([r1 rawa] & Hac & H2).
    apply bind_Ok in H2 as (r2 & Hstrip & H2).
    apply bind_Ok in H2 as (nang & _ & H2).
    apply bind_Ok in H2 as (r3 & Hang & H2). injection H2 as <- <-.
    assert (Hr3 : ∀ j : string, j ≠ "branch" → r3 !! j = r2 !! j).
    { intros j J. destruct (0 <? nang); [|congruence].
      eapply angle_multipliers_frame; eauto. }
    assert (Hr1 : ∀ j : string, j ≠ "gen" → r1 !! j = results0 !! j).
    { intros j J. destruct (truthy (l_dc st)); [congruence|].
      eapply correct_ac_frame; eauto. }
    rewrite !Hr3 by done.
    destruct (strip_legacy_spec _ _ Hstrip) as [-> ->].
    rewrite !Hr1 by done. split; [done|]. simpl.
    destruct (results0 !! "dg") eqn:Hdg.
    + by rewrite bool_decide_eq_true_2.
    + rewrite bool_decide_eq_false_2; [done|]. by intros [? ?].
  - by rewrite (correct_failure_results _ _ _ _ _ _ _ _ H2).
Qed.

(** X11: results that carry [dg] without [g] make a successful DC call
    raise [KeyError]: line 138 deletes [g] unconditionally once [dg] is
    found. *)
Theorem X11_dg_without_g_raises E om ppopt log st results0 raw0 raw1 dg :
  dispatch E om ppopt = (log, Ok st) →
  l_bound st = Some (results0, true, raw0) →
  truthy (l_dc st) = true →
  stamp_alg (l_alg st) raw0 = Ok raw1 →
  results0 !! "dg" = Some dg →
  results0 !! "g" = None →
  opf_execute E om ppopt = (log, Raise (KeyError "g")).
Proof.
  intros Hd Hb Hdc Hstamp Hdg Hg.
  rewrite (opf_execute_post _ _ _ _ _ Hd). f_equal.
  unfold post. rewrite Hb. unfold from_option.
  unfold mbind at 1 2, outcome_bind at 1 2. rewrite Hstamp.
  rewrite correct_success, Hdc.
  assert (Hs : strip_legacy results0 = Raise (KeyError "g")).
  { unfold strip_legacy, delitem. rewrite Hdg.
    unfold mbind, outcome_bind. rewrite lookup_delete_ne by done.
    by rewrite Hg. }
  unfold mbind, outcome_bind. by rewrite Hs.
Qed.

(** ** The key sets of the structured sub-mappings *)

Lemma wide_dec om sp name : wide om sp name ∨ ¬ wide om sp name.
Proof.
  unfold wide. destruct (getN om sp name) as [n|e] eqn:Hn.
  - destruct (truthy n) eqn:Ht; [eauto|].
    right. intros (n' & [= <-] & ?). congruence.
  - right. by intros (n' & ? & _).
Qed.

Lemma declared_wide_dec om sp (names : list string) name :
  (name ∈ names ∧ wide om sp name) ∨ ¬ (name ∈ names ∧ wide om sp name).
Proof.
  destruct (decide (name ∈ names)) as [Hin|Hin]; [|right; tauto].
  destruct (wide_dec om sp name); [left|right]; tauto.
Qed.

(** X12: each target dictionary of the variable, linear and (AC only)
    nonlinear space is built afresh: in a call that returns, its keys are
    exactly the declared names of the space whose width is not zero;
    whatever the solver had stored under the sub-mapping is gone. *)
Theorem X12_space_keys E om ppopt log st results0 success raw0 res s raw
  sp reg names fields tgt src :
  dispatch E om ppopt = (log, Ok st) →
  l_bound st = Some (results0, success, raw0) →
  opf_execute E om ppopt = (log, Ok (res, s, raw)) →
  (sp, reg, names, fields) ∈ dual_spaces om (l_dc st) →
  (tgt, src) ∈ fields →
  names ≠ [] →
  ∃ td, getitem_at tgt (PDict res) = Ok (PDict td) ∧
        keys_are td (λ n, n ∈ names ∧ wide om sp n).
Proof.
  intros Hd Hb Hrun Hsp Hf Hne.
  destruct (run_stages _ _ _ _ _ _ _ _ _ _ _ Hd Hb Hrun)
    as (-> & raw1 & results2 & raw2 & results3 & H1 & H2 & H3 & H4).
  destruct (pwl_patch_frame _ _ _ _ _ _ _ H4) as [Hres _].
  pose proof (expand_dual_spaces _ _ _ _ _ _ _ _ H3 Hsp Hne) as Hexp.
  destruct (Hexp tgt src Hf) as (td & Htd & Hn).
  exists td. split.
  - rewrite <- Htd.
    destruct (dual_spaces_fields _ _ _ _ _ _ Hsp) as (Hx & Hheads & _).
    apply list_elem_of_lookup in Hf as [i Hi].
    pose proof (Forall_lookup_1 _ _ _ _ Hheads Hi) as Hh. simpl in Hh.
    apply getitem_at_ext; [|by destruct tgt].
    intros j Hj. apply Hres. congruence.
  - intros n. destruct (Hn n) as [Hin Hout]. split.
    + intros Hsome. destruct (declared_wide_dec om sp names n) as [|Hno];
        [done|]. rewrite (Hout Hno) in Hsome. by destruct Hsome.
    + intros HD. destruct (Hin HD) as (xs & -> & _). eauto.
Qed.

(** X13: the [cost] sub-mapping is built afresh as well: when the model
    declares cost terms, its keys in a call that returns are exactly the
    declared terms whose width is not zero. *)
Theorem X13_cost_keys E om ppopt log st results0 success raw0 res s raw :
  dispatch E om ppopt = (log, Ok st) →
  l_bound st = Some (results0, success, raw0) →
  opf_execute E om ppopt = (log, Ok (res, s, raw)) →
  cost_order om ≠ [] →
  ∃ cd, res !! "cost" = Some (PDict cd) ∧
        keys_are cd (λ n, n ∈ cost_order om ∧ wide om "cost" n).
Proof.
  intros Hd Hb Hrun Hne.
  destruct (run_stages _ _ _ _ _ _ _ _ _ _ _ Hd Hb Hrun)
    as (-> & raw1 & results2 & raw2 & results3 & H1 & H2 & H3 & H4).
  destruct (pwl_patch_frame _ _ _ _ _ _ _ H4) as [Hres _].
  apply expand_stages in H3 as (r1 & r2 & r3 & E1 & E2 & E3 & E4).
  destruct (expand_cost_spec _ _ _ Hne E4) as (cd & Hcd & Hall).
  exists cd. split; [by rewrite Hres|].
  intros n. destruct (Hall n) as [Hin Hout]. split.
  - intros Hsome.
    destruct (declared_wide_dec om "cost" (cost_order om) n) as [|Hno];
      [done|]. rewrite (Hout Hno) in Hsome. by destruct Hsome.
  - intros HD. destruct (Hin HD) as (x & c & _ & _ & ->). eauto.
Qed.

Lemma expand_var_idle om results results' (k : string) :
  expand_var om results = Ok results' →
  k ≠ "var" ∨ var_order om = [] → results' !! k = results !! k.
Proof.
  intros H [Hk|Hnil]; [by apply (expand_var_frame _ _ _ k H)|].
  unfold expand_var in H. destruct (get_idx om) as [[[vv ll] nn] cc].
  rewrite Hnil in H. by injection H as <-.
Qed.

Lemma expand_lin_idle om results results' (k : string) :
  expand_lin om results = Ok results' →
  k ≠ "lin" ∨ lin_order om = [] → results' !! k = results !! k.
Proof.
  intros H [Hk|Hnil]; [by apply (expand_lin_frame _ _ _ k H)|].
  unfold expand_lin in H. destruct (get_idx om) as [[[vv ll] nn] cc].
  rewrite Hnil in H. by injection H as <-.
Qed.

Lemma expand_nln_idle om dc results results' (k : string) :
  expand_nln om dc results = Ok results' →
  k ≠ "nln" ∨ truthy dc = true ∨ nln_order om = [] →
  results' !! k = results !! k.
Proof.
  intros H [Hk|Hidle]; [by apply (expand_nln_frame _ _ _ _ k H)|].
  unfold expand_nln in H. destruct (truthy dc); [by injection H as <-|].
  destruct Hidle as [|Hnil]; [done|].
  destruct (get_idx om) as [[[vv ll] nn] cc].
  rewrite Hnil in H. by injection H as <-.
Qed.

Lemma expand_cost_idle om results results' (k : string) :
  expand_cost om results = Ok results' →
  k ≠ "cost" ∨ cost_order om = [] → results' !! k = results !! k.
Proof.
  intros H [Hk|Hnil]; [by apply (expand_cost_frame _ _ _ k H)|].
  unfold expand_cost in H. rewrite Hnil in H. by injection H as <-.
Qed.

Lemma idle_spaces_spec om dc (k : string) :
  k ∈ idle_spaces om dc →
  k ∈ space_keys ∧
  (k ≠ "var" ∨ var_order om = []) ∧ (k ≠ "lin" ∨ lin_order om = []) ∧
  (k ≠ "nln" ∨ truthy dc = true ∨ nln_order om = []) ∧
  (k ≠ "cost" ∨ cost_order om = []).
Proof.
  unfold idle_spaces, space_keys. intros H.
  apply elem_of_app in H as [H|H]; [|apply elem_of_app in H as [H|H];
    [|apply elem_of_app in H as [H|H]]].
  - destruct (var_order om); [|by apply elem_of_nil in H].
    apply list_elem_of_singleton in H as ->.
    split; [repeat constructor|]. repeat split; auto.
  - destruct (lin_order om); [|by apply elem_of_nil in H].
    apply list_elem_of_singleton in H as ->.
    split; [repeat constructor|]. repeat split; auto.
  - assert (k = "nln" ∧ (truthy dc = true ∨ nln_order om = [])) as [-> ?].
    { destruct (truthy dc).
      - apply list_elem_of_singleton in H. auto.
      - destruct (nln_order om); [|by apply elem_of_nil in H].
        apply list_elem_of_singleton in H. auto. }
    split; [repeat constructor|]. repeat split; auto.
  - destruct (cost_order om); [|by apply elem_of_nil in H].
    apply list_elem_of_singleton in H as ->.
    split; [repeat constructor|]. repeat split; auto.
Qed.

(** X14: a sub-mapping is only created for a space that declares names: in
    a call that returns, [var], [lin], [nln] or [cost] of a space with no
    declared name, and [nln] on every DC problem, is whatever the solver put
    under that key, or absent. *)
Theorem X14_idle_spaces_untouched E om ppopt log st results0 success raw0
  res s raw (k : string) :
  dispatch E om ppopt = (log, Ok st) →
  l_bound st = Some (results0, success, raw0) →
  opf_execute E om ppopt = (log, Ok (res, s, raw)) →
  k ∈ idle_spaces om (l_dc st) →
  res !! k = results0 !! k.
Proof.
  intros Hd Hb Hrun Hk.
  destruct (run_stages _ _ _ _ _ _ _ _ _ _ _ Hd Hb Hrun)
    as (-> & raw1 & results2 & raw2 & results3 & H1 & H2 & H3 & H4).
  destruct (pwl_patch_frame _ _ _ _ _ _ _ H4) as [Hres _].
  apply idle_spaces_spec in Hk as (Hsp & Kv & Kl & Kn & Kc).
  assert (k ≠ "x" ∧ k ∉ ["gen"; "branch"; "dg"; "g"]) as [Kx Kcorr].
  { unfold space_keys in Hsp.
    repeat (apply elem_of_cons in Hsp as [->|Hsp];
            [split; [done|not_in_keys]|]).
    by apply elem_of_nil in Hsp. }
  rewrite Hres by done.
  apply expand_stages in H3 as (r1 & r2 & r3 & E1 & E2 & E3 & E4).
  rewrite (expand_cost_idle _ _ _ k E4 Kc), (expand_nln_idle _ _ _ _ k E3 Kn),
    (expand_lin_idle _ _ _ k E2 Kl), (expand_var_idle _ _ _ k E1 Kv).
  by apply (correct_frame _ _ _ _ _ _ _ _ _ k H2).
Qed.

(** ** The gen table of a successful AC solve *)

Lemma correct_ac_stages E om dc ppopt results0 raw1 results2 raw2 :
  truthy dc = false →
  correct E om dc ppopt results0 true raw1 = Ok (results2, raw2) →
  ∃ ra rb der,
    copy_bus_voltages E results0 = Ok ra ∧
    pq_multipliers E om (get_idx om).1.1.2 ra = Ok rb ∧
    ppopt !! "RETURN_RAW_DER" = Some der ∧
    (if truthy der then raw_derivatives E om ppopt rb raw1 else Ok raw1)
      = Ok raw2 ∧
    ∀ j : string, j ∉ ["branch"; "dg"; "g"] → results2 !! j = rb !! j.
Proof.
  intros Hdc H. rewrite correct_success, Hdc in H.
  apply bind_Ok in H as ([r1 rawa] & Hac & H).
  apply bind_Ok in H as (r2 & Hstrip & H).
  apply bind_Ok in H as (nang & _ & H).
  apply bind_Ok in H as (r3 & Hang & H). injection H as <- <-.
  unfold correct_ac in Hac.
  apply bind_Ok in Hac as (ra & Ha & Hac).
  apply bind_Ok in Hac as (rb & Hpq & Hac).
  apply bind_Ok in Hac as (der & Hder & Hac). apply getopt_Ok in Hder.
  apply bind_Ok in Hac as (raw' & Hraw & Hac). injection Hac as <- <-.
  exists ra, rb, der. do 4 (split; [done|]).
  intros j Hj. split_keys Hj.
  rewrite <- (strip_legacy_frame _ _ j Hstrip) by done.
  destruct (0 <? nang); [|congruence].
  by apply (angle_multipliers_frame _ _ _ _ _ j Hang).
Qed.

Lemma copy_bus_voltages_column E results results' :
  copy_bus_voltages E results = Ok results' →
  ∃ gen gen',
    results !! "gen" = Some (PMat gen) ∧
    results' !! "gen" = Some (PMat gen') ∧
    same_but_column (VG E) gen gen'.
Proof.
  intros H. unfold copy_bus_voltages in H.
  apply bind_Ok in H as (bus & Hbus & H).
  apply bind_Ok in H as (gen & Hgen & H). apply getitem_as_mat_Ok in Hgen.
  apply bind_Ok in H as (col & Hcol & H).
  apply bind_Ok in H as (rows & Hrows & H).
  apply bind_Ok in H as (vm & Hvm & H). apply mat_get_rows_Ok in Hvm.
  apply bind_Ok in H as (gen2 & Hgen2 & H). apply getitem_as_mat_Ok in Hgen2.
  rewrite Hgen in Hgen2. injection Hgen2 as <-.
  apply bind_Ok in H as (gen' & Hset & H). injection H as <-.
  apply mat_col_spec in Hcol as [Hlcol _].
  apply astype_index_spec in Hrows as [Hlrows _].
  apply mat_take_spec in Hvm as [Hlvm _].
  apply mat_set_col_spec in Hset as [Hlen Hset]; [|congruence].
  exists gen, gen'. rewrite lookup_insert_eq. do 2 (split; [done|]).
  split; [done|]. intros i c' Hc.
  destruct (decide (i < length gen)%nat) as [Hi|Hi].
  - by apply (Hset i Hi).
  - unfold cell. rewrite !(proj2 (lookup_ge_None _ _)) by lia. done.
Qed.

Lemma pq_multipliers_idle E om results results' :
  ¬ has_pq_curves om →
  pq_multipliers E om (get_idx om).1.1.2 results = Ok results' →
  results' = results.
Proof.
  intros Hno H. unfold pq_multipliers in H.
  apply bind_Ok in H as (nh & Hnh & H). apply getidx_Ok in Hnh.
  apply bind_Ok in H as (nl' & Hnl & H). apply getidx_Ok in Hnl.
  destruct (0 <? nh) eqn:Eh.
  { exfalso. apply Hno. exists "PQh", nh. apply Z.ltb_lt in Eh. auto. }
  destruct (0 <? nl') eqn:El.
  { exfalso. apply Hno. exists "PQl", nl'. apply Z.ltb_lt in El. auto. }
  simpl in H. by injection H as <-.
Qed.

(** X15: on an AC problem without PQ capability curves, all a successful
    call changes in the gen table is its voltage column: every other cell
    and the number of rows are as the solver returned them. *)
Theorem X15_gen_changes_in_voltage_column_only E om ppopt log st results0
  raw0 res s raw :
  dispatch E om ppopt = (log, Ok st) →
  l_bound st = Some (results0, true, raw0) →
  opf_execute E om ppopt = (log, Ok (res, s, raw)) →
  truthy (l_dc st) = false →
  ¬ has_pq_curves om →
  ∃ gen0 gen,
    results0 !! "gen" = Some (PMat gen0) ∧ res !! "gen" = Some (PMat gen) ∧
    same_but_column (VG E) gen0 gen.
Proof.
  intros Hd Hb Hrun Hdc Hno.
  destruct (run_stages _ _ _ _ _ _ _ _ _ _ _ Hd Hb Hrun)
    as (-> & raw1 & results2 & raw2 & results3 & H1 & H2 & H3 & H4).
  destruct (pwl_patch_frame _ _ _ _ _ _ _ H4) as [Hres _].
  destruct (correct_ac_stages _ _ _ _ _ _ _ _ Hdc H2)
    as (ra & rb & der & Ha & Hpq & _ & _ & Hfr).
  apply (pq_multipliers_idle _ _ _ _ Hno) in Hpq as ->.
  destruct (copy_bus_voltages_column _ _ _ Ha) as (gen0 & gen & G0 & G & Hsame).
  exists gen0, gen. split; [done|]. split; [|done].
  rewrite Hres by done.
  rewrite (expand_frame _ _ _ _ "gen" H3) by (unfold space_keys; not_in_keys).
  rewrite Hfr by not_in_keys. done.
Qed.

Lemma pq_multipliers_active E om results results' :
  has_pq_curves om →
  pq_multipliers E om (get_idx om).1.1.2 results = Ok results' →
  ∃ baseMVA gen lh uh ll' ul mu_PQh mu_PQl Apqdata out,
    results !! "baseMVA" = Some baseMVA ∧ results !! "gen" = Some gen ∧
    lin_mu_slice results "l" (get_idx om).1.1.2 "PQh" = Ok lh ∧
    lin_mu_slice results "u" (get_idx om).1.1.2 "PQh" = Ok uh ∧
    np_sub lh uh = Ok mu_PQh ∧
    lin_mu_slice results "l" (get_idx om).1.1.2 "PQl" = Ok ll' ∧
    lin_mu_slice results "u" (get_idx om).1.1.2 "PQl" = Ok ul ∧
    np_sub ll' ul = Ok mu_PQl ∧
    userdata om "Apqdata" = Ok Apqdata ∧
    update_mupq E baseMVA gen mu_PQh mu_PQl Apqdata = Ok out ∧
    results' !! "gen" = Some out.
Proof.
  intros (name & n & Hname & Hn & Hpos) H. unfold pq_multipliers in H.
  apply bind_Ok in H as (nh & Hnh & H). apply getidx_Ok in Hnh.
  apply bind_Ok in H as (nl' & Hnl & H). apply getidx_Ok in Hnl.
  assert ((0 <? nh) || (0 <? nl') = true) as Hcond.
  { apply orb_true_iff.
    destruct Hname as [-> | ->]; [left|right]; apply Z.ltb_lt; congruence. }
  rewrite Hcond in H.
  apply bind_Ok in H as (lh & Hlh & H). apply bind_Ok in H as (uh & Huh & H).
  apply bind_Ok in H as (mu_PQh & Hmh & H).
  apply bind_Ok in H as (ll' & Hll & H). apply bind_Ok in H as (ul & Hul & H).
  apply bind_Ok in H as (mu_PQl & Hml & H).
  apply bind_Ok in H as (Apqdata & Hapq & H).
  apply bind_Ok in H as (baseMVA & Hbase & H). apply getitem_Ok in Hbase.
  apply bind_Ok in H as (g & Hg & H). apply getitem_Ok in Hg.
  apply bind_Ok in H as (out & Hout & H). injection H as <-.
  exists baseMVA, g, lh, uh, ll', ul, mu_PQh, mu_PQl, Apqdata, out.
  rewrite lookup_insert_eq. repeat (split; [done|]). done.
Qed.

Lemma np_sub_difference a b d : np_sub a b = Ok d → difference a b d.
Proof.
  unfold np_sub, difference. case_decide as Hlen.
  - intros [= <-]. left. split; [done|].
    split; [by apply length_zip_with_l_eq|].
    intros j x y Hx Hy. by rewrite lookup_zip_with, Hx, Hy.
  - destruct a as [|x [|x' a]].
    + destruct b as [|y [|y' b]]; try discriminate.
      intros [= <-]. right. right. exists y. split; [done|]. split; [done|].
      intros j x Hx. discriminate.
    + intros [= <-]. right. left. exists x. split; [done|].
      split; [apply length_map|].
      intros j y Hy. by rewrite list_lookup_fmap, Hy.
    + destruct b as [|y [|y' b]]; try discriminate.
      intros [= <-]. right. right. exists y. split; [done|].
      split;
        [apply (length_map (λ x0 : float, (x0 - y)%float) (x :: x' :: a))|].
      intros j x0 Hx0.
      pose proof (list_lookup_fmap (λ x0 : float, (x0 - y)%float)
                    (x :: x' :: a) j) as Hm.
      rewrite Hx0 in Hm. exact Hm.
Qed.

(** X16: with PQ capability curves, the gen table a successful AC call
    returns is what [update_mupq] returned, and [update_mupq] is called
    after the voltage copy-back: it is handed the solver's [baseMVA]; the
    solver's gen table changed in its voltage column only, where every
    generator row now carries the voltage magnitude of the bus it names;
    for the [PQh] and for the [PQl] block the elementwise difference, lower
    minus upper, of the slices of the solver's flat linear multipliers over
    the block; and the model's [Apqdata]. *)
Theorem X16_update_mupq_after_copy_back E om ppopt log st results0 raw0 res
  s raw :
  dispatch E om ppopt = (log, Ok st) →
  l_bound st = Some (results0, true, raw0) →
  opf_execute E om ppopt = (log, Ok (res, s, raw)) →
  truthy (l_dc st) = false →
  has_pq_curves om →
  VG E ≠ GEN_BUS E →
  ∃ baseMVA gen0 bus gen vl vu ah bh al bl lh uh ll' ul mu_PQh mu_PQl
    Apqdata out,
    results0 !! "baseMVA" = Some baseMVA ∧
    results0 !! "gen" = Some (PMat gen0) ∧
    results0 !! "bus" = Some (PMat bus) ∧
    same_but_column (VG E) gen0 gen ∧ gen_follows_bus E gen bus ∧
    getitem_at ["mu"; "lin"; "l"] (PDict results0) = Ok (PVec vl) ∧
    getitem_at ["mu"; "lin"; "u"] (PDict results0) = Ok (PVec vu) ∧
    idx_i1 (get_idx om).1.1.2 !! "PQh" = Some ah ∧
    idx_iN (get_idx om).1.1.2 !! "PQh" = Some bh ∧
    idx_i1 (get_idx om).1.1.2 !! "PQl" = Some al ∧
    idx_iN (get_idx om).1.1.2 !! "PQl" = Some bl ∧
    block_of vl ah bh lh ∧ block_of vu ah bh uh ∧
    block_of vl al bl ll' ∧ block_of vu al bl ul ∧
    difference lh uh mu_PQh ∧ difference ll' ul mu_PQl ∧
    userdata om "Apqdata" = Ok Apqdata ∧
    update_mupq E baseMVA (PMat gen) mu_PQh mu_PQl Apqdata = Ok out ∧
    res !! "gen" = Some out.
Proof.
  intros Hd Hb Hrun Hdc Hpq Hcols.
  destruct (run_stages _ _ _ _ _ _ _ _ _ _ _ Hd Hb Hrun)
    as (-> & raw1 & results2 & raw2 & results3 & H1 & H2 & H3 & H4).
  destruct (pwl_patch_frame _ _ _ _ _ _ _ H4) as [Hres _].
  destruct (correct_ac_stages _ _ _ _ _ _ _ _ Hdc H2)
    as (ra & rb & der & Ha & Hmul & _ & _ & Hfr).
  destruct (pq_multipliers_active _ _ _ _ Hpq Hmul)
    as (baseMVA & g & lh & uh & ll' & ul & mh & ml & apq & out
        & Hbase & Hgen & Hlh & Huh & Hmh & Hll & Hul & Hml & Hapq & Hout & Hg).
  assert (Hmu : ra !! "mu" = results0 !! "mu")
    by (by apply (copy_bus_voltages_frame _ _ _ "mu" Ha)).
  rewrite (lin_mu_slice_ext results0 ra) in Hlh, Huh, Hll, Hul by done.
  rewrite (copy_bus_voltages_frame _ _ _ "baseMVA" Ha) in Hbase by done.
  destruct (copy_bus_voltages_spec _ _ _ Hcols Ha)
    as (gen & bus & Hgen' & Hbus & Hfol).
  destruct (copy_bus_voltages_column _ _ _ Ha)
    as (gen0 & gen'' & Hgen0 & Hgen'' & Hsame).
  rewrite Hgen' in Hgen''. injection Hgen'' as <-.
  rewrite Hgen' in Hgen. injection Hgen as <-.
  apply lin_mu_slice_spec in Hlh as (vl & ah & bh & Hvl & Hah & Hbh & Blh).
  apply lin_mu_slice_spec in Huh as (vu & ah' & bh' & Hvu & Hah' & Hbh' & Buh).
  apply lin_mu_slice_spec in Hll as (vl' & al & bl & Hvl' & Hal & Hbl & Bll).
  apply lin_mu_slice_spec in Hul as (vu' & al' & bl' & Hvu' & Hal' & Hbl' & Bul).
  rewrite Hah in Hah'. injection Hah' as <-.
  rewrite Hbh in Hbh'. injection Hbh' as <-.
  rewrite Hal in Hal'. injection Hal' as <-.
  rewrite Hbl in Hbl'. injection Hbl' as <-.
  rewrite Hvl in Hvl'. injection Hvl' as <-.
  rewrite Hvu in Hvu'. injection Hvu' as <-.
  apply np_sub_difference in Hmh, Hml.
  exists baseMVA, gen0, bus, gen, vl, vu, ah, bh, al, bl, lh, uh, ll', ul,
    mh, ml, apq, out.
  repeat (split; [done|]).
  rewrite Hres by done.
  rewrite (expand_frame _ _ _ _ "gen" H3) by (unfold space_keys; not_in_keys).
  rewrite Hfr by not_in_keys. done.
Qed.

(** ** The patch and the derivative fields *)

Lemma pwl_patch_native om dc alg results raw res raw' :
  alg = 545 ∨ alg = 550 →
  pwl_patch om dc alg results raw = Ok (res, raw') →
  res = results ∧ raw' = raw.
Proof.
  intros Halg H. unfold pwl_patch in H.
  apply bind_Ok in H as (pwl1 & _ & H). apply bind_Ok in H as (k & _ & H).
  assert ((0 <? k)%nat && negb (alg =? 545) && negb (alg =? 550) = false)
    as Hcond.
  { destruct Halg as [-> | ->]; simpl.
    - by rewrite andb_false_r.
    - by rewrite andb_false_r. }
  rewrite Hcond in H. by injection H as <- <-.
Qed.

(** X17: with the code 545 or 550, which only a DC call can carry to the
    patch, no dummy block is inserted however many converted costs [pwl1]
    lists: the call returns what the stages before the patch produced, and
    [results['x']] is the vector the solver returned. *)
Theorem X17_native_codes_skip_the_patch E om ppopt log st results0 success
  raw0 res s raw :
  dispatch E om ppopt = (log, Ok st) →
  l_bound st = Some (results0, success, raw0) →
  opf_execute E om ppopt = (log, Ok (res, s, raw)) →
  l_alg st = 545 ∨ l_alg st = 550 →
  truthy (l_dc st) = true ∧
  before_patch E om st = Ok (res, raw) ∧
  res !! "x" = results0 !! "x" ∧ raw !! "xr" = raw0 !! "xr".
Proof.
  intros Hd Hb Hrun Halg.
  destruct (run_stages _ _ _ _ _ _ _ _ _ _ _ Hd Hb Hrun)
    as (-> & raw1 & results2 & raw2 & results3 & H1 & H2 & H3 & H4).
  apply (pwl_patch_native _ _ _ _ _ _ _ Halg) in H4 as [-> ->].
  assert (Hdc : truthy (l_dc st) = true).
  { destruct (returning_dispatch _ _ _ _ _ _ Hd Hb)
      as (alg & verbose & _ & _ & Hcode & _ & Hran).
    unfold solver_ran in Hran. destruct (truthy (l_dc st)); [done|].
    rewrite <- Hcode in Hran. exfalso.
    destruct Hran as [[[?|?] _]|[? _]], Halg; congruence. }
  split; [done|]. split; [eapply before_patch_stages; eauto|].
  split; [eapply x_before_patch; eauto|].
  destruct (correct_dc _ _ _ _ _ _ _ _ _ Hdc H2) as [-> _].
  by apply (stamp_alg_frame _ _ _ "xr" H1).
Qed.

Lemma post_after_before_patch E om st results0 success raw0 :
  l_bound st = Some (results0, success, raw0) →
  post E om st =
    '(results3, raw2) ← before_patch E om st;
    '(res, raw) ← pwl_patch om (l_dc st) (l_alg st) results3 raw2;
    Ok (res, success, raw).
Proof.
  intros Hb. unfold post, before_patch. rewrite Hb.
  unfold from_option, mbind, outcome_bind.
  destruct (stamp_alg (l_alg st) raw0) as [raw1|]; [|done].
  destruct (correct E om (l_dc st) (l_ppopt st) results0 success raw1)
    as [[results2 raw2]|]; [|done].
  by destruct (expand om (l_dc st) results2).
Qed.

Lemma before_patch_Ok E om st results3 raw2 :
  before_patch E om st = Ok (results3, raw2) →
  ∃ results0 success raw0 raw1 results2,
    l_bound st = Some (results0, success, raw0) ∧
    stamp_alg (l_alg st) raw0 = Ok raw1 ∧
    correct E om (l_dc st) (l_ppopt st) results0 success raw1
      = Ok (results2, raw2) ∧
    expand om (l_dc st) results2 = Ok results3.
Proof.
  unfold before_patch. intros H.
  apply bind_Ok in H as ([[results0 s0] raw0] & Hb & H).
  apply from_option_Ok in Hb.
  apply bind_Ok in H as (raw1 & Hstamp & H).
  apply bind_Ok in H as ([results2 raw2'] & Hcorr & H).
  apply bind_Ok in H as (r3 & Hexp & H). injection H as -> ->.
  exists results0, s0, raw0, raw1, results2. auto.
Qed.

Lemma pwl_patch_missing_xr om dc alg results raw k nx :
  patch_fires om alg k →
  split_point om dc = Some nx →
  raw !! "xr" = None →
  pwl_patch om dc alg results raw = Raise (KeyError "xr").
Proof.
  intros ((pwl1 & H1 & H2) & Hk & Ha & Hb) Hnx Hxr. unfold pwl_patch.
  rewrite H1. unfold mbind at 1, outcome_bind at 1. rewrite H2.
  unfold mbind at 1, outcome_bind at 1.
  apply Nat.ltb_lt in Hk. apply Z.eqb_neq in Ha, Hb. rewrite Hk, Ha, Hb.
  unfold split_point in Hnx. destruct (get_idx om) as [[[vv ?] ?] ?].
  simpl in Hnx. unfold getidx, getitem. rewrite Hnx, Hxr. reflexivity.
Qed.

(** X18: the legacy route and the patch do not go together: when the
    solver's results carry [dg] (successful AC solve, raw derivatives
    requested) and [pwl1] is not empty, the call raises [KeyError], because
    the rebuilt [raw] has no [xr] for line 202 to read. *)
Theorem X18_legacy_route_breaks_the_patch E om ppopt log st results0 success
  raw0 results3 raw2 k nx :
  dispatch E om ppopt = (log, Ok st) →
  l_bound st = Some (results0, success, raw0) →
  legacy_derivatives (l_dc st) (l_ppopt st) results0 success →
  before_patch E om st = Ok (results3, raw2) →
  patch_fires om (l_alg st) k →
  split_point om (l_dc st) = Some nx →
  opf_execute E om ppopt = (log, Raise (KeyError "xr")).
Proof.
  intros Hd Hb Hleg Hbefore Hfires Hnx.
  rewrite (opf_execute_post _ _ _ _ _ Hd). f_equal.
  rewrite (post_after_before_patch _ _ _ _ _ _ Hb), Hbefore.
  apply before_patch_Ok in Hbefore
    as (r0 & s0 & w0 & raw1 & results2 & Hb' & H1 & H2 & H3).
  rewrite Hb in Hb'. injection Hb' as <- <- <-.
  destruct (correct_raw_rebuilt _ _ _ _ _ _ _ _ _ H2 Hleg)
    as (dg & g & x & rest & df & d2f & _ & _ & _ & _ & ->).
  unfold mbind at 1, outcome_bind at 1.
  rewrite (pwl_patch_missing_xr _ _ _ _ _ _ _ Hfires Hnx); [done|].
  rewrite !lookup_insert_ne by done. apply lookup_empty.
Qed.

Lemma raw_derivatives_supplied E om ppopt results raw raw' d :
  results !! "dg" = None →
  raw !! "dg" = Some d →
  raw_derivatives E om ppopt results raw = Ok raw' →
  ∃ x rest df d2f,
    results !! "x" = Some x ∧ opf_costfcn E x om = Ok (rest, df, d2f) ∧
    raw' = <["d2f" := d2f]> (<["df" := df]> raw).
Proof.
  intros Hdg Hraw H. unfold raw_derivatives in H. rewrite Hdg in H.
  apply bind_Ok in H as (raw1 & [= <-] & H). rewrite Hraw in H.
  apply bind_Ok in H as (raw2 & [= <-] & H).
  apply bind_Ok in H as (x & Hx & H). apply getitem_Ok in Hx.
  apply bind_Ok in H as ([[rest df] d2f] & Hc & H). injection H as <-.
  exists x, rest, df, d2f. auto.
Qed.

(** X19: constraint derivatives the solver itself put into [raw] are kept:
    on a successful AC solve with raw derivatives requested and no legacy
    [dg] in the results, a [raw] that already has [dg] comes back with its
    [dg] and [g] as they are, whatever [makeYbus] and [opf_consfcn] would
    do, and with [df] and [d2f] from [opf_costfcn] at the solver's [x]. *)
Theorem X19_supplied_derivatives_kept E om ppopt log st results0 raw0 res s
  raw der d :
  dispatch E om ppopt = (log, Ok st) →
  l_bound st = Some (results0, true, raw0) →
  opf_execute E om ppopt = (log, Ok (res, s, raw)) →
  truthy (l_dc st) = false →
  ppopt !! "RETURN_RAW_DER" = Some der → truthy der = true →
  results0 !! "dg" = None →
  raw0 !! "dg" = Some d →
  raw !! "dg" = Some d ∧ raw !! "g" = raw0 !! "g" ∧
  ∃ x rest df d2f,
    results0 !! "x" = Some x ∧ opf_costfcn E x om = Ok (rest, df, d2f) ∧
    raw !! "df" = Some df ∧ raw !! "d2f" = Some d2f.
Proof.
  intros Hd Hb Hrun Hdc Hder Hreq Hdg Hsup.
  destruct (run_stages _ _ _ _ _ _ _ _ _ _ _ Hd Hb Hrun)
    as (-> & raw1 & results2 & raw2 & results3 & H1 & H2 & H3 & H4).
  destruct (pwl_patch_frame _ _ _ _ _ _ _ H4) as [_ Hraw].
  destruct (correct_ac_stages _ _ _ _ _ _ _ _ Hdc H2)
    as (ra & rb & der' & Ha & Hpq & Hder' & Hder2 & _).
  destruct (returning_dispatch _ _ _ _ _ _ Hd Hb)
    as (alg & verbose & _ & _ & _ & Hpp & _).
  rewrite Hdc in Hpp. rewrite Hpp in Hder'. unfold ac_options in Hder'.
  rewrite lookup_insert_ne in Hder' by done.
  rewrite Hder in Hder'. injection Hder' as <-. rewrite Hreq in Hder2.
  assert (Hfr : ∀ j : string, j ≠ "gen" → rb !! j = results0 !! j).
  { intros j Hj. rewrite (pq_multipliers_frame _ _ _ _ _ j Hpq) by done.
    by apply (copy_bus_voltages_frame _ _ _ j Ha). }
  apply (raw_derivatives_supplied _ _ _ _ _ _ d) in Hder2
    as (x & rest & df & d2f & Hx & Hc & ->).
  2: { by rewrite Hfr. }
  2: { by rewrite (stamp_alg_frame _ _ _ "dg" H1). }
  rewrite Hfr in Hx by done.
  rewrite !Hraw by done. rewrite !lookup_insert_eq.
  rewrite !lookup_insert_ne by done. rewrite lookup_insert_eq.
  rewrite (stamp_alg_frame _ _ _ "dg" H1), (stamp_alg_frame _ _ _ "g" H1)
    by done.
  do 2 (split; [done|]). exists x, rest, df, d2f. auto.
Qed.

(** X20: an AC call needs the option [RETURN_RAW_DER] even when the solve
    fails: without it the failure branch raises [KeyError], after the solver
    has run. *)
Theorem X20_missing_raw_der_option_raises E om ppopt log st results0 raw0
  raw1 :
  dispatch E om ppopt = (log, Ok st) →
  l_bound st = Some (results0, false, raw0) →
  truthy (l_dc st) = false →
  stamp_alg (l_alg st) raw0 = Ok raw1 →
  ppopt !! "RETURN_RAW_DER" = None →
  opf_execute E om ppopt = (log, Raise (KeyError "RETURN_RAW_DER")).
Proof.
  intros Hd Hb Hdc Hstamp Hder.
  rewrite (opf_execute_post _ _ _ _ _ Hd). f_equal.
  destruct (returning_dispatch _ _ _ _ _ _ Hd Hb)
    as (alg & verbose & _ & _ & _ & Hpp & _).
  rewrite Hdc in Hpp.
  unfold post. rewrite Hb. unfold from_option.
  unfold mbind at 1 2, outcome_bind at 1 2. rewrite Hstamp.
  rewrite correct_failure, Hdc, Hpp. unfold getopt, ac_options.
  rewrite lookup_insert_ne by done. by rewrite Hder.
Qed.

Lemma correct_dc_options E om dc ppopt ppopt' results s raw :
  truthy dc = true →
  correct E om dc ppopt results s raw = correct E om dc ppopt' results s raw.
Proof.
  intros Hdc. destruct s.
  - by rewrite !correct_success, Hdc.
  - by rewrite !correct_failure, Hdc.
Qed.

Lemma dispatch_dc E om ppopt l0 dc alg verbose :
  setup E om ppopt = (l0, Ok (dc, alg, verbose)) →
  truthy dc = true →
  dispatch E om ppopt =
    (l0 ++ dc_banner verbose,
     match dcopf_solver E om ppopt with
     | Ok sol => Ok {| l_dc := dc; l_alg := alg; l_ppopt := ppopt;
                       l_bound := Some sol |}
     | Raise e => Raise e
     end).
Proof.
  intros Hs Ht. unfold dispatch. rewrite Hs.
  unfold mbind at 1, logged_bind at 1. rewrite Ht. unfold dc_banner.
  destruct (decide (0 < verbose)), (dcopf_solver E om ppopt);
    simpl; by rewrite ?app_nil_r.
Qed.

Lemma post_dc_options E om st ppopt' :
  truthy (l_dc st) = true →
  post E om (with_options st ppopt') = post E om st.
Proof.
  intros Hdc. unfold post, with_options. cbn [l_dc l_alg l_ppopt l_bound].
  destruct (l_bound st) as [[[results0 success] raw0]|]; [|reflexivity].
  unfold from_option, mbind, outcome_bind.
  destruct (stamp_alg (l_alg st) raw0) as [raw1|]; [|reflexivity].
  by rewrite (correct_dc_options E om (l_dc st) ppopt' (l_ppopt st)).
Qed.

(** X21: on a DC problem the options reach a call only through the three
    keys of the setup and through the DC solver; nothing after the solver
    call reads them.  Two option mappings that agree on [PF_DC], [OPF_ALG]
    and [VERBOSE], and for which the DC solver returns the same, give the
    same outcome and the same output, whatever else they hold,
    [RETURN_RAW_DER] included. *)
Theorem X21_dc_reads_no_option_after_the_solver E om ppopt ppopt' dc :
  ppopt !! "PF_DC" = Some dc →
  truthy dc = true →
  (∀ k : string, k ∈ ["PF_DC"; "OPF_ALG"; "VERBOSE"] →
     ppopt' !! k = ppopt !! k) →
  dcopf_solver E om ppopt' = dcopf_solver E om ppopt →
  opf_execute E om ppopt' = opf_execute E om ppopt.
Proof.
  intros Hdc Ht Hsame Hsol.
  assert (Hsetup : setup E om ppopt' = setup E om ppopt).
  { unfold setup, getopt. by rewrite !Hsame by (repeat constructor). }
  destruct (setup E om ppopt) as [l0 [[[dc0 alg] verbose]|e]] eqn:Hs.
  - pose proof Hs as Hs'. apply setup_Ok in Hs' as (Hdc0 & _).
    rewrite Hdc in Hdc0. injection Hdc0 as <-.
    unfold opf_execute.
    rewrite (dispatch_dc _ _ _ _ _ _ _ Hs Ht),
      (dispatch_dc _ _ _ _ _ _ _ Hsetup Ht), Hsol.
    destruct (dcopf_solver E om ppopt) as [sol|e]; [|reflexivity].
    unfold mbind, logged_bind, lift.
    by rewrite <- (post_dc_options E om
                     {| l_dc := dc; l_alg := alg; l_ppopt := ppopt;
                        l_bound := Some sol |} ppopt' Ht).
  - unfold opf_execute, dispatch. by rewrite Hsetup, Hs.
Qed.

(** ** The setup and the stamp *)

(** X22: a call whose options lack [PF_DC], [OPF_ALG] or [VERBOSE] raises
    [KeyError] for the first of them that is missing, before anything is
    written and whatever the model and the solvers would do. *)
Theorem X22_missing_option_raises E om ppopt k :
  first_missing_option ppopt = Some k →
  opf_execute E om ppopt = ([], Raise (KeyError k)).
Proof.
  unfold first_missing_option. intros H.
  unfold opf_execute, dispatch, setup, getopt.
  rewrite !filter_cons, filter_nil in H.
  destruct (ppopt !! "PF_DC") as [dc|].
  2: { rewrite decide_True in H by done. by injection H as <-. }
  rewrite decide_False in H by done.
  destruct (ppopt !! "OPF_ALG") as [alg|].
  2: { rewrite decide_True in H by done. by injection H as <-. }
  rewrite decide_False in H by done.
  destruct (ppopt !! "VERBOSE") as [verbose|].
  2: { rewrite decide_True in H by done. by injection H as <-. }
  rewrite decide_False in H by done. discriminate.
Qed.

(** X23: an exception of [om.build_cost_params] leaves the function before
    any banner is written, verbose or not, and before any solver runs. *)
Theorem X23_cost_parameters_failure_propagates E om ppopt e :
  first_missing_option ppopt = None →
  build_cost_params om = Raise e →
  opf_execute E om ppopt = ([], Raise e).
Proof.
  unfold first_missing_option. intros H Hb.
  unfold opf_execute, dispatch, setup, getopt.
  rewrite !filter_cons, filter_nil in H.
  destruct (ppopt !! "PF_DC") as [dc|].
  2: { by rewrite decide_True in H. }
  rewrite decide_False in H by done.
  destruct (ppopt !! "OPF_ALG") as [alg|].
  2: { by rewrite decide_True in H. }
  rewrite decide_False in H by done.
  destruct (ppopt !! "VERBOSE") as [verbose|].
  2: { by rewrite decide_True in H. }
  by rewrite Hb.
Qed.

Lemma stamp_alg_lacking alg (raw out : dict) :
  raw !! "output" = Some (PDict out) →
  lacks_entry out →
  stamp_alg alg raw = Ok (<["output" := PDict (<["alg" := PInt alg]> out)]> raw).
Proof.
  intros Hout Hlacks. unfold stamp_alg, lacks_alg. rewrite Hout.
  assert (Hset : setitem_at ["output"] "alg" (PInt alg) raw
            = Ok (<["output" := PDict (<["alg" := PInt alg]> out)]> raw)).
  { simpl. unfold getitem. by rewrite Hout. }
  destruct Hlacks as [Hnone|(a & Ha & Hlen)].
  - unfold as_dict, mbind, outcome_bind. by rewrite Hnone.
  - unfold as_dict, mbind, outcome_bind. by rewrite Ha, Hlen.
Qed.

(** X24: when the solver's output record has no algorithm entry, or an
    empty one, the call adds the code to that record and keeps the record's
    other entries (unless the legacy route rebuilds [raw]).  The code is the
    resolved one on an AC problem; on a DC problem it is the requested
    [OPF_ALG] as given, a 0 included. *)
Theorem X24_stamped_output_record E om ppopt log st results0 success raw0
  res s raw out alg :
  dispatch E om ppopt = (log, Ok st) →
  l_bound st = Some (results0, success, raw0) →
  opf_execute E om ppopt = (log, Ok (res, s, raw)) →
  ¬ legacy_derivatives (l_dc st) (l_ppopt st) results0 success →
  ppopt !! "OPF_ALG" = Some alg →
  raw0 !! "output" = Some (PDict out) →
  lacks_entry out →
  raw !! "output"
    = Some (PDict (<["alg" := PInt (stamped_code (l_dc st) alg)]> out)).
Proof.
  intros Hd Hb Hrun Hleg Halg Hout Hlacks.
  destruct (run_stages _ _ _ _ _ _ _ _ _ _ _ Hd Hb Hrun)
    as (-> & raw1 & results2 & raw2 & results3 & H1 & H2 & H3 & H4).
  destruct (pwl_patch_frame _ _ _ _ _ _ _ H4) as [_ Hraw].
  destruct (returning_dispatch _ _ _ _ _ _ Hd Hb)
    as (alg' & verbose & Hs & _ & Hcode & _ & _).
  apply setup_Ok in Hs as (_ & Halg' & _).
  rewrite Halg in Halg'. injection Halg' as <-.
  fold (stamped_code (l_dc st) alg) in Hcode.
  rewrite (stamp_alg_lacking _ _ _ Hout Hlacks) in H1. injection H1 as <-.
  rewrite Hraw by done.
  rewrite (correct_raw_kept _ _ _ _ _ _ _ _ _ "output" H2 Hleg)
    by (unfold derivative_keys; not_in_keys).
  by rewrite lookup_insert_eq, Hcode.
Qed.

Lemma correct_raw_unrequested E om dc ppopt results s raw results' raw' :
  wants_empty_derivatives dc ppopt = false →
  correct E om dc ppopt results s raw = Ok (results', raw') →
  raw' = raw.
Proof.
  unfold wants_empty_derivatives. intros Hw H.
  destruct (truthy dc) eqn:Hdc.
  { by destruct (correct_dc _ _ _ _ _ _ _ _ _ Hdc H). }
  simpl in Hw. destruct s.
  - destruct (correct_ac_stages _ _ _ _ _ _ _ _ Hdc H)
      as (ra & rb & der & _ & _ & Hder & Hraw & _).
    rewrite Hder in Hw. simpl in Hw. rewrite Hw in Hraw. by injection Hraw.
  - rewrite correct_failure, Hdc in H.
    apply bind_Ok in H as (der & Hder & H). apply getopt_Ok in Hder.
    rewrite Hder in Hw. simpl in Hw. rewrite Hw in H. by injection H.
Qed.

(** X25: derivative fields are only written on request: unless the problem
    is AC and [RETURN_RAW_DER] is set, a call that returns hands back [raw]
    as the solver left it apart from [output] and [xr]; the fields [g],
    [dg], [df] and [d2f] in particular are neither added nor changed. *)
Theorem X25_raw_without_derivative_request E om ppopt log st results0
  success raw0 res s raw (j : string) :
  dispatch E om ppopt = (log, Ok st) →
  l_bound st = Some (results0, success, raw0) →
  opf_execute E om ppopt = (log, Ok (res, s, raw)) →
  wants_empty_derivatives (l_dc st) (l_ppopt st) = false →
  j ≠ "output" → j ≠ "xr" →
  raw !! j = raw0 !! j.
Proof.
  intros Hd Hb Hrun Hw J1 J2.
  destruct (run_stages _ _ _ _ _ _ _ _ _ _ _ Hd Hb Hrun)
    as (-> & raw1 & results2 & raw2 & results3 & H1 & H2 & H3 & H4).
  destruct (pwl_patch_frame _ _ _ _ _ _ _ H4) as [_ Hraw].
  rewrite Hraw by done.
  rewrite (correct_raw_unrequested _ _ _ _ _ _ _ _ _ Hw H2).
  by apply (stamp_alg_frame _ _ _ j H1).
Qed.

(** ** The further cases, run *)

Lemma X1_witness :
  ∃ dc verbose,
    More.verbose (Case.ppopt 1 0 0) !! "PF_DC" = Some dc ∧
    More.verbose (Case.ppopt 1 0 0) !! "VERBOSE" = Some verbose ∧
    More.banner_call.1
      = version_banner (Case.E Case.solved) verbose ++
        (if truthy dc then dc_banner verbose else ac_banner verbose) ∧
    Forall (λ e : event, e.1 = Stdout) More.banner_call.1 ∧
    if decide (0 < verbose) then length More.banner_call.1 = 2%nat
    else More.banner_call.1 = [].
Proof.
  apply (X1_output_of_a_returning_call (Case.E Case.solved) (Case.om [])
           (More.verbose (Case.ppopt 1 0 0)) More.banner_call.1
           (Case.results_of More.banner_call,
            Case.success_of More.banner_call,
            Case.raw_of More.banner_call)).
  apply (returns_intro More.banner_call); by_vm.
Defined.

Lemma X2_witness :
  ∃ st dc alg results0 raw0,
    dispatch (More.E_ipopt Case.solved) (Case.om []) (Case.ppopt 0 580 0)
      = ([], Ok st) ∧
    Case.ppopt 0 580 0 !! "PF_DC" = Some dc ∧
    Case.ppopt 0 580 0 !! "OPF_ALG" = Some alg ∧
    l_bound st = Some (results0, Case.success_of More.ipopt_call, raw0) ∧
    solver_ran (More.E_ipopt Case.solved) (Case.om []) (Case.ppopt 0 580 0)
      dc alg (Ok (results0, Case.success_of More.ipopt_call, raw0)) ∧
    l_alg st = (if truthy dc then alg else if alg =? 0 then 560 else alg) ∧
    (truthy dc = false → l_alg st ∈ [560; 565; 580]).
Proof.
  apply (X2_solver_of_a_returning_call (More.E_ipopt Case.solved)
           (Case.om []) (Case.ppopt 0 580 0) []
           (Case.results_of More.ipopt_call)
           (Case.success_of More.ipopt_call)
           (Case.raw_of More.ipopt_call)).
  apply (returns_intro More.ipopt_call); by_vm.
Defined.

Lemma X3_witness :
  opf_execute More.E_raising (Case.om []) (More.verbose (Case.ppopt 1 0 0))
    = (version_banner More.E_raising 1 ++
       (if truthy 1 then dc_banner 1 else ac_banner 1),
       Raise (Raised "dcopf_solver")).
Proof.
  apply (X3_solver_exception_propagates More.E_raising (Case.om [])
           (More.verbose (Case.ppopt 1 0 0))
           (version_banner More.E_raising 1) 1 0 1 (Raised "dcopf_solver")).
  - by_vm.
  - reflexivity.
  - left. reflexivity.
Defined.

Lemma X4_witness :
  Case.results_of (Case.call Case.solved [] 0 0 0) !! "bus"
    = Case.results !! "bus".
Proof.
  apply (X4_results_frame (Case.E Case.solved) (Case.om [])
           (Case.ppopt 0 0 0) [] (Case.locals_at Case.solved [] 0 0 0)
           Case.results true Case.raw
           (Case.results_of (Case.call Case.solved [] 0 0 0))
           (Case.success_of (Case.call Case.solved [] 0 0 0))
           (Case.raw_of (Case.call Case.solved [] 0 0 0)) "bus").
  - apply dispatches_intro; by_vm.
  - by_vm.
  - apply returns_intro; by_vm.
  - unfold written_results_keys. not_in_keys.
Defined.

Lemma X5_witness :
  (∀ j : string, j ∉ dc_written_results_keys →
     Case.results_of (Case.call Case.solved [] 1 0 1) !! j
       = Case.results !! j) ∧
  (∀ j : string, j ∉ dc_written_raw_keys →
     Case.raw_of (Case.call Case.solved [] 1 0 1) !! j = Case.raw !! j).
Proof.
  apply (X5_dc_call_frame (Case.E Case.solved) (Case.om [])
           (Case.ppopt 1 0 1) [] (Case.locals_at Case.solved [] 1 0 1)
           Case.results true Case.raw
           (Case.results_of (Case.call Case.solved [] 1 0 1))
           (Case.success_of (Case.call Case.solved [] 1 0 1))
           (Case.raw_of (Case.call Case.solved [] 1 0 1))).
  - apply dispatches_intro; by_vm.
  - by_vm.
  - apply returns_intro; by_vm.
  - by_vm.
Defined.

Lemma X6_witness :
  Case.raw_of (Case.call (More.solved_with More.raw_info) [] 0 0 0) !! "info"
    = More.raw_info !! "info".
Proof.
  apply (X6_raw_frame (Case.E (More.solved_with More.raw_info)) (Case.om [])
           (Case.ppopt 0 0 0) []
           (Case.locals_at (More.solved_with More.raw_info) [] 0 0 0)
           Case.results true More.raw_info
           (Case.results_of
              (Case.call (More.solved_with More.raw_info) [] 0 0 0))
           (Case.success_of
              (Case.call (More.solved_with More.raw_info) [] 0 0 0))
           (Case.raw_of
              (Case.call (More.solved_with More.raw_info) [] 0 0 0)) "info").
  - apply dispatches_intro; by_vm.
  - by_vm.
  - apply returns_intro; by_vm.
  - intros (_ & _ & _ & [dg Hdg]). vm_compute in Hdg. discriminate.
  - unfold written_raw_keys. not_in_keys.
Defined.

Lemma X7_witness :
  Case.raw_of (Case.call (More.solved_with More.raw_named) [] 0 0 0)
    !! "output" = Some (PDict More.named).
Proof.
  apply (X7_own_alg_entry_is_kept
           (Case.E (More.solved_with More.raw_named)) (Case.om [])
           (Case.ppopt 0 0 0) []
           (Case.locals_at (More.solved_with More.raw_named) [] 0 0 0)
           Case.results true More.raw_named
           (Case.results_of
              (Case.call (More.solved_with More.raw_named) [] 0 0 0))
           (Case.success_of
              (Case.call (More.solved_with More.raw_named) [] 0 0 0))
           (Case.raw_of
              (Case.call (More.solved_with More.raw_named) [] 0 0 0))
           More.named (PStr "MIPS") 3%nat).
  - apply dispatches_intro; by_vm.
  - by_vm.
  - apply returns_intro; by_vm.
  - intros (_ & _ & _ & [dg Hdg]). vm_compute in Hdg. discriminate.
  - by_vm.
  - by_vm.
  - reflexivity.
Defined.

Lemma X8_witness :
  opf_execute (Case.E (More.solved_with More.raw_numbered)) (Case.om [])
    (Case.ppopt 1 200 0) = ([], Raise TypeError).
Proof.
  apply (X8_numeric_alg_entry_raises
           (Case.E (More.solved_with More.raw_numbered)) (Case.om [])
           (Case.ppopt 1 200 0) []
           (Case.locals_at (More.solved_with More.raw_numbered) [] 1 200 0)
           Case.results true More.raw_numbered More.numbered (PInt 200)).
  - apply dispatches_intro; by_vm.
  - by_vm.
  - by_vm.
  - by_vm.
  - right. left. exists 200. reflexivity.
Defined.

Lemma X9_witness :
  opf_execute (Case.E (More.solved_with More.raw_bare)) (Case.om [])
    (Case.ppopt 0 0 0) = ([], Raise (KeyError "output")).
Proof.
  apply (X9_missing_output_raises
           (Case.E (More.solved_with More.raw_bare)) (Case.om [])
           (Case.ppopt 0 0 0) []
           (Case.locals_at (More.solved_with More.raw_bare) [] 0 0 0)
           Case.results true More.raw_bare).
  - apply dispatches_intro; by_vm.
  - by_vm.
  - by_vm.
Defined.

Lemma X10_witness :
  Case.results_of (Case.call Case.legacy_solved [] 0 0 0) !! "dg"
    = (if true then None else Case.legacy_results !! "dg") ∧
  Case.results_of (Case.call Case.legacy_solved [] 0 0 0) !! "g"
    = (if true && bool_decide (is_Some (Case.legacy_results !! "dg"))
       then None else Case.legacy_results !! "g").
Proof.
  apply (X10_legacy_fields_stripped (Case.E Case.legacy_solved) (Case.om [])
           (Case.ppopt 0 0 0) [] (Case.locals_at Case.legacy_solved [] 0 0 0)
           Case.legacy_results true Case.raw
           (Case.results_of (Case.call Case.legacy_solved [] 0 0 0))
           (Case.success_of (Case.call Case.legacy_solved [] 0 0 0))
           (Case.raw_of (Case.call Case.legacy_solved [] 0 0 0))).
  - apply dispatches_intro; by_vm.
  - by_vm.
  - apply returns_intro; by_vm.
Defined.

Lemma X11_witness :
  opf_execute (Case.E (More.results_dg, true, Case.raw)) (Case.om [])
    (Case.ppopt 1 0 0) = ([], Raise (KeyError "g")).
Proof.
  apply (X11_dg_without_g_raises
           (Case.E (More.results_dg, true, Case.raw)) (Case.om [])
           (Case.ppopt 1 0 0) []
           (Case.locals_at (More.results_dg, true, Case.raw) [] 1 0 0)
           More.results_dg Case.raw (More.stamped 0 Case.raw)
           (PMat [[1%float]])).
  - apply dispatches_intro; by_vm.
  - by_vm.
  - by_vm.
  - by_vm.
  - by_vm.
  - by_vm.
Defined.

Lemma X12_witness :
  ∃ td,
    getitem_at ["var"; "mu"; "l"]
      (PDict (Case.results_of (Case.call Case.solved [] 0 0 0)))
      = Ok (PDict td) ∧
    keys_are td (λ n, n ∈ ["Va"; "Pg"; "Qg"; "y"] ∧ wide (Case.om []) "var" n).
Proof.
  apply (X12_space_keys (Case.E Case.solved) (Case.om [])
           (Case.ppopt 0 0 0) [] (Case.locals_at Case.solved [] 0 0 0)
           Case.results true Case.raw
           (Case.results_of (Case.call Case.solved [] 0 0 0))
           (Case.success_of (Case.call Case.solved [] 0 0 0))
           (Case.raw_of (Case.call Case.solved [] 0 0 0))
           "var" Case.vv ["Va"; "Pg"; "Qg"; "y"] var_fields
           ["var"; "mu"; "l"] ["mu"; "var"; "l"]).
  - apply dispatches_intro; by_vm.
  - by_vm.
  - apply returns_intro; by_vm.
  - apply elem_of_app. left. apply elem_of_cons. left. reflexivity.
  - unfold var_fields. apply elem_of_cons. right.
    apply elem_of_cons. left. reflexivity.
  - discriminate.
Defined.

Lemma X13_witness :
  ∃ cd,
    Case.results_of (Case.call Case.solved [] 1 0 0) !! "cost"
      = Some (PDict cd) ∧
    keys_are cd
      (λ n, n ∈ cost_order (Case.om []) ∧ wide (Case.om []) "cost" n).
Proof.
  apply (X13_cost_keys (Case.E Case.solved) (Case.om [])
           (Case.ppopt 1 0 0) [] (Case.locals_at Case.solved [] 1 0 0)
           Case.results true Case.raw
           (Case.results_of (Case.call Case.solved [] 1 0 0))
           (Case.success_of (Case.call Case.solved [] 1 0 0))
           (Case.raw_of (Case.call Case.solved [] 1 0 0))).
  - apply dispatches_intro; by_vm.
  - by_vm.
  - apply returns_intro; by_vm.
  - discriminate.
Defined.

Lemma X14_witness :
  Case.results_of (Case.call Case.solved [] 1 0 0) !! "nln"
    = Case.results !! "nln".
Proof.
  apply (X14_idle_spaces_untouched (Case.E Case.solved) (Case.om [])
           (Case.ppopt 1 0 0) [] (Case.locals_at Case.solved [] 1 0 0)
           Case.results true Case.raw
           (Case.results_of (Case.call Case.solved [] 1 0 0))
           (Case.success_of (Case.call Case.solved [] 1 0 0))
           (Case.raw_of (Case.call Case.solved [] 1 0 0)) "nln").
  - apply dispatches_intro; by_vm.
  - by_vm.
  - apply returns_intro; by_vm.
  - apply list_elem_of_singleton. reflexivity.
Defined.

Lemma X15_witness :
  ∃ gen0 gen,
    Case.results !! "gen" = Some (PMat gen0) ∧
    Case.results_of (Case.call Case.solved [] 0 0 0) !! "gen"
      = Some (PMat gen) ∧
    same_but_column (VG (Case.E Case.solved)) gen0 gen.
Proof.
  apply (X15_gen_changes_in_voltage_column_only (Case.E Case.solved)
           (Case.om []) (Case.ppopt 0 0 0) []
           (Case.locals_at Case.solved [] 0 0 0)
           Case.results Case.raw
           (Case.results_of (Case.call Case.solved [] 0 0 0))
           (Case.success_of (Case.call Case.solved [] 0 0 0))
           (Case.raw_of (Case.call Case.solved [] 0 0 0))).
  - apply dispatches_intro; by_vm.
  - by_vm.
  - apply returns_intro; by_vm.
  - by_vm.
  - intros (name & n & [-> | ->] & Hn & Hpos);
      vm_compute in Hn; injection Hn as <-; lia.
Defined.

Lemma X16_witness :
  ∃ baseMVA gen0 bus gen vl vu ah bh al bl lh uh ll' ul mu_PQh mu_PQl
    Apqdata out,
    Case.results !! "baseMVA" = Some baseMVA ∧
    Case.results !! "gen" = Some (PMat gen0) ∧
    Case.results !! "bus" = Some (PMat bus) ∧
    same_but_column (VG (Case.E Case.solved)) gen0 gen ∧
    gen_follows_bus (Case.E Case.solved) gen bus ∧
    getitem_at ["mu"; "lin"; "l"] (PDict Case.results) = Ok (PVec vl) ∧
    getitem_at ["mu"; "lin"; "u"] (PDict Case.results) = Ok (PVec vu) ∧
    idx_i1 (get_idx More.om_pq).1.1.2 !! "PQh" = Some ah ∧
    idx_iN (get_idx More.om_pq).1.1.2 !! "PQh" = Some bh ∧
    idx_i1 (get_idx More.om_pq).1.1.2 !! "PQl" = Some al ∧
    idx_iN (get_idx More.om_pq).1.1.2 !! "PQl" = Some bl ∧
    block_of vl ah bh lh ∧ block_of vu ah bh uh ∧
    block_of vl al bl ll' ∧ block_of vu al bl ul ∧
    difference lh uh mu_PQh ∧ difference ll' ul mu_PQl ∧
    userdata More.om_pq "Apqdata" = Ok Apqdata ∧
    update_mupq (Case.E Case.solved) baseMVA (PMat gen) mu_PQh mu_PQl Apqdata
      = Ok out ∧
    Case.results_of More.pq_call !! "gen" = Some out.
Proof.
  apply (X16_update_mupq_after_copy_back (Case.E Case.solved) More.om_pq
           (Case.ppopt 0 0 0) [] More.pq_locals Case.results Case.raw
           (Case.results_of More.pq_call) (Case.success_of More.pq_call)
           (Case.raw_of More.pq_call)).
  - apply (dispatches_intro
             (dispatch (Case.E Case.solved) More.om_pq (Case.ppopt 0 0 0)));
      by_vm.
  - by_vm.
  - apply (returns_intro More.pq_call); by_vm.
  - by_vm.
  - exists "PQh", 1. split; [by left|]. split; [by_vm|lia].
  - simpl. discriminate.
Defined.

Lemma X17_witness :
  truthy (l_dc (Case.locals_at Case.solved [0] 1 545 0)) = true ∧
  before_patch (Case.E Case.solved) (Case.om [0])
    (Case.locals_at Case.solved [0] 1 545 0)
    = Ok (Case.results_of (Case.call Case.solved [0] 1 545 0),
          Case.raw_of (Case.call Case.solved [0] 1 545 0)) ∧
  Case.results_of (Case.call Case.solved [0] 1 545 0) !! "x"
    = Case.results !! "x" ∧
  Case.raw_of (Case.call Case.solved [0] 1 545 0) !! "xr"
    = Case.raw !! "xr".
Proof.
  apply (X17_native_codes_skip_the_patch (Case.E Case.solved) (Case.om [0])
           (Case.ppopt 1 545 0) [] (Case.locals_at Case.solved [0] 1 545 0)
           Case.results true Case.raw
           (Case.results_of (Case.call Case.solved [0] 1 545 0))
           (Case.success_of (Case.call Case.solved [0] 1 545 0))
           (Case.raw_of (Case.call Case.solved [0] 1 545 0))).
  - apply dispatches_intro; by_vm.
  - by_vm.
  - apply returns_intro; by_vm.
  - left. by_vm.
Defined.

Lemma X18_witness :
  opf_execute (Case.E Case.legacy_solved) (Case.om [0]) (Case.ppopt 0 0 1)
    = ([], Raise (KeyError "xr")).
Proof.
  apply (X18_legacy_route_breaks_the_patch (Case.E Case.legacy_solved)
           (Case.om [0]) (Case.ppopt 0 0 1) []
           (Case.locals_at Case.legacy_solved [0] 0 0 1)
           Case.legacy_results true Case.raw
           (More.results_before
              (before_patch (Case.E Case.legacy_solved) (Case.om [0])
                 (Case.locals_at Case.legacy_solved [0] 0 0 1)))
           (More.raw_before
              (before_patch (Case.E Case.legacy_solved) (Case.om [0])
                 (Case.locals_at Case.legacy_solved [0] 0 0 1)))
           1%nat 4).
  - apply dispatches_intro; by_vm.
  - by_vm.
  - split; [reflexivity|]. split; [by_vm|]. split.
    + exists 1. split; [by_vm|reflexivity].
    + exists (PMat [[1%float]]). by_vm.
  - by_vm.
  - split; [exists (PIdx [0]); split; reflexivity|].
    split; [lia|]. vm_compute. split; discriminate.
  - by_vm.
Defined.

Lemma X19_witness :
  Case.raw_of (Case.call (More.solved_with More.raw_der) [] 0 0 1) !! "dg"
    = Some (PMat [[2%float]]) ∧
  Case.raw_of (Case.call (More.solved_with More.raw_der) [] 0 0 1) !! "g"
    = More.raw_der !! "g" ∧
  ∃ x rest df d2f,
    Case.results !! "x" = Some x ∧
    opf_costfcn (Case.E (More.solved_with More.raw_der)) x (Case.om [])
      = Ok (rest, df, d2f) ∧
    Case.raw_of (Case.call (More.solved_with More.raw_der) [] 0 0 1) !! "df"
      = Some df ∧
    Case.raw_of (Case.call (More.solved_with More.raw_der) [] 0 0 1) !! "d2f"
      = Some d2f.
Proof.
  apply (X19_supplied_derivatives_kept
           (Case.E (More.solved_with More.raw_der)) (Case.om [])
           (Case.ppopt 0 0 1) []
           (Case.locals_at (More.solved_with More.raw_der) [] 0 0 1)
           Case.results More.raw_der
           (Case.results_of (Case.call (More.solved_with More.raw_der) [] 0 0 1))
           (Case.success_of (Case.call (More.solved_with More.raw_der) [] 0 0 1))
           (Case.raw_of (Case.call (More.solved_with More.raw_der) [] 0 0 1))
           1 (PMat [[2%float]])).
  - apply dispatches_intro; by_vm.
  - by_vm.
  - apply returns_intro; by_vm.
  - by_vm.
  - by_vm.
  - reflexivity.
  - by_vm.
  - by_vm.
Defined.

Lemma X20_witness :
  opf_execute (Case.E Case.failed) (Case.om []) (More.ppopt_bare 0 0)
    = ([], Raise (KeyError "RETURN_RAW_DER")).
Proof.
  apply (X20_missing_raw_der_option_raises (Case.E Case.failed) (Case.om [])
           (More.ppopt_bare 0 0) [] More.bare_locals
           Case.results Case.raw (More.stamped 560 Case.raw)).
  - apply (dispatches_intro
             (dispatch (Case.E Case.failed) (Case.om [])
                (More.ppopt_bare 0 0))); by_vm.
  - by_vm.
  - by_vm.
  - by_vm.
  - by_vm.
Defined.

Lemma X21_witness :
  opf_execute (Case.E Case.solved) (Case.om []) (More.ppopt_bare 1 0)
    = opf_execute (Case.E Case.solved) (Case.om []) (Case.ppopt 1 0 1).
Proof.
  apply (X21_dc_reads_no_option_after_the_solver (Case.E Case.solved)
           (Case.om []) (Case.ppopt 1 0 1) (More.ppopt_bare 1 0) 1).
  - by_vm.
  - reflexivity.
  - intros k Hk.
    repeat (apply elem_of_cons in Hk as [->|Hk]; [by_vm|]).
    by apply elem_of_nil in Hk.
  - reflexivity.
Defined.

Lemma X22_witness :
  opf_execute (Case.E Case.solved) (Case.om []) (<["PF_DC" := 0]> ∅)
    = ([], Raise (KeyError "OPF_ALG")).
Proof.
  apply (X22_missing_option_raises (Case.E Case.solved) (Case.om [])
           (<["PF_DC" := 0]> ∅) "OPF_ALG").
  by_vm.
Defined.

Lemma X23_witness :
  opf_execute (Case.E Case.solved) More.om_broken
    (More.verbose (Case.ppopt 0 0 0))
    = ([], Raise (Raised "build_cost_params")).
Proof.
  apply (X23_cost_parameters_failure_propagates (Case.E Case.solved)
           More.om_broken (More.verbose (Case.ppopt 0 0 0))
           (Raised "build_cost_params")).
  - by_vm.
  - reflexivity.
Defined.

Lemma X24_witness :
  Case.raw_of (Case.call Case.solved [] 1 0 0) !! "output"
    = Some (PDict (<["alg" :=
                       PInt (stamped_code
                               (l_dc (Case.locals_at Case.solved [] 1 0 0)) 0)]>
                     (<["iterations" := PInt 9]> ∅))).
Proof.
  apply (X24_stamped_output_record (Case.E Case.solved) (Case.om [])
           (Case.ppopt 1 0 0) [] (Case.locals_at Case.solved [] 1 0 0)
           Case.results true Case.raw
           (Case.results_of (Case.call Case.solved [] 1 0 0))
           (Case.success_of (Case.call Case.solved [] 1 0 0))).
  - apply dispatches_intro; by_vm.
  - by_vm.
  - apply returns_intro; by_vm.
  - intros (_ & Hdc & _). vm_compute in Hdc. discriminate.
  - by_vm.
  - by_vm.
  - left. by_vm.
Defined.

Lemma X25_witness :
  Case.raw_of (Case.call (More.solved_with More.raw_der) [] 0 0 0) !! "dg"
    = More.raw_der !! "dg".
Proof.
  apply (X25_raw_without_derivative_request
           (Case.E (More.solved_with More.raw_der)) (Case.om [])
           (Case.ppopt 0 0 0) []
           (Case.locals_at (More.solved_with More.raw_der) [] 0 0 0)
           Case.results true More.raw_der
           (Case.results_of (Case.call (More.solved_with More.raw_der) [] 0 0 0))
           (Case.success_of (Case.call (More.solved_with More.raw_der) [] 0 0 0))
           (Case.raw_of (Case.call (More.solved_with More.raw_der) [] 0 0 0))
           "dg").
  - apply dispatches_intro; by_vm.
  - by_vm.
  - apply returns_intro; by_vm.
  - by_vm.
  - discriminate.
  - discriminate.
Defined.
